(** * Cuddles: the overlay-aware export pipeline

  A shallow embedding of the export code of the editor
  ([src/utils/exportRouter.js], [src/utils/canvasCompositor.js],
  [src/utils/webcodecsExporter.js], [src/components/VideoEditor.jsx],
  [src/components/TextTimeline.jsx], [src/components/TextOverlayLayer.jsx])
  and the properties of its specification.

  The times and the coordinates of the editor are embedded as rationals
  [Q], and the geometry of the canvas and the comparisons of times are
  computed over [Q], up to [==].  The numbers that the graph-based export
  prints into the filter graph (loop counts, positions, scale factors) and
  the sizes that the engine computes from them are computed in binary64,
  as the machine does ([Double]). *)

From Stdlib Require Import ZArith QArith Qround Qabs Qpower List String Lia Lqa.
From Stdlib Require Import Permutation Sorted.
From Stdlib Require Floats.SpecFloat.
From stdpp Require Import gmap strings list pretty.

Open Scope Q_scope.

(** ** JavaScript values used by the code *)

Module JS.

(** [Math.max(a, b)] and [Math.min(a, b)]. *)
Definition Math_max (a b : Q) : Q := if Qle_bool a b then b else a.
Definition Math_min (a b : Q) : Q := if Qle_bool a b then a else b.

(** A number is falsy when it is zero. *)
Definition truthy (q : Q) : bool := negb (Qeq_bool q 0).

(** [v || d] where [v] is a number that may be [undefined] or [null]. *)
Definition or_num (v : option Q) (d : Q) : Q :=
  match v with
  | Some q => if truthy q then q else d
  | None => d
  end.

(** [v || null] on such a number. *)
Definition or_null (v : option Q) : option Q :=
  match v with
  | Some q => if truthy q then Some q else None
  | None => None
  end.

(** [a || b || c] on numbers that are always defined. *)
Definition or_else (a b : Q) : Q := if truthy a then a else b.

(** [v || d] where [v] is a string that may be [undefined]; the empty
    string is falsy. *)
Definition or_str (v : option string) (d : string) : string :=
  match v with
  | Some s => if String.eqb s "" then d else s
  | None => d
  end.

(** [s.includes(sub)]. *)
Definition includes (s sub : string) : bool :=
  match String.index 0 sub s with
  | Some _ => true
  | None => false
  end.

(** [a < b] as a condition. *)
Definition less (a b : Q) : bool := negb (Qle_bool b a).

(** ASCII lowercase of a character and of a string. *)
Definition ascii_lowercase (c : Ascii.ascii) : Ascii.ascii :=
  let n := Ascii.nat_of_ascii c in
  if ((65 <=? n) && (n <=? 90))%nat then Ascii.ascii_of_nat (n + 32) else c.

Fixpoint lowercase (s : string) : string :=
  match s with
  | EmptyString => EmptyString
  | String c s' => String (ascii_lowercase c) (lowercase s')
  end.

(** Every character is in the range U+0020 to U+007E. *)
Fixpoint printable (s : string) : bool :=
  match s with
  | EmptyString => true
  | String c s' =>
      let n := Ascii.nat_of_ascii c in
      ((32 <=? n) && (n <=? 126))%nat && printable s'
  end.

End JS.

Import JS.

(** ** JavaScript numbers as the machine has them

    A number of JavaScript, and of the expressions of the filter graph, is
    an IEEE 754 binary64 value.  Where the code prints a number into the
    filter graph the embedding computes it in binary64, with the operations
    of [SpecFloat] at precision 53 and maximal exponent 1024 (rounding to
    nearest, ties to even). *)

Module Double.

Import SpecFloat.

Definition prec : Z := 53.
Definition emax : Z := 1024.

Definition number : Type := spec_float.

Definition NaN : number := S754_nan.

Definition add : number -> number -> number := SFadd prec emax.
Definition sub : number -> number -> number := SFsub prec emax.
Definition mul : number -> number -> number := SFmul prec emax.
Definition div : number -> number -> number := SFdiv prec emax.

Definition eqb : number -> number -> bool := SFeqb.

(** An integer as a number (exact up to [2^53]). *)
Definition of_Z (z : Z) : number := binary_normalize prec emax z 0 false.

(** A rational of the model as a number: the quotient of its numerator by
    its denominator, which is the nearest number when both are below
    [2^53]. *)
Definition of_Q (q : Q) : number := div (of_Z (Qnum q)) (of_Z (Zpos (Qden q))).

(** A number that may be [undefined]: [undefined] in arithmetic is [NaN]. *)
Definition of_option (v : option Q) : number :=
  match v with
  | Some q => of_Q q
  | None => NaN
  end.

Definition two : number := S754_finite false 4503599627370496 (-51).

Definition is_finite (x : number) : bool :=
  match x with
  | S754_zero _ | S754_finite _ _ _ => true
  | S754_infinity _ | S754_nan => false
  end.

(** The sign bit; [NaN] has none. *)
Definition negative (x : number) : bool :=
  match x with
  | S754_zero s | S754_infinity s | S754_finite s _ _ => s
  | S754_nan => false
  end.

(** Zero, or a normal number whose half is normal too: 53 significant bits
    and an exponent from -1072 to 971. *)
Definition normal (x : number) : bool :=
  match x with
  | S754_zero _ => true
  | S754_finite _ m e =>
      Pos.eqb (digits2_pos m) 53 && (-1072 <=? e)%Z && (e <=? 971)%Z
  | _ => false
  end.

(** The rational a finite number stands for; 0 for the others. *)
Definition value (x : number) : Q :=
  match x with
  | S754_finite s m e => inject_Z (cond_Zopp s (Zpos m)) * 2 ^ e
  | _ => 0
  end.

(** [Math.ceil(x)]: a significand [m] with exponent [e < 0] is
    [n + r / 2^(-e)] with [n] its integer part. *)
Definition Math_ceil (x : number) : number :=
  match x with
  | S754_finite s m e =>
      if (0 <=? e)%Z then x
      else
        let p := (2 ^ (- e))%Z in
        let n := (Zpos m / p)%Z in
        let r := (Zpos m mod p)%Z in
        if s then (if (n =? 0)%Z then S754_zero true else of_Z (- n))
        else of_Z (if (r =? 0)%Z then n else n + 1)
  | _ => x
  end.

(** [trunc(x)] of the expressions of the engine: the bits of the
    significand under the binary point are cleared. *)
Definition Math_trunc (x : number) : number :=
  match x with
  | S754_finite s m e =>
      if (0 <=? e)%Z then x
      else
        let p := (2 ^ (- e))%Z in
        let n := (Zpos m / p)%Z in
        if (n =? 0)%Z then S754_zero s
        else S754_finite s (Z.to_pos (n * p)) e
  | _ => x
  end.

(** [Math.round(x)]: the nearest integer, a half rounds up. *)
Definition Math_round (x : number) : number :=
  match x with
  | S754_finite s m e =>
      if (0 <=? e)%Z then x
      else
        let p := (2 ^ (- e))%Z in
        let n := ((2 * cond_Zopp s (Zpos m) + p) / (2 * p))%Z in
        if (n =? 0)%Z then S754_zero s else of_Z n
  | _ => x
  end.

(** The conversion of a number to an [unsigned long], as when it is
    assigned to [canvas.width]: [NaN] and the infinities give 0, another
    number is truncated and taken modulo [2^32]. *)
Definition to_unsigned_long (x : number) : Z :=
  match x with
  | S754_finite s m e =>
      (cond_Zopp s
         (if (0 <=? e)%Z then Zpos m * 2 ^ e else Zpos m / 2 ^ (- e))
       mod 2 ^ 32)%Z
  | _ => 0%Z
  end.

End Double.

(** ** Data model: layers

  A layer is the object built by [handleAddText] and [handleSaveDrawing] in
  VideoEditor.jsx.  Fields that the code reads through a default
  ([transform.scale || [1, 1]], [style.fontSize || 40]) are optional. *)

(** A text layer's id is [Date.now().toString()], a drawing's is the number
  [Date.now()]; [===] never identifies a string with a number. *)
Inductive ident :=
| IdStr (s : string)
| IdNum (n : Z).

Definition ident_eqb (a b : ident) : bool :=
  match a, b with
  | IdStr s, IdStr t => String.eqb s t
  | IdNum n, IdNum m => Z.eqb n m
  | _, _ => false
  end.

(** The property key an id is turned into when it indexes an object. *)
Definition toKey (i : ident) : string :=
  match i with
  | IdStr s => s
  | IdNum n => pretty n
  end.

Record Style := mkStyle {
  st_fontSize : option Q;
  st_color : option string;
  st_fontFamily : option string;
  st_fontWeight : option string;
  st_textAlign : option string
}.

Record Transform := mkTransform {
  tf_x : Q;
  tf_y : Q;
  tf_scale : option (Q * Q);
  tf_rotate : option Q
}.

Record Timing := mkTiming {
  tm_start : Q;
  tm_end : Q
}.

(** A decoded still: [img.width] and [img.height] are integers. *)
Record Image := mkImage {
  img_src : string;
  img_width : Z;
  img_height : Z
}.

Record Layer := mkLayer {
  l_id : ident;
  l_type : option string;
  l_src : option string;
  l_text : string;
  l_style : Style;
  l_transform : Transform;
  l_timing : Timing;
  l_cachedImage : option Image
}.

(** [type === 'image'] *)
Definition is_image (l : Layer) : bool :=
  match l_type l with
  | Some t => String.eqb t "image"
  | None => false
  end.

(** [src] as a condition: a non-empty string. *)
Definition has_src (l : Layer) : bool :=
  match l_src l with
  | Some s => negb (String.eqb s "")
  | None => false
  end.

(** The invariant of a layer's timing in the data model: [start < end]. *)
Definition valid_timing (l : Layer) : Prop :=
  tm_start (l_timing l) < tm_end (l_timing l).

(** ** The layers the editor creates (VideoEditor.jsx)

    [now] is [Date.now()].  The [width] and [height] that [handleAddText]
    puts in [transform] are read by no code of the export and are left out. *)

Module VideoEditor.

(** [newText] of [handleAddText]. *)
Definition newText (now : Z) (videoDuration : Q) : Layer :=
  {| l_id := IdStr (pretty now);
     l_type := None;
     l_src := None;
     l_text := "Double Click to Edit";
     l_style :=
       mkStyle (Some 40) (Some "#ffffff") (Some "Clash Display") (Some "600")
         (Some "center");
     l_transform := mkTransform 100 100 (Some (1, 1)) (Some 0);
     l_timing := mkTiming 0 (or_else videoDuration 5);
     l_cachedImage := None |}.

Definition handleAddText (now : Z) (videoDuration : Q)
    (textLayers : list Layer) : list Layer :=
  textLayers ++ [newText now videoDuration].

(** [newLayer] of [handleSaveDrawing(dataUrl, x, y)]. *)
Definition newLayer (now : Z) (dataUrl : string)
    (x y currentTime videoDuration : Q) : Layer :=
  {| l_id := IdNum now;
     l_type := Some "image";
     l_src := Some dataUrl;
     l_text := "Drawing";
     l_style := mkStyle None None None None None;
     l_transform := mkTransform x y (Some (1, 1)) (Some 0);
     l_timing :=
       mkTiming currentTime (Math_min (currentTime + 3) videoDuration);
     l_cachedImage := None |}.

Definition handleSaveDrawing (now : Z) (dataUrl : string)
    (x y currentTime videoDuration : Q) (prev : list Layer) : list Layer :=
  prev ++ [newLayer now dataUrl x y currentTime videoDuration].

(** [layer.timing = timing]: the layer with its timing replaced, as the
    timeline's drag and resize write it. *)
Definition with_timing (timing : Timing) (l : Layer) : Layer :=
  {| l_id := l_id l; l_type := l_type l; l_src := l_src l;
     l_text := l_text l; l_style := l_style l;
     l_transform := l_transform l; l_timing := timing;
     l_cachedImage := l_cachedImage l |}.

End VideoEditor.

(** ** Export router (exportRouter.js) *)

Module ExportRouter.

(** What [canUseWebCodecs] looks at: whether [window] exists and which of
    the four codec classes it has. *)
Record Window := mkWindow {
  has_VideoEncoder : bool;
  has_VideoDecoder : bool;
  has_AudioEncoder : bool;
  has_AudioDecoder : bool
}.

Definition Runtime := option Window.

Inductive ExportMethod := webcodecs | ffmpeg | unsupported.

Definition canUseWebCodecs (rt : Runtime) : bool :=
  match rt with
  | None => false
  | Some w =>
      has_VideoEncoder w && has_VideoDecoder w &&
      has_AudioEncoder w && has_AudioDecoder w
  end.

Definition needsWebCodecs (textLayers drawingLayers : list Layer) : bool :=
  (0 <? length textLayers)%nat || (0 <? length drawingLayers)%nat.

Definition getExportMethod (rt : Runtime)
    (textLayers drawingLayers : list Layer) : ExportMethod :=
  let hasOverlays := needsWebCodecs textLayers drawingLayers in
  let supportsWebCodecs := canUseWebCodecs rt in
  if hasOverlays then
    if supportsWebCodecs then webcodecs else unsupported
  else ffmpeg.

(** The decision as the specification words it, on the whole layer list
    and one capability flag. *)
Inductive Route := Streaming | GraphBased | Unsupported.

Definition route_spec (layers : list Layer) (hasFrameCodecAccess : bool)
    : Route :=
  match layers with
  | [] => GraphBased
  | _ :: _ => if hasFrameCodecAccess then Streaming else Unsupported
  end.

Definition route_of (m : ExportMethod) : Route :=
  match m with
  | webcodecs => Streaming
  | ffmpeg => GraphBased
  | unsupported => Unsupported
  end.

(** [isChromium()]: [userAgent] is [navigator.userAgent]. *)
Definition isChromium (rt : Runtime) (userAgent : string) : bool :=
  match rt with
  | None => false
  | Some _ => includes userAgent "Chrome" && negb (includes userAgent "Edg")
  end.

Definition getUnsupportedMessage (rt : Runtime) (userAgent : string)
    : string :=
  if isChromium rt userAgent
  then "Please update your browser to use text and drawing overlays."
  else "Text and drawing overlays require Chrome, Edge, or Arc. Trim-only export is available.".

End ExportRouter.

(** ** Active overlays *)

Module Active.

(** The filter of [getActiveOverlays] (canvasCompositor.js): [currentTime]
    is relative to the start of the export. *)
Definition active_at (currentTime startTime : Q) (overlay : Layer) : bool :=
  let adjustedStart := Math_max 0 (tm_start (l_timing overlay) - startTime) in
  let adjustedEnd := tm_end (l_timing overlay) - startTime in
  Qle_bool adjustedStart currentTime && Qle_bool currentTime adjustedEnd.

Definition getActiveOverlays (overlays : list Layer)
    (currentTime startTime : Q) : list Layer :=
  List.filter (active_at currentTime startTime) overlays.

(** The filter inside [renderFrame] (webcodecsExporter.js), from the
    video's own time: [relativeTime = currentTime - this.startTime]. *)
Definition activeOverlays (overlays : list Layer)
    (video_currentTime this_startTime : Q) : list Layer :=
  let relativeTime := video_currentTime - this_startTime in
  List.filter (fun o =>
    let start := Math_max 0 (tm_start (l_timing o) - this_startTime) in
    let end_ := tm_end (l_timing o) - this_startTime in
    Qle_bool start relativeTime && Qle_bool relativeTime end_) overlays.

(** The filter of the preview (TextOverlayLayer.jsx). *)
Definition visibleLayers (textLayers : list Layer) (currentTime : Q)
    : list Layer :=
  List.filter (fun layer =>
    Qle_bool (tm_start (l_timing layer)) currentTime &&
    Qle_bool currentTime (tm_end (l_timing layer))) textLayers.

(** The predicate of the specification, in source-video time. *)
Definition active_spec (l : Layer) (t : Q) : Prop :=
  tm_start (l_timing l) <= t /\ t <= tm_end (l_timing l).

End Active.

(** ** Overlay store (VideoEditor.jsx)

    [handleUpdateText] merges with the object spread, which works on a layer
    as a bag of named properties; here a layer is the finite map of its own
    properties. *)

Module Store.

Inductive Field :=
| FId (i : ident)
| FStr (s : string)
| FStyle (s : Style)
| FTransform (t : Transform)
| FTiming (t : Timing).

(** The object of a layer: [type] and [src] are own properties only where
    they are set. *)
Definition obj_of_layer (l : Layer) : gmap string Field :=
  let base : gmap string Field :=
    <["id" := FId (l_id l)]>
    (<["text" := FStr (l_text l)]>
    (<["style" := FStyle (l_style l)]>
    (<["transform" := FTransform (l_transform l)]>
    (<["timing" := FTiming (l_timing l)]> ∅)))) in
  let with_type :=
    match l_type l with
    | Some t => <["type" := FStr t]> base
    | None => base
    end in
  match l_src l with
  | Some s => <["src" := FStr s]> with_type
  | None => with_type
  end.

(** [{ ...layer, ...updates }]: the properties of [updates] win. *)
Definition spread (layer updates : gmap string Field) : gmap string Field :=
  updates ∪ layer.

(** [layer.id === id] *)
Definition id_is (layer : gmap string Field) (id : ident) : bool :=
  match layer !! "id" with
  | Some (FId j) => ident_eqb j id
  | _ => false
  end.

(** The state update of [handleUpdateText(id, updates)]. *)
Definition handleUpdateText (id : ident) (updates : gmap string Field)
    (layers : list (gmap string Field)) : list (gmap string Field) :=
  List.map (fun layer => if id_is layer id then spread layer updates else layer)
    layers.

(** The state update of [handleRemoveText(id)]. *)
Definition handleRemoveText (id : ident)
    (layers : list (gmap string Field)) : list (gmap string Field) :=
  List.filter (fun layer => negb (id_is layer id)) layers.

End Store.

(** ** Streaming exporter (webcodecsExporter.js): options and results *)

Module Exporter.

Record Options := mkOptions {
  o_startTime : option Q;
  o_endTime : option Q;
  o_overlays : option (list Layer);
  o_displayWidth : option Q;
  o_displayHeight : option Q
}.

Record Blob := mkBlob {
  blob_size : N;
  blob_type : string
}.

(** The fields of a [MediaRecorderExporter] that the export reads. *)
Record MediaRecorderExporter := mkExporter {
  startTime : Q;
  endTime : option Q;
  overlays : list Layer;
  displayWidth : option Q;
  displayHeight : option Q;
  recordedChunks : list Blob
}.

Definition constructor (options : Options) : MediaRecorderExporter :=
  {| startTime := or_num (o_startTime options) 0;
     endTime := or_null (o_endTime options);
     overlays := match o_overlays options with Some l => l | None => [] end;
     displayWidth := or_null (o_displayWidth options);
     displayHeight := or_null (o_displayHeight options);
     recordedChunks := [] |}.

Record VideoInfo := mkVideoInfo {
  vi_width : Q;
  vi_height : Q;
  vi_duration : Q;
  vi_fps : Q
}.

(** [exportDuration] as [export()] computes it. *)
Definition exportDuration (this : MediaRecorderExporter) (videoInfo : VideoInfo)
    : Q :=
  let duration := or_num (endTime this) (vi_duration videoInfo) in
  duration - startTime this.

(** A promise as [await] finds it: fulfilled with a value, rejected with
    an error, or never settled.  A [throw] in an [async] function is the
    rejection of its promise. *)
Inductive Promise (A : Type) :=
| Resolved (value : A)
| Rejected (message : string)
| Pending.
Arguments Resolved {A} value.
Arguments Rejected {A} message.
Arguments Pending {A}.

(** [const x = await p; k(x)] *)
Definition await {A B} (p : Promise A) (k : A -> Promise B) : Promise B :=
  match p with
  | Resolved value => k value
  | Rejected message => Rejected message
  | Pending => Pending
  end.

(** A call that returns or throws. *)
Definition call (exception : option string) : Promise unit :=
  match exception with
  | Some message => Rejected message
  | None => Resolved tt
  end.

(** [new Blob(parts, { type })]: the size is the sum of the sizes of the
    parts; the type is turned to ASCII lowercase, and is empty when it has a
    character outside U+0020 to U+007E. *)
Definition new_Blob (parts : list Blob) (type : string) : Blob :=
  {| blob_size := fold_right N.add 0%N (List.map blob_size parts);
     blob_type := if printable type then lowercase type else "" |}.

(** [mediaRecorder.ondataavailable]: an event may carry no data. *)
Definition ondataavailable (event_data : option Blob)
    (this : MediaRecorderExporter) : MediaRecorderExporter :=
  match event_data with
  | Some data =>
      if (0 <? blob_size data)%N then
        {| startTime := startTime this; endTime := endTime this;
           overlays := overlays this; displayWidth := displayWidth this;
           displayHeight := displayHeight this;
           recordedChunks := recordedChunks this ++ [data] |}
      else this
  | None => this
  end.

(** [mediaRecorder.onstop]: settles the promise of [processVideoFrames]. *)
Definition onstop (mimeType : string) (this : MediaRecorderExporter)
    : Promise Blob :=
  if (length (recordedChunks this) =? 0)%nat then
    Rejected "No data was recorded"
  else
    let blob := new_Blob (recordedChunks this) mimeType in
    let mp4Blob :=
      if includes mimeType "mp4" || includes (blob_type blob) "mp4"
      then blob
      else new_Blob [blob] "video/mp4" in
    Resolved mp4Blob.

(** [mime;codecs="list"] *)
Definition codecs (mime list : string) : string :=
  mime ++ ";codecs=" ++ String (Ascii.ascii_of_nat 34) EmptyString ++ list ++
  String (Ascii.ascii_of_nat 34) EmptyString.

(** The candidates of [getSupportedMimeType], in its order. *)
Definition types : list string :=
  [codecs "video/mp4" "avc1.42E01E,mp4a.40.2";
   codecs "video/mp4" "avc1.640029,mp4a.40.2";
   codecs "video/mp4" "avc1.42E01E";
   codecs "video/mp4" "avc1.640029";
   "video/mp4";
   codecs "video/webm" "vp9,opus";
   codecs "video/webm" "vp8,opus";
   codecs "video/webm" "vp9";
   codecs "video/webm" "vp8";
   "video/webm"].

(** [getSupportedMimeType()]: [None] is the exception 'No supported
    MediaRecorder MIME type found'. *)
Definition getSupportedMimeType (isTypeSupported : string -> bool)
    : option string :=
  List.find isTypeSupported types.

(** When the [stop] event of the recorder is dispatched.  When the
    recorder stops while [processVideoFrames] still awaits the seek or
    [video.play()], as it does when [abort()] is called then, the event is
    dispatched before [onstop] is assigned and no handler hears it.  Once
    [onstop] is assigned the recorder is stopped by [renderFrame], by
    [abort()] or by the timer of [(exportDuration + 2) * 1000]
    milliseconds. *)
Inductive Stop :=
| stop_before_onstop
| stop_after_onstop.

(** What the browser does during one call of [export()]. *)
Record Run := mkRun {
  (** [getVideoInfo()]: the metadata when [loadedmetadata] fires, the
      rejection when [error] fires. *)
  run_getVideoInfo : Promise VideoInfo;
  (** The video element of [processVideoFrames]: [loadedmetadata] or
      [error]. *)
  run_loadedmetadata : Promise unit;
  (** The exception of [canvas.captureStream(fps)], if any. *)
  run_captureStream : option string;
  (** [MediaRecorder.isTypeSupported] *)
  run_isTypeSupported : string -> bool;
  (** The exception of [new MediaRecorder(...)] or of [start()], if any. *)
  run_start : option string;
  (** The [seeked] event of [seekToTime(this.startTime)] fires. *)
  run_seeked : bool;
  (** [video.play()] *)
  run_play : Promise unit;
  (** The [dataavailable] events, in order, and the [stop] event. *)
  run_events : list (option Blob);
  run_stop : Stop
}.

(** [processVideoFrames(videoInfo, exportDuration)].  The failure to add
    the audio track and the failure to load an image are caught and logged;
    the callbacks [onLog] and [onProgress] are taken to return.  The frames
    painted on the canvas are in [Compositor.renderFrame]; [videoInfo] and
    [exportDuration] size the canvas and say when [renderFrame] stops the
    recorder, which is in the events of the run. *)
Definition processVideoFrames (run : Run) (this : MediaRecorderExporter)
    : Promise Blob :=
  await (run_loadedmetadata run) (fun _ =>
  await (call (run_captureStream run)) (fun _ =>
  await
    (match getSupportedMimeType (run_isTypeSupported run) with
     | Some type => Resolved type
     | None => Rejected "No supported MediaRecorder MIME type found"
     end) (fun mimeType =>
  let this0 :=
    {| startTime := startTime this; endTime := endTime this;
       overlays := overlays this; displayWidth := displayWidth this;
       displayHeight := displayHeight this; recordedChunks := [] |} in
  await (call (run_start run)) (fun _ =>
  await (if run_seeked run then Resolved tt else Pending) (fun _ =>
  await (run_play run) (fun _ =>
  match run_stop run with
  | stop_before_onstop => Pending
  | stop_after_onstop =>
      onstop mimeType
        (fold_left (fun e ev => ondataavailable ev e) (run_events run) this0)
  end)))))).

(** [export()]: the blob is returned, an error is logged and thrown
    again. *)
Definition export (run : Run) (this : MediaRecorderExporter) : Promise Blob :=
  await (run_getVideoInfo run) (fun videoInfo =>
  match processVideoFrames run this with
  | Resolved blob => Resolved blob
  | Rejected message => Rejected message
  | Pending => Pending
  end).




(** An event that hands no data to the sink. *)
Definition no_data (event_data : option Blob) : Prop :=
  match event_data with
  | Some data => blob_size data = 0%N
  | None => True
  end.

(** The chunks kept by the handler all carry data. *)
Definition chunks_carry_data (this : MediaRecorderExporter) : Prop :=
  Forall (fun chunk => (0 < blob_size chunk)%N) (recordedChunks this).

(** The end test of [renderFrame]: [exportDuration] is the argument of
    [processVideoFrames], [video_duration] is [video.duration]. *)
Definition reached_end (this : MediaRecorderExporter)
    (exportDuration video_duration currentTime : Q) : bool :=
  let relativeTime := currentTime - startTime this in
  Qle_bool exportDuration relativeTime ||
  Qle_bool (or_num (endTime this) video_duration) currentTime.

(** What [renderFrame] hands to [onProgress] after a frame. *)
Definition progress (this : MediaRecorderExporter)
    (exportDuration currentTime : Q) : Q :=
  let relativeTime := currentTime - startTime this in
  Math_min (relativeTime / exportDuration) (99 # 100).

(** The data of the events that carry some, in order. *)
Definition data_of (events : list (option Blob)) : list Blob :=
  flat_map (fun ev =>
    match ev with
    | Some data => if (0 <? blob_size data)%N then [data] else []
    | None => []
    end) events.

End Exporter.

(** ** Timeline layout (TextTimeline.jsx) *)

Module Timeline.

(** [[...textLayers].sort((a, b) => a.timing.start - b.timing.start)]:
    the sort is stable, so it is the insertion of each layer before the
    first later layer that does not start before it. *)
Fixpoint insert (a : Layer) (l : list Layer) : list Layer :=
  match l with
  | [] => [a]
  | b :: l' =>
      if Qle_bool (tm_start (l_timing a)) (tm_start (l_timing b))
      then a :: b :: l'
      else b :: insert a l'
  end.

Fixpoint sort (l : list Layer) : list Layer :=
  match l with
  | [] => []
  | a :: l' => insert a (sort l')
  end.

(** [row[row.length - 1]] *)
Fixpoint lastLayerInRow (row : list Layer) : option Layer :=
  match row with
  | [] => None
  | [a] => Some a
  | _ :: row' => lastLayerInRow row'
  end.

(** The [for] loop over the rows: the rows with the layer pushed on the
    first row it fits, or [None] when [placed] stays false.  A row is never
    empty (rows are created with one layer and only grow); the model passes
    over an empty row. *)
Fixpoint place (layer : Layer) (rows : list (list Layer))
    : option (list (list Layer)) :=
  match rows with
  | [] => None
  | row :: rest =>
      match lastLayerInRow row with
      | Some lastLayer =>
          if Qle_bool (tm_end (l_timing lastLayer)) (tm_start (l_timing layer))
          then Some ((row ++ [layer]) :: rest)
          else option_map (cons row) (place layer rest)
      | None => option_map (cons row) (place layer rest)
      end
  end.

(** The body of [sortedLayers.forEach]. *)
Definition forEach_body (rows : list (list Layer)) (layer : Layer)
    : list (list Layer) :=
  match place layer rows with
  | Some rows' => rows'
  | None => rows ++ [[layer]]
  end.

Definition rows_of (textLayers : list Layer) : list (list Layer) :=
  fold_left forEach_body (sort textLayers) [].

(** [layerRowMap[layer.id] = index], for the rows in order. *)
Definition set_row (index : nat) (m : gmap string nat) (layer : Layer)
    : gmap string nat :=
  <[toKey (l_id layer) := index]> m.

Fixpoint layerRowMap_from (index : nat) (rows : list (list Layer))
    (m : gmap string nat) : gmap string nat :=
  match rows with
  | [] => m
  | row :: rest =>
      layerRowMap_from (S index) rest (fold_left (set_row index) row m)
  end.

Record Layout := mkLayout {
  layerRowMap : gmap string nat;
  totalRows : nat
}.

Definition getLayerRows (textLayers : list Layer) : Layout :=
  let rows := rows_of textLayers in
  {| layerRowMap := layerRowMap_from 0 rows ∅; totalRows := length rows |}.

(** Two layers may share a row when one ends no later than the other
    starts. *)
Definition disjoint (a b : Layer) : Prop :=
  tm_end (l_timing a) <= tm_start (l_timing b) \/
  tm_end (l_timing b) <= tm_start (l_timing a).

(** A packing of the layers into rows: every layer is in one row and no two
    layers of a row overlap. *)
Definition packing (layers : list Layer) (rows : list (list Layer)) : Prop :=
  Permutation (concat rows) layers /\ Forall (ForallOrdPairs disjoint) rows.

(** How many of the layers are on screen at instant [p] of the half-open
    reading [start <= p < end]. *)
Definition covers (p : Q) (l : Layer) : bool :=
  Qle_bool (tm_start (l_timing l)) p && negb (Qle_bool (tm_end (l_timing l)) p).

Definition depth_at (p : Q) (layers : list Layer) : nat :=
  length (List.filter (covers p) layers).

(** The order of the sorted layers. *)
Definition by_start (a b : Layer) : Prop :=
  tm_start (l_timing a) <= tm_start (l_timing b).

(** A row as the loop builds it: each layer ends no later than the layers
    pushed after it start. *)
Definition chain (row : list Layer) : Prop :=
  StronglySorted
    (fun a b => tm_end (l_timing a) <= tm_start (l_timing b)) row.

(** What holds of the rows all along the loop: no row is empty, every row is
    a chain of layers whose timing is valid, and, once there is a row, some
    instant is covered by as many layers as there are rows. *)
Definition rows_inv (rows : list (list Layer)) : Prop :=
  Forall (fun row => row <> []) rows /\
  Forall chain rows /\
  Forall valid_timing (concat rows) /\
  (rows = [] \/ exists p, (length rows <= depth_at p (concat rows))%nat).

(** The geometry of the bars. *)
Definition rowHeight : Q := 30.
Definition gap : Q := 4.

Definition totalContentHeight (totalRows : nat) : Q :=
  Math_max 30 (inject_Z (Z.of_nat totalRows) * (rowHeight + gap)).

(** [layerRowMap[layer.id] || 0] *)
Definition rowIndex (layerRowMap : gmap string nat) (layer : Layer) : nat :=
  match layerRowMap !! toKey (l_id layer) with
  | Some index => index
  | None => 0
  end.

(** The [top] of the bar of a layer. *)
Definition bar_top (layerRowMap : gmap string nat) (layer : Layer) : Q :=
  inject_Z (Z.of_nat (rowIndex layerRowMap layer)) * (rowHeight + gap).

End Timeline.

(** ** Editing on the timeline (TextTimeline.jsx) *)

Module TimelineEdit.

(** [trackRef.current.getBoundingClientRect()] *)
Record Rect := mkRect {
  rect_left : Q;
  rect_width : Q
}.

(** [getTimeFromX(x)]: [track] is absent while the track is not mounted. *)
Definition getTimeFromX (track : option Rect) (videoDuration x : Q) : Q :=
  match track with
  | None => 0
  | Some rect =>
      if truthy videoDuration then
        let percentage :=
          Math_max 0 (Math_min 1 ((x - rect_left rect) / rect_width rect)) in
        percentage * videoDuration
      else 0
  end.

(** [textLayers.find(l => l.id === id)] *)
Definition find_layer (id : ident) (textLayers : list Layer) : option Layer :=
  List.find (fun l => ident_eqb (l_id l) id) textLayers.

(** [onUpdate(id, { timing })]: [handleUpdateText] with an update of
    [timing] alone, on layers as records. *)
Definition onUpdate_timing (id : ident) (timing : Timing)
    (textLayers : list Layer) : list Layer :=
  List.map (fun l =>
    if ident_eqb (l_id l) id then VideoEditor.with_timing timing l else l)
    textLayers.

(** The timing a drag gives to a layer: the bar is centred on the mouse and
    keeps its length. *)
Definition drag (layer : Layer) (newTime videoDuration : Q) : Timing :=
  let duration := tm_end (l_timing layer) - tm_start (l_timing layer) in
  let newStart := newTime - duration / 2 in
  let newStart := if less newStart 0 then 0 else newStart in
  let newStart :=
    if less videoDuration (newStart + duration)
    then videoDuration - duration else newStart in
  {| tm_start := newStart; tm_end := newStart + duration |}.

Inductive Edge := edge_start | edge_end.

(** The timing a resize gives to a layer, when it accepts the move. *)
Definition resize (resizeEdge : Edge) (layer : Layer)
    (newTime videoDuration : Q) : option Timing :=
  match resizeEdge with
  | edge_start =>
      if less newTime (tm_end (l_timing layer) - (5 # 10)) &&
         Qle_bool 0 newTime
      then Some {| tm_start := newTime; tm_end := tm_end (l_timing layer) |}
      else None
  | edge_end =>
      if less (tm_start (l_timing layer) + (5 # 10)) newTime &&
         Qle_bool newTime videoDuration
      then Some {| tm_start := tm_start (l_timing layer); tm_end := newTime |}
      else None
  end.

(** What the mouse is doing: [draggingId], or [resizingId] and
    [resizeEdge]. *)
Inductive Gesture :=
| Idle
| Dragging (draggingId : ident)
| Resizing (resizingId : ident) (resizeEdge : Edge).

(** [handleMouseMove(e)] as a function of the layers; [clientX] is
    [e.clientX]. *)
Definition handleMouseMove (gesture : Gesture) (track : option Rect)
    (videoDuration clientX : Q) (textLayers : list Layer) : list Layer :=
  match gesture with
  | Idle => textLayers
  | Dragging draggingId =>
      match find_layer draggingId textLayers with
      | None => textLayers
      | Some layer =>
          let newTime := getTimeFromX track videoDuration clientX in
          onUpdate_timing draggingId (drag layer newTime videoDuration)
            textLayers
      end
  | Resizing resizingId resizeEdge =>
      match find_layer resizingId textLayers with
      | None => textLayers
      | Some layer =>
          let newTime := getTimeFromX track videoDuration clientX in
          match resize resizeEdge layer newTime videoDuration with
          | Some timing => onUpdate_timing resizingId timing textLayers
          | None => textLayers
          end
      end
  end.

(** The invariant of a layer's timing in a video of [videoDuration]
    seconds: [0 <= start < end <= videoDuration]. *)
Definition within (videoDuration : Q) (l : Layer) : Prop :=
  0 <= tm_start (l_timing l) /\
  tm_start (l_timing l) < tm_end (l_timing l) /\
  tm_end (l_timing l) <= videoDuration.

End TimelineEdit.

(** ** The browser as the code sees it

    Text measurement, image decoding and the trigonometry of the canvas are
    outside the repository; the code is embedded over whatever they return. *)

Record Font := mkFont {
  f_weight : string;
  f_size : Q;
  f_family : string
}.

Record Browser := mkBrowser {
  (** [ctx.measureText(text).width] under [ctx.font] *)
  measureText : Font -> string -> Q;
  (** [loadImage(src)], and the image that the engine decodes from the file
      of [src]; [None] when there is no image *)
  loadImage : string -> option Image;
  (** [await fetchFile(src)] returns; [src] is [undefined] when the layer
      has none *)
  fetchFile : option string -> bool;
  (** [await ffmpeg.writeFile(name, data)] returns *)
  writeFile : string -> bool;
  Math_cos : Q -> Q;
  Math_sin : Q -> Q;
  Math_PI : Q
}.

(** ** A 2D canvas context *)

Module Canvas.

(** The current transformation matrix [a b c d e f]: a point [(x, y)] goes to
    [(a x + c y + e, b x + d y + f)]. *)
Record Matrix := mkMatrix {
  m_a : Q; m_b : Q; m_c : Q; m_d : Q; m_e : Q; m_f : Q
}.

Definition identity : Matrix := mkMatrix 1 0 0 1 0 0.

(** [multiply m n] transforms by [n] first, then by [m]. *)
Definition multiply (m n : Matrix) : Matrix :=
  mkMatrix
    (m_a m * m_a n + m_c m * m_b n)
    (m_b m * m_a n + m_d m * m_b n)
    (m_a m * m_c n + m_c m * m_d n)
    (m_b m * m_c n + m_d m * m_d n)
    (m_a m * m_e n + m_c m * m_f n + m_e m)
    (m_b m * m_e n + m_d m * m_f n + m_f m).

Definition apply (m : Matrix) (p : Q * Q) : Q * Q :=
  (m_a m * fst p + m_c m * snd p + m_e m,
   m_b m * fst p + m_d m * snd p + m_f m).

Record DrawState := mkDrawState {
  ctm : Matrix;
  font : Font;
  fillStyle : string;
  textAlign : string;
  textBaseline : string
}.

(** What has been painted, with the state it was painted under. *)
Inductive DrawOp :=
| ClearRect (x y w h : Q)
| DrawVideo (ctm : Matrix) (dx dy dw dh : Q)
| DrawImage (image : Image) (ctm : Matrix) (dx dy dw dh : Q)
| FillText (text : string) (state : DrawState) (x y : Q).

Record Ctx := mkCtx {
  state : DrawState;
  saved : list DrawState;
  painted : list DrawOp
}.

Definition initial : Ctx :=
  mkCtx (mkDrawState identity (mkFont "" 10 "sans-serif") "#000000" "start"
           "alphabetic") [] [].

Definition with_state (f : DrawState -> DrawState) (ctx : Ctx) : Ctx :=
  mkCtx (f (state ctx)) (saved ctx) (painted ctx).

Definition with_ctm (f : Matrix -> Matrix) : Ctx -> Ctx :=
  with_state (fun s =>
    mkDrawState (f (ctm s)) (font s) (fillStyle s) (textAlign s)
      (textBaseline s)).

Definition save (ctx : Ctx) : Ctx :=
  mkCtx (state ctx) (state ctx :: saved ctx) (painted ctx).

Definition restore (ctx : Ctx) : Ctx :=
  match saved ctx with
  | [] => ctx
  | s :: rest => mkCtx s rest (painted ctx)
  end.

Definition translate (tx ty : Q) : Ctx -> Ctx :=
  with_ctm (fun m => multiply m (mkMatrix 1 0 0 1 tx ty)).

Definition scale (sx sy : Q) : Ctx -> Ctx :=
  with_ctm (fun m => multiply m (mkMatrix sx 0 0 sy 0 0)).

(** [ctx.rotate(angle)]: a rotation by 0 is the identity; for another angle
    the cosine and the sine are the browser's. *)
Definition rotate (B : Browser) (angle : Q) : Ctx -> Ctx :=
  with_ctm (fun m =>
    if Qeq_bool angle 0 then m
    else multiply m
           (mkMatrix (Math_cos B angle) (Math_sin B angle)
              (- Math_sin B angle) (Math_cos B angle) 0 0)).

Definition set_font (f : Font) : Ctx -> Ctx :=
  with_state (fun s =>
    mkDrawState (ctm s) f (fillStyle s) (textAlign s) (textBaseline s)).

Definition set_fillStyle (c : string) : Ctx -> Ctx :=
  with_state (fun s =>
    mkDrawState (ctm s) (font s) c (textAlign s) (textBaseline s)).

Definition set_textAlign (a : string) : Ctx -> Ctx :=
  with_state (fun s =>
    mkDrawState (ctm s) (font s) (fillStyle s) a (textBaseline s)).

Definition set_textBaseline (b : string) : Ctx -> Ctx :=
  with_state (fun s =>
    mkDrawState (ctm s) (font s) (fillStyle s) (textAlign s) b).

Definition paint (op : DrawOp) (ctx : Ctx) : Ctx :=
  mkCtx (state ctx) (saved ctx) (painted ctx ++ [op]).

Definition clearRect (x y w h : Q) : Ctx -> Ctx := paint (ClearRect x y w h).

(** [ctx.drawImage(image, dx, dy, dw, dh)] *)
Definition drawImage (image : Image) (dx dy dw dh : Q) (ctx : Ctx) : Ctx :=
  paint (DrawImage image (ctm (state ctx)) dx dy dw dh) ctx.

(** [ctx.drawImage(image, dx, dy)]: at the image's own size. *)
Definition drawImage_at (image : Image) (dx dy : Q) (ctx : Ctx) : Ctx :=
  drawImage image dx dy (inject_Z (img_width image))
    (inject_Z (img_height image)) ctx.

Definition drawVideo (dx dy dw dh : Q) (ctx : Ctx) : Ctx :=
  paint (DrawVideo (ctm (state ctx)) dx dy dw dh) ctx.

Definition fillText (text : string) (x y : Q) (ctx : Ctx) : Ctx :=
  paint (FillText text (state ctx) x y) ctx.

(** Where the four-argument rectangle of a painted image has its top-left
    corner, and the size it has when the matrix neither rotates nor shears. *)
Definition topLeft (op : DrawOp) : option (Q * Q) :=
  match op with
  | DrawImage _ m dx dy _ _ => Some (apply m (dx, dy))
  | DrawVideo m dx dy _ _ => Some (apply m (dx, dy))
  | _ => None
  end.

Definition paintedSize (op : DrawOp) : option (Q * Q) :=
  match op with
  | DrawImage _ m _ _ dw dh => Some (m_a m * dw, m_d m * dh)
  | DrawVideo m _ _ dw dh => Some (m_a m * dw, m_d m * dh)
  | _ => None
  end.

(** Where a painted text has its anchor (its centre under
    [textAlign = 'center'], [textBaseline = 'middle']) and the pixel size of
    its glyphs along each axis when the matrix neither rotates nor shears. *)
Definition textAnchor (op : DrawOp) : option (Q * Q) :=
  match op with
  | FillText _ s x y => Some (apply (ctm s) (x, y))
  | _ => None
  end.

Definition textPixelSize (op : DrawOp) : option (Q * Q) :=
  match op with
  | FillText _ s _ _ =>
      Some (m_a (ctm s) * f_size (font s), m_d (ctm s) * f_size (font s))
  | _ => None
  end.

End Canvas.

(** ** Frame compositing *)

Module Compositor.

Import Canvas.

(** *** [MediaRecorderExporter.drawOverlay] (webcodecsExporter.js)

    The result is [None] when the image of the layer does not load.  The
    write [overlay._cachedImage = img] is left out: it does not change what is
    painted. *)

Definition scaleFactors (this : Exporter.MediaRecorderExporter)
    (canvasWidth canvasHeight : Q) : Q * Q :=
  match Exporter.displayWidth this, Exporter.displayHeight this with
  | Some dw, Some dh =>
      if truthy dw && truthy dh
      then (canvasWidth / dw, canvasHeight / dh)
      else (1, 1)
  | _, _ => (1, 1)
  end.

Definition drawOverlay (B : Browser) (this : Exporter.MediaRecorderExporter)
    (ctx : Ctx) (overlay : Layer) (canvasWidth canvasHeight : Q)
    : option Ctx :=
  let style := l_style overlay in
  let transform := l_transform overlay in
  let text := l_text overlay in
  let ctx := save ctx in
  let '(scaleX, scaleY) := scaleFactors this canvasWidth canvasHeight in
  let baseScale :=
    match tf_scale transform with Some s => s | None => (1, 1) end in
  let rotation := or_num (tf_rotate transform) 0 in
  if is_image overlay && has_src overlay then
    let loaded :=
      match l_cachedImage overlay with
      | Some img => Some img
      | None =>
          match l_src overlay with
          | Some src => loadImage B src
          | None => None
          end
      end in
    match loaded with
    | None => None
    | Some img =>
        let scaledWidth := inject_Z (img_width img) * scaleX in
        let scaledHeight := inject_Z (img_height img) * scaleY in
        let x := tf_x transform * scaleX in
        let y := tf_y transform * scaleY in
        let ctx := translate (x + scaledWidth / 2) (y + scaledHeight / 2) ctx in
        let ctx := rotate B ((rotation * Math_PI B) / 180) ctx in
        let ctx := scale (fst baseScale) (snd baseScale) ctx in
        let ctx :=
          drawImage img (- scaledWidth / 2) (- scaledHeight / 2)
            scaledWidth scaledHeight ctx in
        Some (restore ctx)
    end
  else
    let fontSize := or_num (st_fontSize style) 40 in
    let avgScale := (scaleX + scaleY) / 2 in
    let scaledFontSize := Math_max 1 (fontSize * avgScale) in
    let f :=
      mkFont (or_str (st_fontWeight style) "600") scaledFontSize
        (or_str (st_fontFamily style) "Arial") in
    let ctx := set_font f ctx in
    let textWidth := measureText B f text in
    let textHeight := scaledFontSize in
    let padding := 4 * avgScale in
    let elementWidth := textWidth + padding * 2 in
    let elementHeight := textHeight + padding * 2 in
    let x := tf_x transform * scaleX in
    let y := tf_y transform * scaleY in
    let ctx := translate (x + elementWidth / 2) (y + elementHeight / 2) ctx in
    let ctx := rotate B ((rotation * Math_PI B) / 180) ctx in
    let ctx := scale (fst baseScale) (snd baseScale) ctx in
    let ctx := set_fillStyle (or_str (st_color style) "#ffffff") ctx in
    let ctx := set_textAlign "center" ctx in
    let ctx := set_textBaseline "middle" ctx in
    let ctx := fillText text 0 0 ctx in
    Some (restore ctx).

(** The painting of one frame in [renderFrame]: the video, then every active
    overlay in the order of [this.overlays]. *)
Fixpoint drawOverlays (B : Browser) (this : Exporter.MediaRecorderExporter)
    (ctx : Ctx) (activeOverlays : list Layer) (canvasWidth canvasHeight : Q)
    : option Ctx :=
  match activeOverlays with
  | [] => Some ctx
  | overlay :: rest =>
      match drawOverlay B this ctx overlay canvasWidth canvasHeight with
      | Some ctx' => drawOverlays B this ctx' rest canvasWidth canvasHeight
      | None => None
      end
  end.

Definition renderFrame (B : Browser) (this : Exporter.MediaRecorderExporter)
    (ctx : Ctx) (video_currentTime canvasWidth canvasHeight : Q)
    : option Ctx :=
  let ctx := clearRect 0 0 canvasWidth canvasHeight ctx in
  let ctx := drawVideo 0 0 canvasWidth canvasHeight ctx in
  let activeOverlays :=
    Active.activeOverlays (Exporter.overlays this) video_currentTime
      (Exporter.startTime this) in
  drawOverlays B this ctx activeOverlays canvasWidth canvasHeight.

(** *** [drawImageOverlay] and [drawTextOverlay] (canvasCompositor.js) *)

Definition drawImageOverlay (B : Browser) (ctx : Ctx) (overlay : Layer)
    (image : Image) (scaleX scaleY : Q) : Ctx :=
  let transform := l_transform overlay in
  let ctx := save ctx in
  let x := tf_x transform * scaleX in
  let y := tf_y transform * scaleY in
  let scale_ :=
    match tf_scale transform with Some s => s | None => (1, 1) end in
  let rotation := or_num (tf_rotate transform) 0 in
  let ctx := translate x y ctx in
  let ctx := rotate B ((rotation * Math_PI B) / 180) ctx in
  let ctx := scale (fst scale_ * scaleX) (snd scale_ * scaleY) ctx in
  let ctx :=
    drawImage_at image (- inject_Z (img_width image) / 2)
      (- inject_Z (img_height image) / 2) ctx in
  restore ctx.

Definition drawTextOverlay (B : Browser) (ctx : Ctx) (overlay : Layer)
    (scaleX scaleY : Q) : Ctx :=
  let style := l_style overlay in
  let transform := l_transform overlay in
  let text := l_text overlay in
  let ctx := save ctx in
  let x := tf_x transform * scaleX in
  let y := tf_y transform * scaleY in
  let scale_ :=
    match tf_scale transform with Some s => s | None => (1, 1) end in
  let rotation := or_num (tf_rotate transform) 0 in
  let ctx := translate x y ctx in
  let ctx := rotate B ((rotation * Math_PI B) / 180) ctx in
  let ctx := scale (fst scale_ * scaleX) (snd scale_ * scaleY) ctx in
  let ctx :=
    set_font
      (mkFont (or_str (st_fontWeight style) "600")
         (or_num (st_fontSize style) 40)
         (or_str (st_fontFamily style) "Arial")) ctx in
  let ctx := set_fillStyle (or_str (st_color style) "#ffffff") ctx in
  let ctx := set_textAlign (or_str (st_textAlign style) "center") ctx in
  let ctx := set_textBaseline "middle" ctx in
  let ctx := fillText text 0 0 ctx in
  restore ctx.

(** [CanvasCompositor.compose]: [overlay._imageElement] is the preloaded
    image, here the cached one. *)
Fixpoint composeOverlays (B : Browser) (ctx : Ctx)
    (activeOverlays : list Layer) (scaleX scaleY : Q) : Ctx :=
  match activeOverlays with
  | [] => ctx
  | overlay :: rest =>
      let ctx' :=
        match is_image overlay, l_cachedImage overlay with
        | true, Some image => drawImageOverlay B ctx overlay image scaleX scaleY
        | _, _ => drawTextOverlay B ctx overlay scaleX scaleY
        end in
      composeOverlays B ctx' rest scaleX scaleY
  end.

Definition compose (B : Browser) (ctx : Ctx) (overlays : list Layer)
    (width height currentTime startTime scaleX scaleY : Q) : Ctx :=
  let ctx := clearRect 0 0 width height ctx in
  let ctx := drawVideo 0 0 width height ctx in
  composeOverlays B ctx
    (Active.getActiveOverlays overlays currentTime startTime) scaleX scaleY.

End Compositor.

(** ** Graph-based export: the filter graph of [transcode] (VideoEditor.jsx) *)

Module Graph.

(** The state of the editor that [transcode] reads. *)
Record VideoElement := mkVideoElement {
  videoWidth : Q;
  videoHeight : Q;
  clientWidth : Q;
  clientHeight : Q
}.

Record Editor := mkEditor {
  textLayers : list Layer;
  startTime : Q;
  endTime : Q;
  videoDimensions_width : Q;
  videoDimensions_height : Q;
  video : VideoElement
}.

(** The canvas of [renderTextToImage], whose text is centred on it. *)
Record TextStill := mkTextStill {
  ts_width : Z;
  ts_height : Z;
  ts_font : Font;
  ts_color : string;
  ts_text : string
}.

(** What is written to the engine's file system for a layer: what
    [fetchFile] makes of [layer.src], or of the data URL of the canvas of
    [renderTextToImage].  [transcode] does not decode it. *)
Inductive Still :=
| ImageFile (src : option string)
| TextFile (t : TextStill).

(** The width and the height of a still when the engine decodes it; [None]
    when the file is not an image. *)
Definition still_size (B : Browser) (s : Still) : option (Z * Z) :=
  match s with
  | ImageFile (Some src) =>
      match loadImage B src with
      | Some image => Some (img_width image, img_height image)
      | None => None
      end
  | ImageFile None => None
  | TextFile t => Some (ts_width t, ts_height t)
  end.

(** Truncation toward zero. *)
Definition Qtrunc (q : Q) : Z := Z.quot (Qnum q) (Zpos (Qden q)).

(** [renderTextToImage(layer)].  The style is read without defaults.  The
    string given to [ctx.font] names no font when the weight or the size is
    [undefined], and the context keeps the font it has; a family that is
    [undefined] is the family of that name.  A size that is [undefined]
    makes the height [NaN], which [canvas.height] keeps as 0; a colour that
    is [undefined] leaves [fillStyle] as it is. *)
Definition renderTextToImage (B : Browser) (layer : Layer) : TextStill :=
  let fontSize := st_fontSize (l_style layer) in
  let fontFamily := st_fontFamily (l_style layer) in
  let fontWeight := st_fontWeight (l_style layer) in
  let color := st_color (l_style layer) in
  let f :=
    match fontWeight, fontSize with
    | Some weight, Some size =>
        mkFont weight size
          (match fontFamily with
           | Some family => family
           | None => "undefined"
           end)
    | _, _ => Canvas.font (Canvas.state Canvas.initial)
    end in
  let textWidth := Double.of_Q (measureText B f (l_text layer)) in
  let textHeight :=
    Double.mul (Double.of_option fontSize) (Double.of_Q (12 # 10)) in
  let padding := Double.of_Z 4 in
  {| ts_width :=
       Double.to_unsigned_long
         (Double.add textWidth (Double.mul padding (Double.of_Z 2)));
     ts_height :=
       Double.to_unsigned_long
         (Double.add textHeight (Double.mul padding (Double.of_Z 2)));
     ts_font := f;
     ts_color :=
       match color with
       | Some c => c
       | None => Canvas.fillStyle (Canvas.state Canvas.initial)
       end;
     ts_text := l_text layer |}.

(** Stream labels: [[0:v]], [[vN]], [[imgN]], [[txtN]]. *)
Inductive Label :=
| main_video
| v (n : nat)
| img (n : nat)
| txt (n : nat).

(** The expressions handed to the [scale] filter. *)
Inductive Expr :=
| iw
| ih
| num (x : Double.number)
| mul (a b : Expr)
| div (a b : Expr)
| trunc (a : Expr).

(** [trunc(iw*${scaleFactor}/2)*2] *)
Definition target (side : Expr) (scaleFactor : Double.number) : Expr :=
  mul (trunc (div (mul side (num scaleFactor)) (num (Double.of_Z 2))))
    (num (Double.of_Z 2)).

(** The two filter chains pushed for a layer:
    [[N:v]loop=loop=L:size=1:start=0,fps=F,scale=W:H:flags=bicubic,format=rgba,setsar=1,setpts=PTS-STARTPTS[out]]
    and [[main][over]overlay=x=X:y=Y:shortest=1[out]]. *)
Inductive Filter :=
| loop_scale (input : nat) (loop : Double.number) (size start : Z) (fps : Z)
    (w h : Expr) (out : Label)
| overlay (main over : Label) (x y : Double.number) (shortest : bool)
    (out : Label).

Record Acc := mkAcc {
  inputs : list (string * Still);
  filterComplex : list Filter;
  currentStream : Label;
  inputIndex : nat
}.

Definition displayWidth (e : Editor) : Q :=
  or_else (videoDimensions_width e)
    (or_else (clientWidth (video e)) (videoWidth (video e))).

Definition displayHeight (e : Editor) : Q :=
  or_else (videoDimensions_height e)
    (or_else (clientHeight (video e)) (videoHeight (video e))).

(** [video.videoWidth / displayWidth] and [video.videoHeight /
    displayHeight], as they are printed into the graph. *)
Definition scaleX (e : Editor) : Double.number :=
  Double.div (Double.of_Q (videoWidth (video e)))
    (Double.of_Q (displayWidth e)).
Definition scaleY (e : Editor) : Double.number :=
  Double.div (Double.of_Q (videoHeight (video e)))
    (Double.of_Q (displayHeight e)).

(** [endTime - startTime], for the comparisons of the loop and for the
    arguments of the engine. *)
Definition duration (e : Editor) : Q := endTime e - startTime e.

(** [endTime - startTime] as the machine has it, where the loop count is
    computed from it. *)
Definition duration64 (e : Editor) : Double.number :=
  Double.sub (Double.of_Q (endTime e)) (Double.of_Q (startTime e)).

(** A layer is passed over when [end <= 0 || start >= duration]. *)
Definition skipped (e : Editor) (layer : Layer) : bool :=
  let start := Math_max 0 (tm_start (l_timing layer) - startTime e) in
  let end_ := Math_min (duration e) (tm_end (l_timing layer) - startTime e) in
  Qle_bool end_ 0 || Qle_bool (duration e) start.

(** [Math.ceil(duration * fps) + 10] with [fps = 30]. *)
Definition loopCount (duration : Double.number) : Double.number :=
  let fps := Double.of_Z 30 in
  Double.add (Double.Math_ceil (Double.mul duration fps)) (Double.of_Z 10).

(** The sub-graph of one still, the same in both branches of the loop but
    for the label. *)
Definition push_filters (e : Editor) (layer : Layer) (scale_ : Q * Q)
    (fileName : string) (still : Still) (scaled : nat -> Label) (acc : Acc)
    : Acc :=
  let layerIndex := inputIndex acc in
  let nextStream := v layerIndex in
  let scaleFactorX := Double.mul (Double.of_Q (fst scale_)) (scaleX e) in
  let scaleFactorY := Double.mul (Double.of_Q (snd scale_)) (scaleY e) in
  let targetWidth := target iw scaleFactorX in
  let targetHeight := target ih scaleFactorY in
  let scaledImg := scaled layerIndex in
  let fps := 30%Z in
  let loopCount := loopCount (duration64 e) in
  let x :=
    Double.Math_round
      (Double.mul (Double.of_Q (tf_x (l_transform layer))) (scaleX e)) in
  let y :=
    Double.Math_round
      (Double.mul (Double.of_Q (tf_y (l_transform layer))) (scaleY e)) in
  {| inputs := inputs acc ++ [(fileName, still)];
     filterComplex :=
       filterComplex acc ++
       [loop_scale layerIndex loopCount 1 0 fps targetWidth targetHeight
          scaledImg;
        overlay (currentStream acc) scaledImg x y true nextStream];
     currentStream := nextStream;
     inputIndex := S layerIndex |}.

(** [`layer_${layer.id}.png`] and [`text_layer_${layer.id}.png`] *)
Definition imgFileName (layer : Layer) : string :=
  "layer_" ++ toKey (l_id layer) ++ ".png".

Definition textFileName (layer : Layer) : string :=
  "text_layer_" ++ toKey (l_id layer) ++ ".png".

(** The body of the loop over [textLayers]; [None] is an exception: the
    file of the layer cannot be fetched or written, or [transform.scale] is
    missing.  The data URL of the canvas of a text is always fetched. *)
Definition transcode_layer (B : Browser) (e : Editor) (acc : Acc)
    (layer : Layer) : option Acc :=
  if skipped e layer then Some acc
  else if is_image layer then
    if fetchFile B (l_src layer) && writeFile B (imgFileName layer) then
      match tf_scale (l_transform layer) with
      | Some scale_ =>
          Some (push_filters e layer scale_ (imgFileName layer)
                  (ImageFile (l_src layer)) img acc)
      | None => None
      end
    else None
  else
    let textImgData := renderTextToImage B layer in
    if writeFile B (textFileName layer) then
      match tf_scale (l_transform layer) with
      | Some scale_ =>
          Some (push_filters e layer scale_ (textFileName layer)
                  (TextFile textImgData) txt acc)
      | None => None
      end
    else None.

Fixpoint transcode_layers (B : Browser) (e : Editor) (acc : Acc)
    (layers : list Layer) : option Acc :=
  match layers with
  | [] => Some acc
  | layer :: rest =>
      match transcode_layer B e acc layer with
      | Some acc' => transcode_layers B e acc' rest
      | None => None
      end
  end.

(** The graph that [transcode] hands to the engine. *)
Definition transcode (B : Browser) (e : Editor) : option Acc :=
  transcode_layers B e (mkAcc [] [] main_video 1) (textLayers e).

(** *** What the engine makes of the graph *)

(** The Double.value of an expression for an input of [in_w] by [in_h], in the
    arithmetic of the engine. *)
Fixpoint eval (in_w in_h : Z) (ex : Expr) : Double.number :=
  match ex with
  | iw => Double.of_Z in_w
  | ih => Double.of_Z in_h
  | num x => x
  | mul a b => Double.mul (eval in_w in_h a) (eval in_w in_h b)
  | div a b => Double.div (eval in_w in_h a) (eval in_w in_h b)
  | trunc a => Double.Math_trunc (eval in_w in_h a)
  end.

(** The size the [scale] filter of a chain gives to a still. *)
Definition scaled_size (B : Browser) (f : Filter) (still : Still)
    : option (Double.number * Double.number) :=
  match f, still_size B still with
  | loop_scale _ _ _ _ _ w h _, Some (in_w, in_h) =>
      Some (eval in_w in_h w, eval in_w in_h h)
  | _, _ => None
  end.

Definition loop_of (f : Filter) : option Double.number :=
  match f with
  | loop_scale _ loop _ _ _ _ _ _ => Some loop
  | overlay _ _ _ _ _ _ => None
  end.

(** A rectangle of the output raster: top-left corner and size. *)
Record Box := mkBox {
  box_x : Q; box_y : Q; box_w : Q; box_h : Q
}.

Definition box_eq (a b : Box) : Prop :=
  box_x a == box_x b /\ box_y a == box_y b /\
  box_w a == box_w b /\ box_h a == box_h b.

(** Where the pair of chains of a still puts it: scaled, then overlaid with
    its top-left corner at [(x, y)]; the filters do not rotate. *)
Definition placed (B : Browser) (scale_chain overlay_chain : Filter)
    (still : Still) : option Box :=
  match scaled_size B scale_chain still, overlay_chain with
  | Some (w, h), overlay _ _ x y _ _ =>
      if Double.is_finite x && Double.is_finite y &&
         Double.is_finite w && Double.is_finite h
      then Some (mkBox (Double.value x) (Double.value y)
                   (Double.value w) (Double.value h))
      else None
  | _, _ => None
  end.

(** [n] is the even integer nearest to [p]: no even integer is nearer. *)
Definition nearest_even (p : Q) (n : Z) : Prop :=
  Z.even n = true /\
  forall m : Z, Z.even m = true ->
    Qabs (p - inject_Z n) <= Qabs (p - inject_Z m).

(** *** The shape of the graph and the arguments of the engine *)

Definition label_eqb (a b : Label) : bool :=
  match a, b with
  | main_video, main_video => true
  | v n, v m => Nat.eqb n m
  | img n, img m => Nat.eqb n m
  | txt n, txt m => Nat.eqb n m
  | _, _ => false
  end.

(** A list of filters read as a chain from the stream [cur], the inputs
    numbered from [n]: pairs of a loop chain on input [n], labelled [[imgN]]
    or [[txtN]], and an overlay of that label on the current stream, which
    ends with the shorter input and is labelled [[vN]].  The result is the
    last stream and the next input number; [None] when the list is not such
    a chain. *)
Fixpoint chain_end (cur : Label) (n : nat) (fs : list Filter)
    : option (Label * nat) :=
  match fs with
  | [] => Some (cur, n)
  | loop_scale input _ _ _ _ _ _ scaled :: overlay main over _ _ shortest out
      :: rest =>
      if Nat.eqb input n && label_eqb main cur && label_eqb over scaled &&
         (label_eqb scaled (img n) || label_eqb scaled (txt n)) &&
         shortest && label_eqb out (v n)
      then chain_end out (S n) rest
      else None
  | _ => None
  end.

(** The arguments of [ffmpeg.exec]. *)
Inductive Arg :=
| opt_threads (n : Z)
| opt_ss (position : Q)
| opt_i (fileName : string)
| opt_t (duration : Q)
| opt_filter_complex (filters : list Filter)
| opt_map (stream : Label)
| opt_map_audio
| opt_c_v (codec : string)
| opt_c_a (codec : string)
| opt_preset (preset : string)
| opt_c (codec : string)
| output (fileName : string).

(** [args] of [transcode] for the graph [acc]. *)
Definition args (inputName : string) (e : Editor) (acc : Acc) : list Arg :=
  [opt_threads 1; opt_ss (startTime e); opt_i inputName] ++
  List.map (fun input => opt_i (fst input)) (inputs acc) ++
  [opt_t (duration e)] ++
  (if (0 <? length (filterComplex acc))%nat
   then [opt_filter_complex (filterComplex acc);
         opt_map (currentStream acc);
         opt_map_audio;
         opt_c_v "libx264";
         opt_c_a "copy";
         opt_preset "veryfast"]
   else [opt_c "copy"]) ++
  [output "output.mp4"].

(** What [transcode] needs of a layer inside the trim not to throw: a
    [transform.scale], and that its file is fetched and written. *)
Definition exportable (B : Browser) (layer : Layer) : bool :=
  match tf_scale (l_transform layer) with
  | None => false
  | Some _ =>
      if is_image layer
      then fetchFile B (l_src layer) && writeFile B (imgFileName layer)
      else writeFile B (textFileName layer)
  end.

End Graph.

(** ** The two export paths side by side

    What each path makes of one layer on an empty frame: the streaming path
    paints it with [drawOverlay], the graph path turns it into a still and a
    pair of filter chains. *)

Module Paths.

Import Canvas.

(** The rectangle a painted image covers when the matrix neither rotates nor
    shears. *)
Definition painted_box (op : DrawOp) : option Graph.Box :=
  match topLeft op, paintedSize op with
  | Some (x, y), Some (w, h) => Some (Graph.mkBox x y w h)
  | _, _ => None
  end.

(** What [drawOverlay] paints for one overlay on a fresh canvas. *)
Definition streaming_paints (B : Browser)
    (this : Exporter.MediaRecorderExporter) (overlay : Layer)
    (canvasWidth canvasHeight : Q) : option DrawOp :=
  match Compositor.drawOverlay B this initial overlay canvasWidth canvasHeight
  with
  | Some ctx => last (painted ctx)
  | None => None
  end.

(** What [transcode] makes of one layer that is the first of the graph: its
    still and the rectangle the two chains put it in. *)
Definition graph_places (B : Browser) (e : Graph.Editor) (layer : Layer)
    : option (Graph.Still * Graph.Box) :=
  match Graph.transcode_layer B e (Graph.mkAcc [] [] Graph.main_video 1) layer
  with
  | Some acc =>
      match Graph.inputs acc, Graph.filterComplex acc with
      | [(_, still)], [scale_chain; overlay_chain] =>
          option_map (pair still)
            (Graph.placed B scale_chain overlay_chain still)
      | _, _ => None
      end
  | None => None
  end.

Definition box_centre (b : Graph.Box) : Q * Q :=
  (Graph.box_x b + Graph.box_w b / 2, Graph.box_y b + Graph.box_h b / 2).

(** The pixel size of the glyphs of a text still along each axis once the
    still is stretched to a rectangle: the text is drawn on the still at the
    size of its font, centred. *)
Definition still_text_size (t : Graph.TextStill) (b : Graph.Box) : Q * Q :=
  (f_size (Graph.ts_font t) * (Graph.box_w b / inject_Z (Graph.ts_width t)),
   f_size (Graph.ts_font t) * (Graph.box_h b / inject_Z (Graph.ts_height t))).

End Paths.

(** ** Values for the examples *)

Module Examples.

(** A browser in which every text is [textWidth] wide and every image that
    loads is [width] by [height]; the trigonometry is that of the angle 0. *)
Definition browser (textWidth : Q) (width height : Z) : Browser :=
  {| measureText := fun _ _ => textWidth;
     loadImage := fun src => Some (mkImage src width height);
     fetchFile := fun _ => true;
     writeFile := fun _ => true;
     Math_cos := fun _ => 1;
     Math_sin := fun _ => 0;
     Math_PI := 355 # 113 |}.

(** An editor on a video of [videoWidth] by [videoHeight] shown at
    [displayWidth] by [displayHeight], trimmed to [[startTime, endTime]]. *)
Definition editor (layers : list Layer) (startTime endTime : Q)
    (displayWidth displayHeight videoWidth videoHeight : Q) : Graph.Editor :=
  {| Graph.textLayers := layers;
     Graph.startTime := startTime;
     Graph.endTime := endTime;
     Graph.videoDimensions_width := displayWidth;
     Graph.videoDimensions_height := displayHeight;
     Graph.video :=
       Graph.mkVideoElement videoWidth videoHeight displayWidth displayHeight |}.

(** A streaming exporter for the same display size. *)
Definition exporter (layers : list Layer) (startTime : Q)
    (displayWidth displayHeight : Q) : Exporter.MediaRecorderExporter :=
  Exporter.constructor
    (Exporter.mkOptions (Some startTime) None (Some layers)
       (Some displayWidth) (Some displayHeight)).

(** The layer of [handleSaveDrawing] and the layer of [handleAddText], on
    screen from 0 to 10, at [(x, y)]. *)
Definition drawing (x y : Q) : Layer :=
  VideoEditor.with_timing (mkTiming 0 10)
    (VideoEditor.newLayer 1 "drawing.png" x y 0 10).

Definition caption : Layer := VideoEditor.newText 2 10.

End Examples.

(** * Properties *)

(** ** Arithmetic of the embedded numbers *)

Section Numbers.

Lemma Math_max_ge_l a b : a <= Math_max a b.
Proof.
  unfold Math_max. destruct (Qle_bool a b) eqn:E.
  - now apply Qle_bool_iff.
  - apply Qle_refl.
Qed.

Lemma Math_max_ge_r a b : b <= Math_max a b.
Proof.
  unfold Math_max. destruct (Qle_bool a b) eqn:E.
  - apply Qle_refl.
  - apply Qlt_le_weak, Qnot_le_lt. intros H.
    apply Qle_bool_iff in H. congruence.
Qed.

Lemma Math_max_lub a b c : a <= c -> b <= c -> Math_max a b <= c.
Proof. unfold Math_max. now destruct (Qle_bool a b). Qed.

Lemma Math_max_le_iff a b c : Math_max a b <= c <-> a <= c /\ b <= c.
Proof.
  split.
  - intros H. split.
    + apply Qle_trans with (Math_max a b); [apply Math_max_ge_l | exact H].
    + apply Qle_trans with (Math_max a b); [apply Math_max_ge_r | exact H].
  - intros [Ha Hb]. now apply Math_max_lub.
Qed.

Lemma Qle_bool_false_iff a b : Qle_bool a b = false <-> b < a.
Proof.
  split.
  - intros E. apply Qnot_le_lt. intros H. apply Qle_bool_iff in H. congruence.
  - intros H. destruct (Qle_bool a b) eqn:E; [|reflexivity].
    apply Qle_bool_iff in E. exfalso. eapply Qlt_not_le; eauto.
Qed.

Lemma truthy_false_iff q : truthy q = false <-> q == 0.
Proof. unfold truthy. rewrite negb_false_iff. apply Qeq_bool_iff. Qed.

Lemma truthy_true_iff q : truthy q = true <-> ~ q == 0.
Proof.
  unfold truthy. rewrite negb_true_iff. split.
  - intros E H. apply Qeq_bool_iff in H. congruence.
  - intros H. destruct (Qeq_bool q 0) eqn:E; [|reflexivity].
    apply Qeq_bool_iff in E. contradiction.
Qed.

End Numbers.

(** ** Export router *)

Section ExportRouterFacts.

Import ExportRouter.

Lemma needsWebCodecs_app textLayers drawingLayers :
  needsWebCodecs textLayers drawingLayers =
  match textLayers ++ drawingLayers with [] => false | _ :: _ => true end.
Proof. destruct textLayers, drawingLayers; reflexivity. Qed.

(** C3: [getExportMethod] is a total function of the two layer lists and of
    the capabilities of the runtime, and decides as the router of the
    specification does: no layer gives [GraphBased] ('ffmpeg') whatever the
    capabilities are; some layer gives [Streaming] ('webcodecs') when the
    frame codecs are available and [Unsupported] when they are not. *)
Theorem getExportMethod_decides_as_route (rt : Runtime)
    (textLayers drawingLayers : list Layer) :
  route_of (getExportMethod rt textLayers drawingLayers) =
  route_spec (textLayers ++ drawingLayers) (canUseWebCodecs rt)
  /\ getExportMethod rt [] [] = ffmpeg
  /\ getExportMethod rt textLayers drawingLayers =
     match textLayers ++ drawingLayers with
     | [] => ffmpeg
     | _ :: _ => if canUseWebCodecs rt then webcodecs else unsupported
     end.
Proof.
  unfold getExportMethod, route_spec.
  rewrite needsWebCodecs_app.
  destruct (textLayers ++ drawingLayers); destruct (canUseWebCodecs rt);
    repeat split; reflexivity.
Qed.

End ExportRouterFacts.

(** ** Streaming exporter: the end of the trim *)

Section ExporterFacts.

Import Exporter.

Lemma or_null_falsy (v : option Q) :
  (v = None \/ exists q, v = Some q /\ q == 0) -> or_null v = None.
Proof.
  intros [-> | (q & -> & Hq)]; [reflexivity|].
  simpl. apply truthy_false_iff in Hq. now rewrite Hq.
Qed.

(** C10: an [endTime] of 0, [null] or left out is no end of the trim: the
    exporter keeps [null], the duration of the export is the whole duration
    of the video less [startTime], and the exporter built with an [endTime]
    of 0 is the one built without [endTime]. *)
Theorem endTime_falsy_is_no_trim_end (options : Options)
    (videoInfo : VideoInfo) :
  (o_endTime options = None \/
   exists q, o_endTime options = Some q /\ q == 0) ->
  endTime (constructor options) = None /\
  exportDuration (constructor options) videoInfo =
    vi_duration videoInfo - or_num (o_startTime options) 0 /\
  constructor options =
    constructor (mkOptions (o_startTime options) None (o_overlays options)
                   (o_displayWidth options) (o_displayHeight options)).
Proof.
  intros H. apply or_null_falsy in H.
  unfold exportDuration, constructor. simpl. rewrite H.
  repeat split; reflexivity.
Qed.

Lemma endTime_falsy_is_no_trim_end_witness :
  let options := mkOptions (Some 2) (Some 0) None (Some 400) (Some 225) in
  let videoInfo := mkVideoInfo 1920 1080 10 30 in
  endTime (constructor options) = None /\
  exportDuration (constructor options) videoInfo = 10 - 2 /\
  constructor options =
    constructor (mkOptions (Some 2) None None (Some 400) (Some 225)).
Proof.
  intros options videoInfo.
  apply (endTime_falsy_is_no_trim_end options videoInfo).
  right. exists 0. split; reflexivity.
Defined.

(** An [endTime] that is not 0 is kept and ends the export. *)
Lemma endTime_truthy_is_kept (options : Options) (videoInfo : VideoInfo) q :
  o_endTime options = Some q -> ~ q == 0 ->
  exportDuration (constructor options) videoInfo =
    q - or_num (o_startTime options) 0.
Proof.
  intros E H. apply truthy_true_iff in H.
  unfold exportDuration, constructor. simpl. rewrite E. simpl.
  now rewrite H; simpl; rewrite H.
Qed.

End ExporterFacts.

(** ** Streaming exporter: a recording without data *)

Section RecordingFacts.

Import Exporter.

Lemma ondataavailable_no_data ev this :
  no_data ev -> ondataavailable ev this = this.
Proof.
  destruct ev as [data|]; simpl; [|reflexivity].
  intros ->. reflexivity.
Qed.

Lemma ondataavailable_carry ev this :
  chunks_carry_data this -> chunks_carry_data (ondataavailable ev this).
Proof.
  unfold chunks_carry_data. intros H.
  destruct ev as [data|]; simpl; [|exact H].
  destruct (0 <? blob_size data)%N eqn:E; [|exact H].
  simpl. apply Forall_app. split; [exact H|].
  constructor; [|constructor]. now apply N.ltb_lt.
Qed.

Lemma fold_ondataavailable_no_data events this :
  Forall no_data events ->
  fold_left (fun e ev => ondataavailable ev e) events this = this.
Proof.
  intros H. revert this.
  induction H as [|ev events Hev _ IH]; intros this; simpl; [reflexivity|].
  rewrite ondataavailable_no_data by exact Hev. apply IH.
Qed.

Lemma fold_ondataavailable_carry events this :
  chunks_carry_data this ->
  chunks_carry_data (fold_left (fun e ev => ondataavailable ev e) events this).
Proof.
  revert this. induction events as [|ev events IH]; intros this H; simpl.
  - exact H.
  - apply IH. now apply ondataavailable_carry.
Qed.

Lemma new_Blob_size_pos parts type :
  parts <> [] -> Forall (fun chunk => (0 < blob_size chunk)%N) parts ->
  (0 < blob_size (new_Blob parts type))%N.
Proof.
  intros Hne H. destruct H as [|chunk parts Hc _]; [congruence|].
  simpl. lia.
Qed.

Lemma onstop_no_data mimeType events this :
  recordedChunks this = [] -> Forall no_data events ->
  onstop mimeType (fold_left (fun e ev => ondataavailable ev e) events this) =
  Rejected "No data was recorded".
Proof.
  intros E H. rewrite fold_ondataavailable_no_data by exact H.
  unfold onstop. now rewrite E.
Qed.

Lemma onstop_not_empty mimeType events this output :
  recordedChunks this = [] ->
  onstop mimeType (fold_left (fun e ev => ondataavailable ev e) events this) =
  Resolved output ->
  (0 < blob_size output)%N.
Proof.
  intros E. unfold onstop.
  pose proof (fold_ondataavailable_carry events this) as Hc.
  unfold chunks_carry_data in Hc. rewrite E in Hc.
  specialize (Hc (List.Forall_nil _)).
  destruct (recordedChunks
    (fold_left (fun e ev => ondataavailable ev e) events this))
    as [|chunk chunks] eqn:Er; simpl; [discriminate|].
  assert (Hp : (0 < blob_size (new_Blob (chunk :: chunks) mimeType))%N)
    by (apply new_Blob_size_pos; [discriminate | exact Hc]).
  intros [= <-].
  destruct (includes mimeType "mp4" ||
            includes (if printable mimeType then lowercase mimeType else "")
              "mp4"); [exact Hp|].
  unfold new_Blob at 1. simpl. simpl in Hp. lia.
Qed.

(** What [processVideoFrames] settles to is what [onstop] settles to, when
    it settles to a blob. *)
Lemma processVideoFrames_resolved run this output :
  processVideoFrames run this = Resolved output ->
  exists mimeType,
    getSupportedMimeType (run_isTypeSupported run) = Some mimeType /\
    onstop mimeType
      (fold_left (fun e ev => ondataavailable ev e) (run_events run)
         (mkExporter (startTime this) (endTime this) (overlays this)
            (displayWidth this) (displayHeight this) [])) = Resolved output.
Proof.
  unfold processVideoFrames, await, call.
  destruct (run_loadedmetadata run); try discriminate.
  destruct (run_captureStream run); try discriminate.
  destruct (getSupportedMimeType (run_isTypeSupported run)) as [mimeType|];
    try discriminate.
  destruct (run_start run); try discriminate.
  destruct (run_seeked run); try discriminate.
  destruct (run_play run); try discriminate.
  destruct (run_stop run); try discriminate.
  intros E. now exists mimeType.
Qed.

Lemma export_resolved run this output :
  export run this = Resolved output ->
  processVideoFrames run this = Resolved output.
Proof.
  unfold export, await.
  destruct (run_getVideoInfo run); try discriminate.
  destruct (processVideoFrames run this); try discriminate.
  now intros [= <-].
Qed.





(** An export that completes has an output that is not empty, and some
    event carried data. *)
Lemma export_complete_is_not_empty (run : Run) (this : MediaRecorderExporter)
    (output : Blob) :
  export run this = Resolved output ->
  (0 < blob_size output)%N /\ ~ Forall no_data (run_events run).
Proof.
  intros E. apply export_resolved, processVideoFrames_resolved in E.
  destruct E as (mimeType & _ & E). split.
  - eapply onstop_not_empty; [|exact E]. reflexivity.
  - intros H. rewrite onstop_no_data in E by (reflexivity || exact H).
    discriminate.
Qed.

End RecordingFacts.

(** ** Active overlays *)

Section ActiveFacts.

Import Active.

(** From the start of the trim on, the filter of the export is the
    predicate of the layer's own interval. *)
Lemma active_at_iff (l : Layer) (t trimStart : Q) :
  trimStart <= t ->
  active_at (t - trimStart) trimStart l = true <-> active_spec l t.
Proof.
  intros Ht. unfold active_at, active_spec.
  rewrite andb_true_iff, !Qle_bool_iff, Math_max_le_iff.
  split.
  - intros [[_ H1] H2]. split; lra.
  - intros [H1 H2]. repeat split; lra.
Qed.

Lemma activeOverlays_eq (overlays : list Layer) (t trimStart : Q) :
  activeOverlays overlays t trimStart =
  getActiveOverlays overlays (t - trimStart) trimStart.
Proof. reflexivity. Qed.

(** C7: at a playback time [t] of the export, which is never before the
    start of the trim, a layer is among the active overlays of the export
    (both filters, at the export-relative time [t - trimStart]) iff it is a
    layer of the list with [timing.start <= t <= timing.end], both ends
    included, whatever the trim is; the filter of the preview is that
    predicate at every time. *)
Theorem active_iff_within_timing (overlays : list Layer) (l : Layer)
    (t trimStart : Q) :
  trimStart <= t ->
  (In l (getActiveOverlays overlays (t - trimStart) trimStart) <->
     In l overlays /\ active_spec l t) /\
  (In l (activeOverlays overlays t trimStart) <->
     In l overlays /\ active_spec l t) /\
  (forall t', In l (visibleLayers overlays t') <->
     In l overlays /\ active_spec l t').
Proof.
  intros Ht.
  assert (H : In l (getActiveOverlays overlays (t - trimStart) trimStart) <->
              In l overlays /\ active_spec l t).
  { unfold getActiveOverlays. rewrite filter_In.
    now rewrite active_at_iff by exact Ht. }
  split; [exact H|]. split; [rewrite activeOverlays_eq; exact H|].
  intros t'. unfold visibleLayers, active_spec.
  rewrite filter_In, andb_true_iff, !Qle_bool_iff. reflexivity.
Qed.

Lemma active_iff_within_timing_witness :
  let l := VideoEditor.with_timing (mkTiming 2 5) (VideoEditor.newText 1 10) in
  (In l (getActiveOverlays [l] (5 - 1) 1) <-> In l [l] /\ active_spec l 5) /\
  (In l (activeOverlays [l] 5 1) <-> In l [l] /\ active_spec l 5) /\
  (forall t', In l (visibleLayers [l] t') <-> In l [l] /\ active_spec l t').
Proof.
  intros l. apply (active_iff_within_timing [l] l 5 1).
  unfold Qle; simpl; lia.
Defined.

(** The layer of the specification's example, [timing = {start: 2, end: 5}],
    in an export that is not trimmed: active at 2 and at 5, not at 1.999 nor
    at 5.001. *)
Lemma active_at_the_ends :
  let l := VideoEditor.with_timing (mkTiming 2 5) (VideoEditor.newText 1 10) in
  getActiveOverlays [l] 2 0 = [l] /\
  getActiveOverlays [l] 5 0 = [l] /\
  getActiveOverlays [l] (1999 # 1000) 0 = [] /\
  getActiveOverlays [l] (5001 # 1000) 0 = [].
Proof. repeat split. Qed.

End ActiveFacts.

(** ** Overlay store *)

Section StoreFacts.

Import Store.

Lemma spread_empty (layer : gmap string Field) : spread layer ∅ = layer.
Proof. unfold spread. apply (left_id ∅ (∪)). Qed.

Lemma spread_lookup_untouched (layer updates : gmap string Field) k :
  updates !! k = None -> spread layer updates !! k = layer !! k.
Proof. intros H. unfold spread. now apply lookup_union_r. Qed.

Lemma spread_lookup_updated (layer updates : gmap string Field) k v :
  updates !! k = Some v -> spread layer updates !! k = Some v.
Proof. intros H. unfold spread. now apply lookup_union_Some_l. Qed.

Lemma handleUpdateText_lookup id updates layers (i : nat) layer :
  layers !! i = Some layer ->
  handleUpdateText id updates layers !! i =
  Some (if id_is layer id then spread layer updates else layer).
Proof.
  unfold handleUpdateText. revert i.
  induction layers as [|a layers IH]; intros [|i] H; simpl in *;
    try discriminate.
  - now injection H as ->.
  - now apply IH.
Qed.

(** The object of a layer has its [transform] and its [timing]. *)
Lemma obj_of_layer_fields (l : Layer) :
  obj_of_layer l !! "id" = Some (FId (l_id l)) /\
  obj_of_layer l !! "transform" = Some (FTransform (l_transform l)) /\
  obj_of_layer l !! "timing" = Some (FTiming (l_timing l)).
Proof.
  unfold obj_of_layer. destruct (l_type l), (l_src l); repeat split;
    repeat (rewrite lookup_insert_ne by discriminate);
    now rewrite lookup_insert_eq.
Qed.

(** C8: [handleUpdateText(id, {})] leaves the list of layers as it is;
    [handleUpdateText(id, updates)] keeps the number and the order of the
    layers, leaves a layer with another id as it is, and in a layer with
    that id changes the properties named in [updates] only, every other
    property keeps its value: an update of [timing] alone leaves
    [transform] as it was. *)
Theorem handleUpdateText_shallow_merge (id : ident)
    (updates : gmap string Field) (layers : list (gmap string Field)) :
  handleUpdateText id ∅ layers = layers /\
  length (handleUpdateText id updates layers) = length layers /\
  (forall (i : nat) layer, layers !! i = Some layer ->
     exists layer', handleUpdateText id updates layers !! i = Some layer' /\
       (id_is layer id = false -> layer' = layer) /\
       (id_is layer id = true ->
          forall k,
            (updates !! k = None -> layer' !! k = layer !! k) /\
            (forall v, updates !! k = Some v -> layer' !! k = Some v))) /\
  (forall (i : nat) layer timing, layers !! i = Some layer ->
     exists layer',
       handleUpdateText id {["timing" := FTiming timing]} layers !! i =
         Some layer' /\
       layer' !! "transform" = layer !! "transform" /\
       (id_is layer id = true -> layer' !! "timing" = Some (FTiming timing))).
Proof.
  split; [|split; [|split]].
  - unfold handleUpdateText. induction layers as [|a layers IH]; simpl.
    + reflexivity.
    + rewrite spread_empty, IH. now destruct (id_is a id).
  - unfold handleUpdateText. apply length_map.
  - intros i layer H. eexists. split.
    + apply handleUpdateText_lookup, H.
    + split.
      * now intros ->.
      * intros ->. intros k. split.
        -- apply spread_lookup_untouched.
        -- apply spread_lookup_updated.
  - intros i layer timing H. eexists. split.
    + apply handleUpdateText_lookup, H.
    + destruct (id_is layer id); split; try reflexivity; try discriminate.
      * apply spread_lookup_untouched. now rewrite lookup_singleton_ne.
      * intros _. apply spread_lookup_updated. now rewrite lookup_singleton_eq.
Qed.

End StoreFacts.

(** ** The arithmetic of the machine *)

Section DoubleFacts.

Import SpecFloat Double.

Lemma iter_pos_comm {A} (f : A -> A) p : forall x,
  iter_pos f p (f x) = f (iter_pos f p x).
Proof.
  induction p as [p IH|p IH|]; intros x; simpl.
  - now rewrite !IH.
  - now rewrite !IH.
  - reflexivity.
Qed.

Lemma iter_pos_succ {A} (f : A -> A) p x :
  iter_pos f (Pos.succ p) x = f (iter_pos f p x).
Proof.
  revert x. induction p as [p IH|p IH|]; intros x; simpl.
  - rewrite !IH. now rewrite !iter_pos_comm.
  - now rewrite !iter_pos_comm.
  - reflexivity.
Qed.

Lemma digits2_pos_iter m k :
  digits2_pos (Pos.iter xO m k) = (digits2_pos m + k)%positive.
Proof.
  induction k as [|k IH] using Pos.peano_ind.
  - simpl. lia.
  - rewrite Pos.iter_succ. simpl. rewrite IH. lia.
Qed.

Lemma iter_shr_1 m k :
  iter_pos shr_1 k (Build_shr_record (Zpos (Pos.iter xO m k)) false false) =
  Build_shr_record (Zpos m) false false.
Proof.
  induction k as [|k IH] using Pos.peano_ind.
  - reflexivity.
  - rewrite iter_pos_succ, <- iter_pos_comm, Pos.iter_succ.
    exact IH.
Qed.

(** A significand of 53 bits followed by [k] zero bits is rounded to
    itself. *)
Lemma binary_round_aux_exact (sx : bool) (m : positive) (e : Z) (k : N) :
  digits2_pos m = 53%positive ->
  (-1074 <= e <= 971)%Z ->
  binary_round_aux prec emax sx (Zpos (Pos.shiftl m k)) (e - Z.of_N k)
    loc_Exact =
  S754_finite sx m e.
Proof.
  intros Hd He.
  assert (F : forall d, d = (53 + e)%Z -> fexp prec emax d = e).
  { intros d ->. unfold fexp, emin, prec, emax. lia. }
  unfold binary_round_aux, shr_fexp.
  assert (Hdig : Zdigits2 (Zpos (Pos.shiftl m k)) = (53 + Z.of_N k)%Z).
  { destruct k as [|k]; unfold Pos.shiftl; cbn [Zdigits2 Z.of_N];
      [now rewrite Hd|].
    rewrite digits2_pos_iter, Hd. reflexivity. }
  rewrite Hdig. rewrite (F (53 + Z.of_N k + (e - Z.of_N k))%Z) by lia.
  replace (e - (e - Z.of_N k))%Z with (Z.of_N k) by lia.
  destruct k as [|k]; simpl Z.of_N; unfold shr.
  - unfold Pos.shiftl.
    cbn [shr_record_of_loc shr_m loc_of_shr_record round_nearest_even].
    replace (e - 0)%Z with e by lia.
    cbn [Zdigits2]. rewrite Hd. rewrite (F (53 + e)%Z) by lia.
    rewrite Z.sub_diag. cbn [shr_m]. unfold prec, emax.
    destruct (Z.leb_spec e (1024 - 53)); [reflexivity | lia].
  - unfold Pos.shiftl. cbn [shr_record_of_loc]. rewrite iter_shr_1.
    cbn [shr_m loc_of_shr_record round_nearest_even].
    replace (e - Z.pos k + Z.pos k)%Z with e by lia.
    cbn [Zdigits2]. rewrite Hd. rewrite (F (53 + e)%Z) by lia.
    rewrite Z.sub_diag. cbn [shr_m]. unfold prec, emax.
    destruct (Z.leb_spec e (1024 - 53)); [reflexivity | lia].
Qed.

(** Doubling and halving are exact. *)
Lemma mul_two (s : bool) (m : positive) (e : Z) :
  digits2_pos m = 53%positive -> (-1075 <= e <= 970)%Z ->
  mul (S754_finite s m e) two = S754_finite s m (e + 1).
Proof.
  intros Hd He. unfold mul, two, SFmul.
  rewrite Pos.mul_comm.
  change (4503599627370496 * m)%positive with (Pos.shiftl m 52).
  replace (e + -51)%Z with ((e + 1) - Z.of_N 52)%Z by lia.
  rewrite binary_round_aux_exact by (assumption || lia).
  now destruct s.
Qed.

Lemma div_two (s : bool) (m : positive) (e : Z) :
  digits2_pos m = 53%positive -> (-1072 <= e <= 971)%Z ->
  div (S754_finite s m e) two = S754_finite s m (e - 1).
Proof.
  intros Hd He. unfold div, two, SFdiv, SFdiv_core_binary.
  cbn [Zdigits2]. rewrite Hd.
  change (digits2_pos 4503599627370496) with 53%positive.
  assert (E1 : Z.min (fexp prec emax (53 + e - (53 + -51))) (e - -51) =
               (e - 2)%Z).
  { unfold fexp, emin, prec, emax. lia. }
  rewrite E1.
  replace (e - -51 - (e - 2))%Z with 53%Z by lia.
  change (Z.shiftl (Z.pos m) 53) with (Zpos (Pos.shiftl m 53)).
  assert (E2 : Z.div_eucl (Zpos (Pos.shiftl m 53)) 4503599627370496 =
               (Zpos (Pos.shiftl m 1), 0%Z)).
  { assert (E : Zpos (Pos.shiftl m 53) =
                (4503599627370496 * Zpos (Pos.shiftl m 1) + 0)%Z).
    { unfold Pos.shiftl. cbn [Pos.iter]. lia. }
    pose proof (Z.div_eucl_eq (Zpos (Pos.shiftl m 53)) 4503599627370496
                  ltac:(lia)) as H0.
    pose proof (Z.mod_pos_bound (Zpos (Pos.shiftl m 53)) 4503599627370496
                  ltac:(lia)) as H1.
    unfold Z.modulo in H1.
    destruct (Z.div_eucl (Zpos (Pos.shiftl m 53)) 4503599627370496) as [q r].
    assert (r = 0 /\ q = Zpos (Pos.shiftl m 1))%Z as [-> ->] by nia.
    reflexivity. }
  rewrite E2.
  change (new_location 4503599627370496 0) with loc_Exact.
  replace (e - 2)%Z with ((e - 1) - Z.of_N 1)%Z by lia.
  rewrite binary_round_aux_exact by (assumption || lia).
  now destruct s.
Qed.










(** Truncation is the floor of a number that is not negative, the ceiling
    of one that is not positive. *)
Lemma Qtrunc_nonneg (q : Q) : 0 <= q -> Graph.Qtrunc q = Qfloor q.
Proof.
  destruct q as [n d]. unfold Qle, Graph.Qtrunc. simpl. intros H.
  apply Z.quot_div_nonneg; lia.
Qed.

Lemma Qtrunc_nonpos (q : Q) : q <= 0 -> Graph.Qtrunc q = Qceiling q.
Proof.
  destruct q as [n d]. unfold Qle, Graph.Qtrunc, Qceiling, Qfloor. simpl.
  intros H.
  assert (Hn : (n <= 0)%Z) by lia.
  rewrite <- (Z.opp_involutive n) at 1.
  rewrite Z.quot_opp_l by lia. f_equal.
  apply Z.quot_div_nonneg; lia.
Qed.

Lemma Qtrunc_comp (p q : Q) : p == q -> Graph.Qtrunc p = Graph.Qtrunc q.
Proof.
  intros H. destruct (Qlt_le_dec p 0) as [Hp|Hp].
  - rewrite !Qtrunc_nonpos by lra. now rewrite H.
  - rewrite !Qtrunc_nonneg by lra. now rewrite H.
Qed.

Lemma Qtrunc_inject_Z (n : Z) : Graph.Qtrunc (inject_Z n) = n.
Proof. unfold Graph.Qtrunc. simpl. apply Z.quot_1_r. Qed.

Lemma Qtrunc_bounds (q : Q) :
  0 <= q ->
  inject_Z (Graph.Qtrunc q) <= q /\ q < inject_Z (Graph.Qtrunc q) + 1.
Proof.
  intros H. rewrite (Qtrunc_nonneg q H). split.
  - apply Qfloor_le.
  - pose proof (Qlt_floor q) as Hf.
    rewrite inject_Z_plus in Hf. exact Hf.
Qed.

Lemma even_trunc_bounds (p : Q) :
  0 <= p ->
  inject_Z (2 * Graph.Qtrunc (p / 2)) <= p /\
  p < inject_Z (2 * Graph.Qtrunc (p / 2)) + 2.
Proof.
  intros H.
  assert (H2 : 0 <= p / 2) by (apply Qle_shift_div_l; lra).
  destruct (Qtrunc_bounds (p / 2) H2) as [Hl Hu].
  rewrite inject_Z_mult.
  assert (E : p == 2 * (p / 2)) by field.
  change (inject_Z 2) with 2.
  split; lra.
Qed.

Lemma digits2_pos_size (q : positive) : digits2_pos q = Pos.size q.
Proof. induction q as [q IH|q IH|]; simpl; now rewrite ?IH. Qed.

(** A significand has 53 bits when it is from [2^52] to [2^53 - 1]. *)
Lemma digits2_pos_53 (q : positive) :
  digits2_pos q = 53%positive <-> (2 ^ 52 <= Zpos q < 2 ^ 53)%Z.
Proof.
  rewrite digits2_pos_size.
  pose proof (Pos.size_gt q) as Hgt. pose proof (Pos.size_le q) as Hle.
  apply Pos2Z.pos_lt_pos in Hgt. apply Pos2Z.pos_le_pos in Hle.
  rewrite Pos2Z.inj_pow in Hgt, Hle.
  split.
  - intros E. rewrite E in Hgt, Hle.
    change (Z.pos 2 ^ Z.pos 53)%Z with (2 * 2 ^ 52)%Z in Hle.
    change (Z.pos 2 ^ Z.pos 53)%Z with (2 ^ 53)%Z in Hgt. lia.
  - intros [H1 H2].
    assert (Hs : (Z.pos (Pos.size q) = 53)%Z).
    { destruct (Z.lt_trichotomy (Z.pos (Pos.size q)) 53) as [Hc | [Hc | Hc]];
        [exfalso | exact Hc | exfalso].
      - assert (Z.pos 2 ^ Z.pos (Pos.size q) <= 2 ^ 52)%Z
          by (apply Z.pow_le_mono_r; lia).
        lia.
      - assert (H54 : (2 ^ 54 <= Z.pos 2 ^ Z.pos (Pos.size q))%Z)
          by (apply Z.pow_le_mono_r; lia).
        change (2 ^ 54)%Z with 18014398509481984%Z in H54.
        change (2 ^ 53)%Z with 9007199254740992%Z in H2. lia. }
    now injection Hs.
Qed.

(** What the engine makes of [trunc(p/2)*2] for a normal number [p]: [p]
    itself when its exponent is positive, and otherwise [p] with the bits
    of its significand under the weight 2 cleared. *)
Lemma even_trunc_double (s : bool) (m : positive) (e : Z) :
  digits2_pos m = 53%positive -> (-1072 <= e <= 971)%Z ->
  mul (Math_trunc (div (S754_finite s m e) two)) two =
  if (1 <=? e)%Z then S754_finite s m e
  else
    let n := (Zpos m / 2 ^ (1 - e))%Z in
    if (n =? 0)%Z then S754_zero s
    else S754_finite s (Z.to_pos (n * 2 ^ (1 - e))) e.
Proof.
  intros Hd He. rewrite div_two by assumption.
  unfold Math_trunc.
  destruct (Z.leb_spec 1 e) as [H1|H1].
  - destruct (Z.leb_spec 0 (e - 1)); [|lia].
    rewrite mul_two by (assumption || lia). f_equal. lia.
  - destruct (Z.leb_spec 0 (e - 1)); [lia|].
    replace (- (e - 1))%Z with (1 - e)%Z by lia. cbv zeta.
    set (pw := (2 ^ (1 - e))%Z).
    assert (Hpw : (0 < pw)%Z) by (apply Z.pow_pos_nonneg; lia).
    destruct (Z.eqb_spec (Z.pos m / pw) 0) as [Hn|Hn].
    + now destruct s.
    + apply digits2_pos_53 in Hd.
      assert (Hn0 : (0 < Z.pos m / pw)%Z).
      { pose proof (Z.div_pos (Z.pos m) pw ltac:(lia) Hpw). lia. }
      assert (Hm : (pw <= Z.pos m)%Z).
      { destruct (Z.le_gt_cases pw (Z.pos m)) as [Hc|Hc]; [exact Hc|].
        rewrite Z.div_small in Hn0 by lia. lia. }
      assert (Hk : (1 - e <= 52)%Z).
      { destruct (Z.le_gt_cases (1 - e) 52) as [Hc|Hc]; [exact Hc|].
        assert (2 ^ 53 <= pw)%Z by (apply Z.pow_le_mono_r; lia). lia. }
      assert (Hsplit : (2 ^ 52 = 2 ^ (52 - (1 - e)) * pw)%Z).
      { unfold pw. rewrite <- Z.pow_add_r by lia. f_equal. lia. }
      assert (Hlow : (2 ^ 52 <= Z.pos m / pw * pw)%Z).
      { assert (2 ^ (52 - (1 - e)) <= Z.pos m / pw)%Z.
        { apply Z.div_le_lower_bound; [exact Hpw|].
          rewrite Z.mul_comm, <- Hsplit. lia. }
        rewrite Hsplit. apply Z.mul_le_mono_nonneg_r; lia. }
      assert (Hup : (Z.pos m / pw * pw <= Z.pos m)%Z).
      { rewrite Z.mul_comm. apply Z.mul_div_le. exact Hpw. }
      assert (Hd' : digits2_pos (Z.to_pos (Z.pos m / pw * pw)) = 53%positive).
      { apply digits2_pos_53. rewrite Z2Pos.id by lia. lia. }
      rewrite mul_two by (assumption || lia). f_equal. lia.
Qed.

Lemma Qpower_two_sum (a b : Z) : 2 ^ (a + b) == 2 ^ a * 2 ^ b.
Proof. apply Qpower_plus. discriminate. Qed.

Lemma cond_Zopp_quot (s : bool) (m pw : Z) :
  (0 <= m)%Z -> (0 < pw)%Z ->
  Z.quot (cond_Zopp s m) pw = cond_Zopp s (m / pw).
Proof.
  intros Hm Hp. destruct s; simpl.
  - rewrite Z.quot_opp_l by lia. f_equal. apply Z.quot_div_nonneg; lia.
  - apply Z.quot_div_nonneg; lia.
Qed.

(** The value of [trunc(p/2)*2] is twice the integer part of the half of
    the value of [p], for [p] zero or normal. *)
Lemma even_trunc_value (p : number) :
  normal p = true ->
  let W := mul (Math_trunc (div p two)) two in
  is_finite W = true /\
  value W == inject_Z (2 * Graph.Qtrunc (value p / 2)).
Proof.
  destruct p as [s|s| |s m e]; try discriminate;
    [intros _; split; [now destruct s | now destruct s]|].
  unfold normal. rewrite !andb_true_iff, Pos.eqb_eq, !Z.leb_le.
  intros [[Hd H1] H2]. cbv zeta.
  rewrite even_trunc_double by (assumption || lia).
  set (c := cond_Zopp s (Z.pos m)).
  destruct (Z.leb_spec 1 e) as [He|He].
  - split; [reflexivity|].
    assert (E : value (S754_finite s m e) ==
                inject_Z (2 * (c * 2 ^ (e - 1)))).
    { unfold value. fold c.
      rewrite !inject_Z_mult, Zpower_Qpower by lia.
      change (inject_Z 2) with 2.
      replace e with (1 + (e - 1))%Z at 1 by lia.
      rewrite Qpower_two_sum. change (2 ^ 1) with 2. ring. }
    assert (E2 : value (S754_finite s m e) / 2 == inject_Z (c * 2 ^ (e - 1))).
    { rewrite E, (inject_Z_mult 2). change (inject_Z 2) with 2. field. }
    now rewrite (Qtrunc_comp _ _ E2), Qtrunc_inject_Z.
  - cbv zeta.
    set (pw := (2 ^ (1 - e))%Z).
    assert (Hpw : (0 < pw)%Z) by (apply Z.pow_pos_nonneg; lia).
    set (n := (Z.pos m / pw)%Z).
    assert (Hn0 : (0 <= n)%Z) by (apply Z.div_pos; lia).
    assert (Epw : inject_Z pw * 2 ^ e == 2).
    { unfold pw. rewrite Zpower_Qpower by lia. change (inject_Z 2) with 2.
      rewrite <- Qpower_two_sum. replace (1 - e + e)%Z with 1%Z by lia.
      reflexivity. }
    assert (Et : Graph.Qtrunc (value (S754_finite s m e) / 2) =
                 cond_Zopp s n).
    { assert (E : value (S754_finite s m e) / 2 == c # Z.to_pos pw).
      { rewrite (Qmake_Qdiv c (Z.to_pos pw)), Z2Pos.id by exact Hpw.
        unfold value. fold c.
        assert (Hne : ~ inject_Z pw == 0).
        { intros Hc. rewrite Hc in Epw. revert Epw. clear.
          rewrite Qmult_0_l. discriminate. }
        revert Epw Hne. generalize (2 ^ e) (inject_Z pw) (inject_Z c).
        intros A P C Epw Hne.
        assert (EA : A == 2 / P) by (rewrite <- Epw; field; exact Hne).
        rewrite EA. field. exact Hne. }
      rewrite (Qtrunc_comp _ _ E). unfold Graph.Qtrunc. simpl Qnum. simpl Qden.
      rewrite Z2Pos.id by exact Hpw. unfold c, n.
      apply cond_Zopp_quot; lia. }
    rewrite Et.
    assert (Ev : inject_Z (cond_Zopp s (n * pw)) * 2 ^ e ==
                 inject_Z (2 * cond_Zopp s n)).
    { assert (Ec : cond_Zopp s (n * pw) = (cond_Zopp s n * pw)%Z)
        by (destruct s; simpl; lia).
      rewrite Ec, !inject_Z_mult. change (inject_Z 2) with 2.
      revert Epw. generalize (2 ^ e) (inject_Z pw) (inject_Z (cond_Zopp s n)).
      intros A P C Epw.
      rewrite <- Epw. ring. }
    destruct (Z.eqb_spec n 0) as [Hz|Hz].
    + split; [reflexivity|]. rewrite Hz. now destruct s.
    + split; [reflexivity|]. unfold value.
      rewrite Z2Pos.id by nia. exact Ev.
Qed.

Lemma Zpos_shiftl (z : positive) (k : N) :
  Zpos (Pos.shiftl z k) = (Zpos z * 2 ^ Z.of_N k)%Z.
Proof.
  destruct k as [|k]; unfold Pos.shiftl; simpl Z.of_N; [lia|].
  induction k as [|k IH] using Pos.peano_ind.
  - simpl. lia.
  - rewrite Pos.iter_succ, Pos2Z.inj_xO, IH, Pos2Z.inj_succ, Z.pow_succ_r by lia.
    ring.
Qed.

Lemma shiftl_shiftl (z : positive) (a b : N) :
  Pos.shiftl (Pos.shiftl z a) b = Pos.shiftl z (a + b).
Proof.
  apply Pos2Z.inj. rewrite !Zpos_shiftl, N2Z.inj_add, Z.pow_add_r by lia.
  ring.
Qed.

Lemma digits2_pos_shiftl (z : positive) (k : N) :
  Zpos (digits2_pos (Pos.shiftl z k)) = (Zpos (digits2_pos z) + Z.of_N k)%Z.
Proof.
  destruct k as [|k]; unfold Pos.shiftl; simpl Z.of_N; [lia|].
  rewrite digits2_pos_iter. lia.
Qed.

(** The bits of a positive number. *)
Lemma digits2_pos_bounds (q : positive) :
  (2 ^ (Zpos (digits2_pos q) - 1) <= Zpos q < 2 ^ Zpos (digits2_pos q))%Z.
Proof.
  rewrite digits2_pos_size.
  pose proof (Pos.size_gt q) as Hgt. pose proof (Pos.size_le q) as Hle.
  apply Pos2Z.pos_lt_pos in Hgt. apply Pos2Z.pos_le_pos in Hle.
  rewrite Pos2Z.inj_pow in Hgt, Hle.
  replace (Z.pos (Pos.size q)) with (Z.succ (Z.pos (Pos.size q) - 1)) in Hle
    by lia.
  rewrite Z.pow_succ_r in Hle by lia. lia.
Qed.

Lemma digits2_pos_le (q : positive) (b : Z) :
  (0 <= b)%Z -> (Zpos q < 2 ^ b)%Z -> (Zpos (digits2_pos q) <= b)%Z.
Proof.
  intros Hb Hq. destruct (digits2_pos_bounds q) as [Hl _].
  destruct (Z.le_gt_cases (Zpos (digits2_pos q)) b) as [H|H]; [exact H|].
  assert (2 ^ b <= 2 ^ (Zpos (digits2_pos q) - 1))%Z
    by (apply Z.pow_le_mono_r; lia).
  lia.
Qed.

(** An integer of at most 53 bits, given with [k] zero bits under it, is
    normalised to itself with 53 bits. *)
Lemma binary_normalize_exact (z : positive) (k : N) :
  (Zpos (digits2_pos z) <= 53)%Z ->
  binary_normalize prec emax (Zpos (Pos.shiftl z k)) (- Z.of_N k) false =
  S754_finite false (Pos.shiftl z (Z.to_N (53 - Zpos (digits2_pos z))))
    (Zpos (digits2_pos z) - 53).
Proof.
  intros Hd.
  set (dz := Zpos (digits2_pos z)) in *.
  assert (Hdz : (1 <= dz)%Z) by (unfold dz; lia).
  set (j := Z.to_N (53 - dz)).
  assert (Hj : Z.of_N j = (53 - dz)%Z) by (unfold j; lia).
  assert (Hdj : digits2_pos (Pos.shiftl z j) = 53%positive).
  { apply Pos2Z.inj. rewrite digits2_pos_shiftl. fold dz. lia. }
  unfold binary_normalize, binary_round, shl_align.
  rewrite digits2_pos_shiftl. fold dz.
  assert (F : fexp prec emax (dz + Z.of_N k + - Z.of_N k) = (dz - 53)%Z).
  { unfold fexp, emin, prec, emax. lia. }
  rewrite F.
  destruct (dz - 53 - - Z.of_N k)%Z as [|d|d] eqn:Ed.
  - pose proof (binary_round_aux_exact false (Pos.shiftl z j) (dz - 53)
                  (k - j) Hdj ltac:(lia)) as H.
    rewrite shiftl_shiftl in H.
    replace (j + (k - j))%N with k in H by lia.
    replace (dz - 53 - Z.of_N (k - j))%Z with (- Z.of_N k)%Z in H by lia.
    exact H.
  - pose proof (binary_round_aux_exact false (Pos.shiftl z j) (dz - 53)
                  (k - j) Hdj ltac:(lia)) as H.
    rewrite shiftl_shiftl in H.
    replace (j + (k - j))%N with k in H by lia.
    replace (dz - 53 - Z.of_N (k - j))%Z with (- Z.of_N k)%Z in H by lia.
    exact H.
  - pose proof (binary_round_aux_exact false (Pos.shiftl z j) (dz - 53)
                  0 Hdj ltac:(lia)) as H.
    change (Pos.shiftl (Pos.shiftl z j) 0) with (Pos.shiftl z j) in H.
    replace (dz - 53 - Z.of_N 0)%Z with (dz - 53)%Z in H by (simpl; lia).
    assert (E : Pos.iter xO (Pos.shiftl z k) d = Pos.shiftl z j).
    { change (Pos.iter xO (Pos.shiftl z k) d)
        with (Pos.shiftl (Pos.shiftl z k) (Npos d)).
      rewrite shiftl_shiftl. f_equal. lia. }
    rewrite E. exact H.
Qed.

(** The value of such a number. *)
Lemma value_normalized (z : positive) :
  (Zpos (digits2_pos z) <= 53)%Z ->
  value (S754_finite false
           (Pos.shiftl z (Z.to_N (53 - Zpos (digits2_pos z))))
           (Zpos (digits2_pos z) - 53)) == inject_Z (Zpos z).
Proof.
  intros Hd. unfold value. simpl cond_Zopp.
  rewrite Zpos_shiftl, Z2N.id by lia.
  set (j := (53 - Z.pos (digits2_pos z))%Z).
  replace (Z.pos (digits2_pos z) - 53)%Z with (- j)%Z by (unfold j; lia).
  rewrite inject_Z_mult, Zpower_Qpower by (unfold j; lia).
  change (inject_Z 2) with 2.
  rewrite <- Qmult_assoc, <- Qpower_two_sum.
  replace (j + - j)%Z with 0%Z by lia. change (2 ^ 0) with 1. ring.
Qed.

Lemma of_Z_exact (z : positive) :
  (Zpos z < 2 ^ 53)%Z ->
  Double.is_finite (of_Z (Zpos z)) = true /\
  negative (of_Z (Zpos z)) = false /\
  value (of_Z (Zpos z)) == inject_Z (Zpos z).
Proof.
  intros Hz.
  assert (Hd : (Zpos (digits2_pos z) <= 53)%Z) by (apply digits2_pos_le; lia).
  unfold of_Z.
  pose proof (binary_normalize_exact z 0 Hd) as H.
  change (Pos.shiftl z 0) with z in H. change (- Z.of_N 0)%Z with 0%Z in H.
  rewrite H. split; [reflexivity|]. split; [reflexivity|].
  now apply value_normalized.
Qed.









End DoubleFacts.
(** ** Graph-based export *)

Section GraphFacts.

Import Graph.

(** What one turn of the loop of [transcode] does when it does not throw:
    nothing for a layer outside the trim, one still and two chains for
    another. *)
Lemma transcode_layer_Some B e acc layer acc' :
  transcode_layer B e acc layer = Some acc' ->
  (skipped e layer = true /\ acc' = acc) \/
  (skipped e layer = false /\
   exists scale_ fileName still scaled,
     tf_scale (l_transform layer) = Some scale_ /\
     ((is_image layer = true /\ scaled = img /\
       fetchFile B (l_src layer) = true /\
       writeFile B (imgFileName layer) = true /\
       fileName = imgFileName layer /\ still = ImageFile (l_src layer)) \/
      (is_image layer = false /\ scaled = txt /\
       writeFile B (textFileName layer) = true /\
       fileName = textFileName layer /\
       still = TextFile (renderTextToImage B layer))) /\
     acc' = push_filters e layer scale_ fileName still scaled acc).
Proof.
  unfold transcode_layer.
  destruct (skipped e layer); [intros [= <-]; now left|].
  intros H. right. split; [reflexivity|].
  destruct (is_image layer).
  - destruct (fetchFile B (l_src layer)) eqn:Ef; [|discriminate].
    destruct (writeFile B (imgFileName layer)) eqn:Ew; [|discriminate].
    destruct (tf_scale (l_transform layer)) as [scale_|]; [|discriminate].
    injection H as <-.
    exists scale_, (imgFileName layer), (ImageFile (l_src layer)), img.
    split; [reflexivity|]. split; [|reflexivity].
    left. now repeat split.
  - destruct (writeFile B (textFileName layer)) eqn:Ew; [|discriminate].
    destruct (tf_scale (l_transform layer)) as [scale_|]; [|discriminate].
    injection H as <-.
    exists scale_, (textFileName layer),
      (TextFile (renderTextToImage B layer)), txt.
    split; [reflexivity|]. split; [|reflexivity].
    right. now repeat split.
Qed.

Lemma transcode_layer_loops B e acc layer acc' :
  transcode_layer B e acc layer = Some acc' ->
  List.map loop_of (filterComplex acc') =
  List.map loop_of (filterComplex acc) ++
  (if skipped e layer then []
   else [Some (loopCount (duration64 e)); None]).
Proof.
  intros H. apply transcode_layer_Some in H.
  destruct H as [[-> ->] | [-> (scale_ & fileName & still & scaled & _ & _ & ->)]].
  - now rewrite app_nil_r.
  - unfold push_filters. simpl. now rewrite map_app.
Qed.

Lemma transcode_layers_loops B e layers : forall acc acc',
  transcode_layers B e acc layers = Some acc' ->
  List.map loop_of (filterComplex acc') =
  List.map loop_of (filterComplex acc) ++
  flat_map (fun _ => [Some (loopCount (duration64 e)); None])
    (List.filter (fun l => negb (skipped e l)) layers).
Proof.
  induction layers as [|layer layers IH]; intros acc acc'; simpl.
  - intros [= <-]. now rewrite app_nil_r.
  - destruct (transcode_layer B e acc layer) as [acc1|] eqn:E; [|discriminate].
    intros H. apply IH in H. rewrite H.
    rewrite (transcode_layer_loops _ _ _ _ _ E), <- app_assoc.
    now destruct (skipped e layer).
Qed.






(** The value of [trunc(iw*f/2)*2] and of [trunc(ih*f/2)*2]. *)
Lemma eval_target (w h : Z) (f : Double.number) :
  eval w h (target iw f) =
    Double.mul
      (Double.Math_trunc (Double.div (Double.mul (Double.of_Z w) f) Double.two))
      Double.two /\
  eval w h (target ih f) =
    Double.mul
      (Double.Math_trunc (Double.div (Double.mul (Double.of_Z h) f) Double.two))
      Double.two.
Proof. split; reflexivity. Qed.

Lemma even_trunc_of_product (p : Double.number) :
  Double.normal p = true ->
  let W :=
    Double.mul (Double.Math_trunc (Double.div p Double.two)) Double.two in
  Double.is_finite W = true /\
  Double.value W == inject_Z (2 * Qtrunc (Double.value p / 2)) /\
  (0 <= Double.value p ->
   Double.value W <= Double.value p /\ Double.value p < Double.value W + 2).
Proof.
  intros Hn W. destruct (even_trunc_value p Hn) as [Hf Hv]. fold W in Hf, Hv.
  split; [exact Hf|]. split; [exact Hv|].
  intros Hp. rewrite Hv. now apply even_trunc_bounds.
Qed.

(** C6, as the code has it: for a layer that the graph-based backend does
    not pass over, the scale operator of its chain gives a still of [w] by
    [h] pixels the width [trunc(w*fx/2)*2] and the height [trunc(h*fy/2)*2]
    in the arithmetic of the engine, with [fx = scale.sx * scaleX] and
    [fy = scale.sy * scaleY].  When the product [w*fx] is zero or a normal
    number the width is twice the integer part of its half: an even
    integer, reached by truncation, at most the product and less than 2
    under it when the product is not negative; and so for the height. *)
Theorem scale_dims_truncate_to_even (B : Browser) (e : Editor)
    (acc : Acc) (layer : Layer) (acc' : Acc) :
  skipped e layer = false ->
  transcode_layer B e acc layer = Some acc' ->
  exists scale_ fileName still chain over,
    tf_scale (l_transform layer) = Some scale_ /\
    inputs acc' = inputs acc ++ [(fileName, still)] /\
    filterComplex acc' = filterComplex acc ++ [chain; over] /\
    forall w h, still_size B still = Some (w, h) ->
      let pw :=
        Double.mul (Double.of_Z w)
          (Double.mul (Double.of_Q (fst scale_)) (scaleX e)) in
      let ph :=
        Double.mul (Double.of_Z h)
          (Double.mul (Double.of_Q (snd scale_)) (scaleY e)) in
      exists W H,
        scaled_size B chain still = Some (W, H) /\
        (Double.normal pw = true ->
         Double.is_finite W = true /\
         Double.value W == inject_Z (2 * Qtrunc (Double.value pw / 2)) /\
         (0 <= Double.value pw ->
          Double.value W <= Double.value pw /\
          Double.value pw < Double.value W + 2)) /\
        (Double.normal ph = true ->
         Double.is_finite H = true /\
         Double.value H == inject_Z (2 * Qtrunc (Double.value ph / 2)) /\
         (0 <= Double.value ph ->
          Double.value H <= Double.value ph /\
          Double.value ph < Double.value H + 2)).
Proof.
  intros Hs H. apply transcode_layer_Some in H.
  destruct H as [[Hs' _] | [_ (scale_ & fileName & still & scaled & Hsc & _ & ->)]];
    [congruence|].
  exists scale_, fileName, still. do 2 eexists.
  split; [exact Hsc|]. unfold push_filters. simpl.
  split; [reflexivity|]. split; [reflexivity|].
  intros w h Hsize. cbv zeta. unfold scaled_size. rewrite Hsize.
  do 2 eexists. split; [reflexivity|].
  destruct (eval_target w h
              (Double.mul (Double.of_Q (fst scale_)) (scaleX e))) as [-> _].
  destruct (eval_target w h
              (Double.mul (Double.of_Q (snd scale_)) (scaleY e))) as [_ ->].
  split; intros Hn; now apply even_trunc_of_product.
Qed.

Lemma scale_dims_truncate_to_even_witness :
  let B := Examples.browser 192 11 11 in
  let e := Examples.editor [] 0 10 704 396 1920 1080 in
  let acc := mkAcc [] [] main_video 1 in
  let layer := Examples.drawing 50 50 in
  exists acc' chain over W H,
    transcode_layer B e acc layer = Some acc' /\
    filterComplex acc' = [chain; over] /\
    scaled_size B chain (ImageFile (l_src layer)) = Some (W, H) /\
    Double.value W == 28 /\ Double.value H == 28 /\
    Double.value W <=
      Double.value (Double.mul (Double.of_Z 11)
                      (Double.mul (Double.of_Q 1) (scaleX e))) /\
    Double.value (Double.mul (Double.of_Z 11)
                    (Double.mul (Double.of_Q 1) (scaleX e))) < 30.
Proof.
  intros B e acc layer.
  destruct (transcode_layer B e acc layer) as [acc'|] eqn:E;
    [|vm_compute in E; discriminate E].
  destruct (scale_dims_truncate_to_even B e acc layer acc' eq_refl E)
    as (scale_ & fileName & still & chain & over & Hsc & Hin & Hf & Hsize).
  assert (Es : scale_ = (1, 1)) by (vm_compute in Hsc; congruence).
  assert (Est : still = ImageFile (l_src layer)).
  { vm_compute in E. injection E as <-. simpl in Hin.
    now injection Hin as _ <-. }
  subst scale_ still.
  destruct (Hsize 11%Z 11%Z eq_refl) as (W & H & HWH & HW & HH).
  exists acc', chain, over, W, H.
  split; [reflexivity|]. split; [exact Hf|]. split; [exact HWH|].
  destruct (HW eq_refl) as (_ & EW & BW). destruct (HH eq_refl) as (_ & EH & _).
  split; [rewrite EW; reflexivity|]. split; [rewrite EH; reflexivity|].
  split; [apply BW; vm_compute; discriminate | vm_compute; reflexivity].
Defined.

(** The scale operator does not round to the nearest even integer: a
    drawing 5 pixels wide, of scale [1, 1], on a video of 150 by 150 shown
    at 100 by 100, is 7.5 pixels wide in the video; the chain makes it 6
    wide, and 8 is the even integer nearest to 7.5. *)
Lemma scale_dims_not_nearest_even :
  let B := Examples.browser 192 5 5 in
  let e := Examples.editor [] 0 10 100 100 150 150 in
  let product :=
    Double.value
      (Double.mul (Double.of_Z 5) (Double.mul (Double.of_Q 1) (scaleX e))) in
  exists still box,
    Paths.graph_places B e (Examples.drawing 0 0) = Some (still, box) /\
    still_size B still = Some (5, 5)%Z /\
    box_w box == 6 /\
    product == 15 # 2 /\
    ~ nearest_even product 6 /\
    nearest_even product 8.
Proof.
  intros B e product. eexists. eexists. split; [vm_compute; reflexivity|].
  split; [reflexivity|]. split; [reflexivity|].
  assert (E : product == 15 # 2) by reflexivity.
  split; [exact E|]. split.
  - intros [_ H]. specialize (H 8%Z eq_refl). rewrite E in H.
    vm_compute in H. now apply H.
  - split; [reflexivity|]. intros m Hm. rewrite E.
    apply Z.even_spec in Hm. destruct Hm as [k ->].
    rewrite inject_Z_mult. change (inject_Z 2) with 2.
    assert (Ea : Qabs ((15 # 2) - inject_Z 8) == 1 # 2) by reflexivity.
    rewrite Ea.
    destruct (Z_le_gt_dec k 3) as [Hk|Hk].
    + assert (inject_Z k <= 3) by (rewrite (Zle_Qle k 3) in Hk; exact Hk).
      rewrite Qabs_pos by lra. lra.
    + assert (4 <= inject_Z k)
        by (assert (Hk4 : (4 <= k)%Z) by lia; rewrite (Zle_Qle 4 k) in Hk4; exact Hk4).
      rewrite Qabs_neg by lra. lra.
Qed.

End GraphFacts.

(** ** Frame compositing *)

Section CompositorFacts.

Import Canvas Compositor.

Lemma rotate_zero B (angle : Q) ctx : angle == 0 -> rotate B angle ctx = ctx.
Proof.
  intros H. unfold rotate, with_ctm, with_state.
  apply Qeq_bool_iff in H. rewrite H. now destruct ctx as [[? ? ? ? ?] ? ?].
Qed.

Lemma rotation_zero (rotation pi : Q) : rotation == 0 -> rotation * pi / 180 == 0.
Proof. intros ->. field. Qed.

Lemma or_num_zero (v : option Q) :
  (v = None \/ exists q, v = Some q /\ q == 0) -> or_num v 0 == 0.
Proof.
  intros [-> | (q & -> & Hq)]; simpl; [reflexivity|].
  destruct (truthy q); [exact Hq | reflexivity].
Qed.

(** What [drawOverlay] paints for an image that is not rotated, on a canvas
    whose matrix is [m]. *)
Lemma drawOverlay_image B this ctx layer image src cw ch :
  is_image layer = true -> has_src layer = true ->
  l_src layer = Some src ->
  l_cachedImage layer = None -> loadImage B src = Some image ->
  or_num (tf_rotate (l_transform layer)) 0 == 0 ->
  let sX := fst (scaleFactors this cw ch) in
  let sY := snd (scaleFactors this cw ch) in
  let baseScale :=
    match tf_scale (l_transform layer) with Some s => s | None => (1, 1) end in
  let scaledWidth := inject_Z (img_width image) * sX in
  let scaledHeight := inject_Z (img_height image) * sY in
  drawOverlay B this ctx layer cw ch =
  Some (mkCtx (state ctx) (saved ctx)
          (painted ctx ++
           [DrawImage image
              (multiply
                 (multiply (ctm (state ctx))
                    (mkMatrix 1 0 0 1
                       (tf_x (l_transform layer) * sX + scaledWidth / 2)
                       (tf_y (l_transform layer) * sY + scaledHeight / 2)))
                 (mkMatrix (fst baseScale) 0 0 (snd baseScale) 0 0))
              (- scaledWidth / 2) (- scaledHeight / 2)
              scaledWidth scaledHeight])).
Proof.
  intros Hi Hs Hsrc Hc Hl Hr. cbv zeta.
  unfold drawOverlay. destruct (scaleFactors this cw ch) as [sX sY].
  rewrite Hi, Hs, Hc, Hsrc, Hl. cbn [andb fst snd].
  rewrite rotate_zero by (apply rotation_zero, Hr).
  reflexivity.
Qed.

(** The same for [drawImageOverlay] of the compositor module. *)
Lemma drawImageOverlay_paints B ctx layer image sX sY :
  or_num (tf_rotate (l_transform layer)) 0 == 0 ->
  let scale_ :=
    match tf_scale (l_transform layer) with Some s => s | None => (1, 1) end in
  drawImageOverlay B ctx layer image sX sY =
  mkCtx (state ctx) (saved ctx)
    (painted ctx ++
     [DrawImage image
        (multiply
           (multiply (ctm (state ctx))
              (mkMatrix 1 0 0 1 (tf_x (l_transform layer) * sX)
                 (tf_y (l_transform layer) * sY)))
           (mkMatrix (fst scale_ * sX) 0 0 (snd scale_ * sY) 0 0))
        (- inject_Z (img_width image) / 2) (- inject_Z (img_height image) / 2)
        (inject_Z (img_width image)) (inject_Z (img_height image))]).
Proof.
  intros Hr. cbv zeta. unfold drawImageOverlay.
  rewrite rotate_zero by (apply rotation_zero, Hr).
  reflexivity.
Qed.

(** C5 on [drawImageOverlay]: on a canvas that is not transformed, an image
    that is neither rotated nor scaled is painted with its centre, not its
    top-left corner, at [(x * scaleX, y * scaleY)]. *)
Lemma drawImageOverlay_centres_the_image B ctx layer image sX sY :
  ctm (state ctx) = identity ->
  tf_scale (l_transform layer) = Some (1, 1) ->
  or_num (tf_rotate (l_transform layer)) 0 == 0 ->
  exists op b,
    last (painted (drawImageOverlay B ctx layer image sX sY)) = Some op /\
    Paths.painted_box op = Some b /\
    Graph.box_eq b
      (Graph.mkBox
         (tf_x (l_transform layer) * sX - inject_Z (img_width image) * sX / 2)
         (tf_y (l_transform layer) * sY - inject_Z (img_height image) * sY / 2)
         (inject_Z (img_width image) * sX)
         (inject_Z (img_height image) * sY)).
Proof.
  intros Hm Hsc Hr.
  rewrite (drawImageOverlay_paints B ctx layer image sX sY Hr).
  rewrite Hsc, Hm. cbn [painted fst snd].
  eexists. eexists. split; [apply last_snoc|].
  split; [reflexivity|].
  unfold Graph.box_eq. simpl. repeat split; field.
Qed.

(** C5 on [MediaRecorderExporter.drawOverlay]: on a canvas that is not
    transformed, an image that is neither rotated nor scaled is painted with
    its top-left corner at [(x * scaleX, y * scaleY)], at the size of the
    image times [(scaleX, scaleY)]. *)
Lemma drawOverlay_image_top_left B this layer image src cw ch :
  is_image layer = true -> has_src layer = true ->
  l_src layer = Some src ->
  l_cachedImage layer = None -> loadImage B src = Some image ->
  tf_scale (l_transform layer) = Some (1, 1) ->
  or_num (tf_rotate (l_transform layer)) 0 == 0 ->
  let sX := fst (scaleFactors this cw ch) in
  let sY := snd (scaleFactors this cw ch) in
  exists op b,
    Paths.streaming_paints B this layer cw ch = Some op /\
    Paths.painted_box op = Some b /\
    Graph.box_eq b
      (Graph.mkBox (tf_x (l_transform layer) * sX)
         (tf_y (l_transform layer) * sY)
         (inject_Z (img_width image) * sX)
         (inject_Z (img_height image) * sY)).
Proof.
  intros Hi Hs Hsrc Hc Hl Hsc Hr. cbv zeta. unfold Paths.streaming_paints.
  rewrite (drawOverlay_image B this initial layer image src cw ch
             Hi Hs Hsrc Hc Hl Hr).
  rewrite Hsc. cbn [painted fst snd initial].
  eexists. eexists. split; [apply last_snoc|].
  split; [reflexivity|].
  unfold Graph.box_eq. simpl. repeat split; field.
Qed.

(** C5 at the input of the specification: display 400 by 225, video 1920 by
    1080, a drawing of 40 by 20 at [(50, 50)], of scale [1, 1], not rotated.
    [drawImageOverlay] paints it with its top-left corner at [(144, 192)],
    its centre at [(240, 240)]; [MediaRecorderExporter.drawOverlay] paints
    it with its top-left corner at [(240, 240)]. *)
Theorem drawImageOverlay_top_left_is_off :
  let B := Examples.browser 192 40 20 in
  let layer := Examples.drawing 50 50 in
  let image := mkImage "drawing.png" 40 20 in
  let this := Examples.exporter [layer] 0 400 225 in
  exists op b op' b',
    last (painted
            (drawImageOverlay B initial layer image (1920 / 400) (1080 / 225))) =
      Some op /\
    Paths.painted_box op = Some b /\
    Graph.box_eq b (Graph.mkBox 144 192 192 96) /\
    ~ Graph.box_x b == 240 /\ ~ Graph.box_y b == 240 /\
    Paths.streaming_paints B this layer 1920 1080 = Some op' /\
    Paths.painted_box op' = Some b' /\
    Graph.box_eq b' (Graph.mkBox 240 240 192 96).
Proof.
  intros B layer image this. do 4 eexists.
  split; [vm_compute; reflexivity|]. split; [reflexivity|].
  split; [repeat split|].
  split; [intros H; vm_compute in H; discriminate H|].
  split; [intros H; vm_compute in H; discriminate H|].
  split; [vm_compute; reflexivity|]. split; [reflexivity|].
  repeat split.
Qed.

End CompositorFacts.

(** ** The two export paths side by side *)

Section PathsFacts.

Import Canvas Compositor Graph Paths.

(** C2: the two paths do not make the same frames.  For the layer of
    [handleAddText] (font size 40, at [(100, 100)]) with a text 192 pixels
    wide, on a video shown at its own size, the streaming path centres the
    text at [(200, 124)] and the graph path at [(200, 128)]: the first
    takes the height of the text to be the font size, the second 1.2 times
    the font size.  And when that layer is on screen from 3 to 4 only, the
    streaming path paints nothing but the video at the time 1, where the
    graph path overlays the same still as for the layer that is on screen
    all along, with no window of time. *)
Theorem text_layer_paths_differ :
  let B := Examples.browser 192 40 20 in
  let layer := Examples.caption in
  let this := Examples.exporter [layer] 0 400 225 in
  let e := Examples.editor [layer] 0 10 400 225 400 225 in
  (exists op anchor still box,
     streaming_paints B this layer 400 225 = Some op /\
     textAnchor op = Some anchor /\
     graph_places B e layer = Some (TextFile still, box) /\
     fst anchor == 200 /\ snd anchor == 124 /\
     fst (box_centre box) == 200 /\ snd (box_centre box) == 128 /\
     ~ snd anchor == snd (box_centre box)) /\
  (let late := VideoEditor.with_timing (mkTiming 3 4) layer in
   let this := Examples.exporter [late] 0 400 225 in
   let e := Examples.editor [late] 0 10 400 225 400 225 in
   exists ctx,
     renderFrame B this initial 1 400 225 = Some ctx /\
     painted ctx = [ClearRect 0 0 400 225; DrawVideo identity 0 0 400 225] /\
     skipped e late = false /\
     graph_places B e late = graph_places B e layer /\
     graph_places B e late <> None).
Proof.
  intros B layer this e. split.
  - do 4 eexists.
    split; [vm_compute; reflexivity|]. split; [reflexivity|].
    split; [vm_compute; reflexivity|].
    repeat (split; [reflexivity|]).
    intros H. vm_compute in H. discriminate H.
  - intros late this' e'. eexists.
    split; [vm_compute; reflexivity|]. split; [reflexivity|].
    split; [reflexivity|]. split; [reflexivity|].
    vm_compute. discriminate.
Qed.

End PathsFacts.

(** ** Timeline layout *)

Section TimelineFacts.

Import Timeline.

Local Abbreviation st l := (tm_start (l_timing l)).
Local Abbreviation en l := (tm_end (l_timing l)).

(** *** The sort *)

Lemma insert_perm a l : Permutation (insert a l) (a :: l).
Proof.
  induction l as [|b l IH]; simpl; [reflexivity|].
  destruct (Qle_bool (st a) (st b)); [reflexivity|].
  rewrite IH. apply perm_swap.
Qed.

Lemma sort_perm l : Permutation (sort l) l.
Proof.
  induction l as [|a l IH]; simpl; [reflexivity|].
  rewrite insert_perm. now constructor.
Qed.

Lemma insert_sorted a l :
  StronglySorted by_start l ->
  StronglySorted by_start (insert a l).
Proof.
  induction 1 as [|b l Hs IH Hb]; simpl.
  - repeat constructor.
  - destruct (Qle_bool (st a) (st b)) eqn:E.
    + apply Qle_bool_iff in E. constructor.
      * now constructor.
      * constructor; [exact E|].
        eapply List.Forall_impl; [|exact Hb].
        intros c Hc. unfold by_start in *. lra.
    + apply Qle_bool_false_iff in E. constructor; [exact IH|].
      apply (Permutation_Forall (Permutation_sym (insert_perm a l))).
      constructor; [unfold by_start; lra | exact Hb].
Qed.

Lemma sort_sorted l : StronglySorted by_start (sort l).
Proof.
  induction l as [|a l IH]; simpl; [constructor|]. now apply insert_sorted.
Qed.

(** *** Rows *)

Lemma lastLayerInRow_In row x : lastLayerInRow row = Some x -> In x row.
Proof.
  induction row as [|a row IH]; simpl; [discriminate|].
  destruct row as [|b row].
  - intros [= ->]. now left.
  - intros H. right. now apply IH.
Qed.

Lemma lastLayerInRow_nonempty row :
  row <> [] -> exists x, lastLayerInRow row = Some x.
Proof.
  induction row as [|a row IH]; [congruence|]. intros _.
  destruct row as [|b row]; [now exists a|].
  destruct IH as [x Hx]; [discriminate|]. exists x. exact Hx.
Qed.

Lemma SSorted_snoc {A} (R : A -> A -> Prop) l y :
  StronglySorted R l -> Forall (fun a => R a y) l ->
  StronglySorted R (l ++ [y]).
Proof.
  induction 1 as [|a l Hs IH Ha]; intros Hy; simpl.
  - repeat constructor.
  - apply List.Forall_cons_iff in Hy. destruct Hy as [Hay Hy].
    constructor; [now apply IH|].
    apply Forall_app. split; [exact Ha|]. now constructor.
Qed.

(** A row is a chain: each of its layers ends no later than the later ones
    start. *)
Lemma chain_before_last row x layer :
  chain row ->
  Forall valid_timing row ->
  lastLayerInRow row = Some x -> en x <= st layer ->
  Forall (fun a => en a <= st layer) row.
Proof.
  intros Hc Hv Hx Hl. apply List.Forall_forall. intros a Ha.
  unfold chain in Hc. induction Hc as [|b row Hs IH Hb]; [destruct Ha|].
  destruct row as [|c row].
  - simpl in Hx. injection Hx as <-. destruct Ha as [<- | []]. exact Hl.
  - apply List.Forall_cons_iff in Hv. destruct Hv as [_ Hv].
    destruct Ha as [<- | Ha].
    + change (lastLayerInRow (c :: row) = Some x) in Hx.
      pose proof (lastLayerInRow_In _ _ Hx) as Hin.
      pose proof (proj1 (List.Forall_forall _ _) Hb x Hin) as H1.
      pose proof (proj1 (List.Forall_forall _ _) Hv x Hin) as H2.
      unfold valid_timing in H2. simpl in H1. lra.
    + now apply IH.
Qed.

Lemma chain_disjoint row :
  chain row ->
  ForallOrdPairs disjoint row.
Proof.
  unfold chain. induction 1 as [|a row Hs IH Ha]; constructor; [|exact IH].
  eapply List.Forall_impl; [|exact Ha]. intros b Hb. now left.
Qed.

(** *** The loop over the rows *)

Lemma place_Some layer rows rows' :
  place layer rows = Some rows' ->
  exists r1 row x r2,
    rows = r1 ++ row :: r2 /\ lastLayerInRow row = Some x /\
    en x <= st layer /\ rows' = r1 ++ (row ++ [layer]) :: r2.
Proof.
  revert rows'. induction rows as [|row rest IH]; intros rows'; simpl;
    [discriminate|].
  destruct (lastLayerInRow row) as [x|] eqn:Ex.
  - destruct (Qle_bool (en x) (st layer)) eqn:E.
    + intros [= <-]. apply Qle_bool_iff in E.
      now exists [], row, x, rest.
    + destruct (place layer rest) as [rest'|]; [|discriminate].
      intros [= <-].
      destruct (IH rest' eq_refl) as (r1 & row1 & x1 & r2 & -> & H1 & H2 & ->).
      now exists (row :: r1), row1, x1, r2.
  - destruct (place layer rest) as [rest'|]; [|discriminate].
    intros [= <-].
    destruct (IH rest' eq_refl) as (r1 & row1 & x1 & r2 & -> & H1 & H2 & ->).
    now exists (row :: r1), row1, x1, r2.
Qed.

Lemma place_None layer rows :
  place layer rows = None ->
  Forall (fun row => forall x, lastLayerInRow row = Some x -> st layer < en x)
    rows.
Proof.
  induction rows as [|row rest IH]; simpl; [constructor|].
  destruct (lastLayerInRow row) as [x|] eqn:Ex.
  - destruct (Qle_bool (en x) (st layer)) eqn:E; [discriminate|].
    destruct (place layer rest); [discriminate|]. intros _.
    apply Qle_bool_false_iff in E.
    constructor; [|now apply IH].
    intros y Hy. rewrite Ex in Hy. now injection Hy as <-.
  - destruct (place layer rest); [discriminate|]. intros _.
    constructor; [|now apply IH].
    intros y Hy. rewrite Ex in Hy. discriminate Hy.
Qed.

(** *** Depth *)

Lemma depth_at_app p l1 l2 :
  depth_at p (l1 ++ l2) = (depth_at p l1 + depth_at p l2)%nat.
Proof. unfold depth_at. now rewrite List.filter_app, length_app. Qed.

Lemma depth_at_cons p a l :
  depth_at p (a :: l) = ((if covers p a then 1 else 0) + depth_at p l)%nat.
Proof. unfold depth_at. simpl. now destruct (covers p a). Qed.

Lemma depth_at_perm p l1 l2 :
  Permutation l1 l2 -> depth_at p l1 = depth_at p l2.
Proof.
  induction 1; rewrite ?depth_at_cons; lia.
Qed.

Lemma covers_iff p l : covers p l = true <-> st l <= p /\ p < en l.
Proof.
  unfold covers. rewrite andb_true_iff, negb_true_iff, Qle_bool_iff,
    Qle_bool_false_iff. reflexivity.
Qed.

Lemma depth_at_In p x l : In x l -> covers p x = true -> (1 <= depth_at p l)%nat.
Proof.
  induction l as [|a l IH]; [intros []|].
  rewrite depth_at_cons. intros [-> | H] Hc.
  - rewrite Hc. lia.
  - specialize (IH H Hc). lia.
Qed.

Lemma depth_at_concat_ge p rows :
  Forall (fun row => (1 <= depth_at p row)%nat) rows ->
  (length rows <= depth_at p (concat rows))%nat.
Proof.
  induction 1 as [|row rows H _ IH]; simpl; [lia|].
  rewrite depth_at_app. lia.
Qed.

Lemma depth_at_row_le p row :
  ForallOrdPairs disjoint row -> (depth_at p row <= 1)%nat.
Proof.
  induction 1 as [|a row Ha _ IH]; [unfold depth_at; simpl; lia|].
  rewrite depth_at_cons. destruct (covers p a) eqn:Ea; [|lia].
  apply covers_iff in Ea.
  assert (E : depth_at p row = 0%nat).
  { clear IH. induction Ha as [|b row Hb _ IH]; [reflexivity|].
    rewrite depth_at_cons, IH.
    destruct (covers p b) eqn:Eb; [|reflexivity].
    apply covers_iff in Eb. destruct Hb as [Hb | Hb]; lra. }
  lia.
Qed.

Lemma depth_at_concat_le p rows :
  Forall (ForallOrdPairs disjoint) rows ->
  (depth_at p (concat rows) <= length rows)%nat.
Proof.
  induction 1 as [|row rows H _ IH]; simpl; [unfold depth_at; simpl; lia|].
  rewrite depth_at_app. pose proof (depth_at_row_le p row H). lia.
Qed.

(** *** The invariant of the loop *)

Lemma concat_pushed r1 (row : list Layer) r2 layer :
  Permutation (concat (r1 ++ (row ++ [layer]) :: r2))
    (concat (r1 ++ row :: r2) ++ [layer]).
Proof.
  rewrite !concat_app. simpl. rewrite <- !app_assoc.
  apply Permutation_app_head, Permutation_app_head.
  apply Permutation_app_comm.
Qed.

Lemma forEach_body_inv rows layer :
  rows_inv rows -> valid_timing layer ->
  Forall (fun a => by_start a layer) (concat rows) ->
  rows_inv (forEach_body rows layer) /\
  Permutation (concat (forEach_body rows layer)) (concat rows ++ [layer]).
Proof.
  intros (Hne & Hch & Hv & Hd) Hl Hs. unfold forEach_body.
  destruct (place layer rows) as [rows'|] eqn:E.
  - apply place_Some in E.
    destruct E as (r1 & row & x & r2 & -> & Hx & Hxl & ->).
    pose proof (concat_pushed r1 row r2 layer) as Hp.
    split; [|exact Hp].
    apply Forall_app in Hne. destruct Hne as [Hne1 Hne2].
    apply List.Forall_cons_iff in Hne2. destruct Hne2 as [_ Hne2].
    apply Forall_app in Hch. destruct Hch as [Hch1 Hch2].
    apply List.Forall_cons_iff in Hch2. destruct Hch2 as [Hrow Hch2].
    assert (Hvrow : Forall valid_timing row).
    { apply List.Forall_forall. intros a Ha.
      apply (proj1 (List.Forall_forall _ _) Hv).
      apply in_concat. exists row. split; [|exact Ha].
      apply in_or_app. right. now left. }
    repeat split.
    + apply Forall_app. split; [exact Hne1|].
      constructor; [|exact Hne2]. now destruct row.
    + apply Forall_app. split; [exact Hch1|].
      constructor; [|exact Hch2].
      apply SSorted_snoc; [exact Hrow|].
      now apply (chain_before_last row x).
    + apply (Permutation_Forall (Permutation_sym Hp)).
      apply Forall_app. split; [exact Hv|]. now constructor.
    + right. destruct Hd as [Hd | [p Hd]]; [now destruct r1|].
      exists p. rewrite (depth_at_perm p _ _ Hp), depth_at_app.
      rewrite length_app in *. simpl in *. lia.
  - pose proof (place_None _ _ E) as Hn.
    assert (Hc : concat (rows ++ [[layer]]) = concat rows ++ [layer]).
    { rewrite concat_app. simpl. reflexivity. }
    rewrite Hc. split; [|reflexivity]. repeat split.
    + apply Forall_app. split; [exact Hne|]. now repeat constructor.
    + apply Forall_app. split; [exact Hch|]. repeat constructor.
    + rewrite Hc. apply Forall_app. split; [exact Hv|]. now constructor.
    + right. exists (st layer). rewrite Hc, depth_at_app, length_app.
      assert (H1 : (length rows <= depth_at (st layer) (concat rows))%nat).
      { apply depth_at_concat_ge. apply List.Forall_forall. intros row Hrow.
        destruct (lastLayerInRow_nonempty row) as [x Hx].
        { exact (proj1 (List.Forall_forall _ _) Hne row Hrow). }
        apply (depth_at_In _ x); [now apply lastLayerInRow_In|].
        apply covers_iff. split.
        - apply (proj1 (List.Forall_forall _ _) Hs).
          apply in_concat. exists row. split; [exact Hrow|].
          now apply lastLayerInRow_In.
        - exact (proj1 (List.Forall_forall _ _) Hn row Hrow x Hx). }
      assert (H2 : depth_at (st layer) [layer] = 1%nat).
      { rewrite depth_at_cons.
        assert (Hcov : covers (st layer) layer = true).
        { apply covers_iff. unfold valid_timing in Hl. split; lra. }
        now rewrite Hcov. }
      simpl. lia.
Qed.

Lemma fold_forEach_inv rest : forall rows,
  rows_inv rows -> Forall valid_timing rest -> StronglySorted by_start rest ->
  Forall (fun a => Forall (by_start a) rest) (concat rows) ->
  rows_inv (fold_left forEach_body rest rows) /\
  Permutation (concat (fold_left forEach_body rest rows)) (concat rows ++ rest).
Proof.
  induction rest as [|layer rest IH]; intros rows Hi Hv Hs Hb; simpl.
  - rewrite app_nil_r. now split.
  - apply List.Forall_cons_iff in Hv. destruct Hv as [Hl Hv].
    apply StronglySorted_inv in Hs. destruct Hs as [Hs Hlr].
    destruct (forEach_body_inv rows layer Hi Hl) as [Hi1 Hp1].
    { eapply List.Forall_impl; [|exact Hb]. intros a Ha.
      now apply List.Forall_cons_iff in Ha. }
    destruct (IH (forEach_body rows layer) Hi1 Hv Hs) as [Hi2 Hp2].
    { apply (Permutation_Forall (Permutation_sym Hp1)).
      apply Forall_app. split.
      - eapply List.Forall_impl; [|exact Hb]. intros a Ha.
        now apply List.Forall_cons_iff in Ha.
      - now constructor. }
    split; [exact Hi2|].
    rewrite Hp2, Hp1, <- app_assoc. reflexivity.
Qed.

Lemma rows_of_inv layers :
  Forall valid_timing layers ->
  rows_inv (rows_of layers) /\ Permutation (concat (rows_of layers)) layers.
Proof.
  intros Hv. unfold rows_of.
  destruct (fold_forEach_inv (sort layers) []) as [Hi Hp].
  - repeat split; [constructor | constructor | constructor | now left].
  - apply (Permutation_Forall (Permutation_sym (sort_perm layers))), Hv.
  - apply sort_sorted.
  - constructor.
  - split; [exact Hi|]. rewrite Hp. simpl. apply sort_perm.
Qed.

(** *** The first row *)

Lemma insert_first a l :
  Forall (by_start a) l -> insert a l = a :: l.
Proof.
  intros H. destruct l as [|b l]; [reflexivity|]. simpl.
  apply List.Forall_cons_iff in H. destruct H as [H _].
  apply Qle_bool_iff in H. now rewrite H.
Qed.

Lemma insert_later a b l :
  st b < st a -> insert a (b :: l) = b :: insert a l.
Proof.
  intros H. simpl. apply Qle_bool_false_iff in H. now rewrite H.
Qed.

Lemma sort_earliest_first before L after :
  valid_timing L ->
  Forall (fun o => en L <= st o) (before ++ after) ->
  sort (before ++ L :: after) = L :: sort (before ++ after).
Proof.
  intros HL. unfold valid_timing in HL.
  induction before as [|a before IH]; simpl; intros H.
  - apply insert_first.
    apply (Permutation_Forall (Permutation_sym (sort_perm after))).
    eapply List.Forall_impl; [|exact H]. intros o Ho.
    unfold by_start. cbv beta in Ho. lra.
  - apply List.Forall_cons_iff in H. destruct H as [Ha H].
    rewrite (IH H). apply insert_later. cbv beta in Ha. lra.
Qed.

Lemma forEach_body_first_row L r rs layer :
  exists r' rs', forEach_body ((L :: r) :: rs) layer = (L :: r') :: rs'.
Proof.
  unfold forEach_body. simpl.
  destruct (lastLayerInRow_nonempty (L :: r)) as [x Hx]; [discriminate|].
  change (match r with [] => Some L | _ :: _ => lastLayerInRow r end)
    with (lastLayerInRow (L :: r)).
  rewrite Hx.
  destruct (Qle_bool (en x) (st layer)).
  - now exists (r ++ [layer]), rs.
  - destruct (place layer rs) as [rs'|]; simpl.
    + now exists r, rs'.
    + now exists r, (rs ++ [[layer]]).
Qed.

Lemma fold_forEach_first_row L rest : forall r rs,
  exists r' rs', fold_left forEach_body rest ((L :: r) :: rs) = (L :: r') :: rs'.
Proof.
  induction rest as [|layer rest IH]; intros r rs; simpl.
  - now exists r, rs.
  - destruct (forEach_body_first_row L r rs layer) as (r1 & rs1 & ->).
    apply IH.
Qed.

(** *** The map from ids to rows *)

Lemma fold_set_row_lookup index row : forall m k,
  fold_left (set_row index) row m !! k =
  if existsb (fun layer => String.eqb (toKey (l_id layer)) k) row
  then Some index else m !! k.
Proof.
  induction row as [|layer row IH] using rev_ind; intros m k; [reflexivity|].
  rewrite fold_left_app, existsb_app. simpl. unfold set_row at 1.
  rewrite orb_false_r.
  destruct (String.eqb (toKey (l_id layer)) k) eqn:E.
  - apply String.eqb_eq in E. subst k.
    rewrite lookup_insert_eq. now rewrite orb_true_r.
  - apply String.eqb_neq in E.
    rewrite lookup_insert_ne by exact E. rewrite orb_false_r. apply IH.
Qed.

Lemma layerRowMap_from_absent rows : forall index m k,
  Forall (fun layer => toKey (l_id layer) <> k) (concat rows) ->
  layerRowMap_from index rows m !! k = m !! k.
Proof.
  induction rows as [|row rows IH]; intros index m k H; simpl; [reflexivity|].
  simpl in H. apply Forall_app in H. destruct H as [Hrow Hrows].
  rewrite (IH _ _ _ Hrows), fold_set_row_lookup.
  assert (E : existsb (fun layer => String.eqb (toKey (l_id layer)) k) row = false).
  { apply not_true_is_false. intros Hex. apply existsb_exists in Hex.
    destruct Hex as (layer & Hin & Heq). apply String.eqb_eq in Heq.
    exact (proj1 (List.Forall_forall _ _) Hrow layer Hin Heq). }
  now rewrite E.
Qed.

(** C4, as the code has it: for layers whose timing has [start < end], the
    rows of [getLayerRows] are a packing of the layers (every layer is in
    one row and no two layers of a row overlap) and no packing has fewer
    rows; a layer that ends no later than every other layer starts is the
    first layer of row 0, and its id is mapped to row 0 when no other layer
    has its id.  The editor does not keep [start < end]
    ([first_fit_zero_length_layer]). *)
Theorem first_fit_rows_are_minimal (textLayers : list Layer) :
  Forall valid_timing textLayers ->
  totalRows (getLayerRows textLayers) = length (rows_of textLayers) /\
  packing textLayers (rows_of textLayers) /\
  (forall rows, packing textLayers rows ->
     (totalRows (getLayerRows textLayers) <= length rows)%nat) /\
  (forall before L after, textLayers = before ++ L :: after ->
     Forall (fun o => tm_end (l_timing L) <= tm_start (l_timing o))
       (before ++ after) ->
     (exists r rest, rows_of textLayers = (L :: r) :: rest) /\
     (Forall (fun o => toKey (l_id o) <> toKey (l_id L)) (before ++ after) ->
      layerRowMap (getLayerRows textLayers) !! toKey (l_id L) = Some 0%nat)).
Proof.
  intros Hv.
  destruct (rows_of_inv textLayers Hv) as [(Hne & Hch & _ & Hd) Hp].
  split; [reflexivity|]. split; [|split].
  - split; [exact Hp|].
    eapply List.Forall_impl; [|exact Hch]. apply chain_disjoint.
  - intros rows [Hp' Hd']. simpl.
    destruct Hd as [-> | [p Hd]]; [simpl; lia|].
    rewrite (depth_at_perm p _ _ Hp) in Hd.
    rewrite <- (depth_at_perm p _ _ Hp') in Hd.
    pose proof (depth_at_concat_le p rows Hd'). lia.
  - intros before L after -> Hend.
    assert (HL : valid_timing L).
    { apply (proj1 (List.Forall_forall _ _) Hv). apply in_or_app. right. now left. }
    assert (Hrows : exists r rest,
              rows_of (before ++ L :: after) = (L :: r) :: rest).
    { unfold rows_of. rewrite (sort_earliest_first before L after HL Hend).
      simpl. unfold forEach_body at 2. simpl. apply fold_forEach_first_row. }
    split; [exact Hrows|]. intros Hid.
    destruct Hrows as (r & rest & Hrows).
    unfold getLayerRows. simpl. rewrite Hrows in *. simpl.
    assert (Hrest : Forall (fun o => toKey (l_id o) <> toKey (l_id L))
                      (concat rest)).
    { simpl in Hp.
      assert (Hp2 : Permutation (r ++ concat rest) (before ++ after)).
      { apply Permutation_cons_inv with L.
        rewrite Hp. symmetry. apply Permutation_middle. }
      apply List.Forall_forall. intros o Ho.
      apply (proj1 (List.Forall_forall _ _) Hid).
      apply (Permutation_in _ Hp2). apply in_or_app. now right. }
    rewrite (layerRowMap_from_absent rest _ _ _ Hrest).
    rewrite (fold_set_row_lookup 0 r). unfold set_row.
    rewrite lookup_insert_eq. now destruct (existsb _ r).
Qed.

Lemma first_fit_rows_are_minimal_witness :
  let a := VideoEditor.with_timing (mkTiming 0 1) (VideoEditor.newText 1 10) in
  let b := VideoEditor.with_timing (mkTiming 1 3) (VideoEditor.newText 2 10) in
  let c := VideoEditor.with_timing (mkTiming 2 8) (VideoEditor.newText 3 10) in
  let d := VideoEditor.with_timing (mkTiming 4 6) (VideoEditor.newText 4 10) in
  let textLayers := [c; a; d; b] in
  rows_of textLayers = [[a; b; d]; [c]] /\
  totalRows (getLayerRows textLayers) = 2%nat /\
  packing textLayers (rows_of textLayers) /\
  (forall rows, packing textLayers rows ->
     (totalRows (getLayerRows textLayers) <= length rows)%nat) /\
  (exists r rest, rows_of textLayers = (a :: r) :: rest) /\
  layerRowMap (getLayerRows textLayers) !! toKey (l_id a) = Some 0%nat.
Proof.
  intros a b c d textLayers.
  destruct (first_fit_rows_are_minimal textLayers) as (H1 & H2 & H3 & H4).
  { repeat constructor; unfold valid_timing, Qlt; simpl; lia. }
  destruct (H4 [c] a [d; b] eq_refl) as [H5 H6].
  { repeat constructor; unfold Qle; simpl; lia. }
  split; [reflexivity|]. split; [reflexivity|].
  split; [exact H2|]. split; [exact H3|]. split; [exact H5|].
  apply H6. repeat constructor; discriminate.
Defined.

(** The editor reaches layers with [start = end], and there the first fit
    is not minimal: in a video of 10 seconds, a text is added (timing from 0
    to 10), a drawing is saved at the end of the video (its timing is from 10
    to [Math.min(13, 10)]) and its bar is then dragged to the left end of the
    track (from 0 to 0).  The sort keeps the text first, the drawing does
    not fit after it, and the layout has two rows: the two layers fit in one
    row, and the drawing, which ends no later than the text starts, is in
    row 1. *)
Lemma first_fit_zero_length_layer :
  let text := VideoEditor.newText 1 10 in
  let saved := VideoEditor.newLayer 2 "data:image/png;base64,AAAA" 50 50 10 10 in
  let textLayers :=
    TimelineEdit.handleMouseMove (TimelineEdit.Dragging (IdNum 2))
      (Some (TimelineEdit.mkRect 0 500)) 10 0
      (VideoEditor.handleSaveDrawing 2 "data:image/png;base64,AAAA" 50 50 10 10
         (VideoEditor.handleAddText 1 10 [])) in
  exists drawing,
    textLayers = [text; drawing] /\
    l_id drawing = l_id saved /\
    tm_start (l_timing saved) == 10 /\ tm_end (l_timing saved) == 10 /\
    tm_start (l_timing drawing) == 0 /\ tm_end (l_timing drawing) == 0 /\
    tm_start (l_timing text) == 0 /\ tm_end (l_timing text) == 10 /\
    tm_end (l_timing drawing) <= tm_start (l_timing text) /\
    rows_of textLayers = [[text]; [drawing]] /\
    totalRows (getLayerRows textLayers) = 2%nat /\
    layerRowMap (getLayerRows textLayers) !! toKey (l_id drawing) = Some 1%nat /\
    packing textLayers [[drawing; text]].
Proof.
  intros text saved textLayers.
  eexists. split; [reflexivity|].
  repeat (split; [reflexivity || (unfold Qle; simpl; lia)|]).
  split.
  - simpl. apply perm_swap.
  - apply List.Forall_cons; [|apply List.Forall_nil].
    apply FOP_cons;
      [apply List.Forall_cons; [|apply List.Forall_nil]
      |apply FOP_cons; [apply List.Forall_nil | apply FOP_nil]].
    left. unfold Qle. simpl. lia.
Qed.

End TimelineFacts.

(** ** Overlay store: removal *)

Section StoreRemovalFacts.

Import Store.

(** [handleRemoveText(id)] removes the layers with that id and no other,
    keeps the order of the rest, changes nothing when no layer has the id,
    and removing twice is removing once. *)
Theorem handleRemoveText_removes_exactly (id : ident)
    (layers : list (gmap string Field)) :
  (forall layer, In layer (handleRemoveText id layers) <->
     In layer layers /\ id_is layer id = false) /\
  (forall before after,
     layers = before ++ after ->
     handleRemoveText id layers =
     handleRemoveText id before ++ handleRemoveText id after) /\
  (handleRemoveText id layers = layers <->
     Forall (fun layer => id_is layer id = false) layers) /\
  handleRemoveText id (handleRemoveText id layers) = handleRemoveText id layers.
Proof.
  unfold handleRemoveText. split; [|split; [|split]].
  - intros layer. rewrite filter_In, negb_true_iff. reflexivity.
  - intros before after ->. apply List.filter_app.
  - split.
    + intros E. apply List.Forall_forall. intros layer Hin.
      rewrite <- E in Hin. apply filter_In in Hin.
      now apply negb_true_iff.
    + intros H. induction H as [|layer layers Hl _ IH]; simpl; [reflexivity|].
      now rewrite Hl, IH.
  - induction layers as [|layer layers IH]; simpl; [reflexivity|].
    destruct (negb (id_is layer id)) eqn:E; simpl; [|exact IH].
    now rewrite E, IH.
Qed.

Lemma id_is_spread layer updates id :
  updates !! "id" = None -> id_is (spread layer updates) id = id_is layer id.
Proof.
  intros H. unfold id_is. now rewrite (spread_lookup_untouched _ _ _ H).
Qed.

(** An update that does not name [id] changes the id of no layer: removing
    an id after such an update of that id leaves what removing it at once
    leaves, and the update finds the same layers a second time. *)
Theorem update_then_remove (id : ident) (updates : gmap string Field)
    (layers : list (gmap string Field)) :
  updates !! "id" = None ->
  handleRemoveText id (handleUpdateText id updates layers) =
    handleRemoveText id layers /\
  List.map (fun layer => id_is layer id) (handleUpdateText id updates layers) =
    List.map (fun layer => id_is layer id) layers.
Proof.
  intros H. unfold handleRemoveText, handleUpdateText.
  induction layers as [|layer layers [IH1 IH2]]; simpl; [now split|].
  destruct (id_is layer id) eqn:E.
  - rewrite (id_is_spread _ _ _ H), E. simpl. now rewrite IH1, IH2.
  - rewrite E. simpl. now rewrite IH1, IH2.
Qed.

Lemma update_then_remove_witness :
  let id := IdStr "2" in
  let layers :=
    [obj_of_layer (VideoEditor.newText 1 10);
     obj_of_layer (VideoEditor.newText 2 10)] in
  let updates : gmap string Field := {["timing" := FTiming (mkTiming 1 4)]} in
  handleRemoveText id (handleUpdateText id updates layers) =
    handleRemoveText id layers /\
  List.map (fun layer => id_is layer id) (handleUpdateText id updates layers) =
    List.map (fun layer => id_is layer id) layers.
Proof.
  intros id layers updates.
  apply (update_then_remove id updates layers).
  reflexivity.
Defined.

End StoreRemovalFacts.

(** ** The layers the editor creates *)

Section VideoEditorFacts.

Import VideoEditor TimelineEdit.

Lemma Math_min_le_l a b : Math_min a b <= a.
Proof.
  unfold Math_min. destruct (Qle_bool a b) eqn:E; [apply Qle_refl|].
  apply Qle_bool_false_iff in E. lra.
Qed.

Lemma Math_min_le_r a b : Math_min a b <= b.
Proof.
  unfold Math_min. destruct (Qle_bool a b) eqn:E; [|apply Qle_refl].
  now apply Qle_bool_iff.
Qed.

Lemma Math_min_glb a b c : c <= a -> c <= b -> c <= Math_min a b.
Proof. unfold Math_min. now destruct (Qle_bool a b). Qed.

Lemma Math_min_lt_iff a b c : c < Math_min a b <-> c < a /\ c < b.
Proof.
  unfold Math_min. destruct (Qle_bool a b) eqn:E.
  - apply Qle_bool_iff in E. split; [intros H; split; lra | now intros [H _]].
  - apply Qle_bool_false_iff in E. split; [intros H; split; lra | now intros [_ H]].
Qed.

(** The drawing that [handleSaveDrawing] adds at the playback time
    [currentTime] has a timing within the video exactly when the playhead is
    not at the end of the video: there its interval is empty. *)
Theorem newLayer_timing (now : Z) (dataUrl : string)
    (x y currentTime videoDuration : Q) :
  (valid_timing (newLayer now dataUrl x y currentTime videoDuration) <->
     currentTime < videoDuration) /\
  (within videoDuration (newLayer now dataUrl x y currentTime videoDuration)
     <-> 0 <= currentTime /\ currentTime < videoDuration) /\
  tm_end (l_timing (newLayer now dataUrl x y currentTime videoDuration))
    <= currentTime + 3.
Proof.
  unfold valid_timing, within, newLayer. simpl.
  rewrite Math_min_lt_iff.
  pose proof (Math_min_le_l (currentTime + 3) videoDuration).
  pose proof (Math_min_le_r (currentTime + 3) videoDuration).
  repeat split; try tauto; try lra.
Qed.



End VideoEditorFacts.

(** ** Export router: what the decision rests on *)

Section ExportRouterMoreFacts.

Import ExportRouter.

(** The streaming path is chosen only in a runtime that has the four codec
    classes, and only when there is a layer. *)
Theorem webcodecs_needs_all_codecs (rt : Runtime)
    (textLayers drawingLayers : list Layer) :
  getExportMethod rt textLayers drawingLayers = webcodecs ->
  (exists w, rt = Some w /\
     has_VideoEncoder w = true /\ has_VideoDecoder w = true /\
     has_AudioEncoder w = true /\ has_AudioDecoder w = true) /\
  textLayers ++ drawingLayers <> [].
Proof.
  unfold getExportMethod. rewrite needsWebCodecs_app.
  destruct (textLayers ++ drawingLayers); [discriminate|].
  destruct (canUseWebCodecs rt) eqn:E; [|discriminate]. intros _.
  split; [|discriminate].
  destruct rt as [w|]; [|discriminate]. exists w. simpl in E.
  repeat (apply andb_true_iff in E; destruct E as [E ?]). now repeat split.
Qed.

Lemma webcodecs_needs_all_codecs_witness :
  (exists w, Some (mkWindow true true true true) = Some w /\
     has_VideoEncoder w = true /\ has_VideoDecoder w = true /\
     has_AudioEncoder w = true /\ has_AudioDecoder w = true) /\
  [VideoEditor.newText 1 10] ++ [] <> [].
Proof.
  apply (webcodecs_needs_all_codecs (Some (mkWindow true true true true))
           [VideoEditor.newText 1 10] []).
  reflexivity.
Defined.

(** Once a text or a drawing has been added, the router never answers
    'ffmpeg': it answers by the codecs alone. *)
Theorem added_layer_leaves_graph_path (rt : Runtime) (now : Z)
    (dataUrl : string) (x y currentTime videoDuration : Q)
    (textLayers drawingLayers : list Layer) :
  getExportMethod rt
    (VideoEditor.handleAddText now videoDuration textLayers) drawingLayers =
    (if canUseWebCodecs rt then webcodecs else unsupported) /\
  getExportMethod rt
    (VideoEditor.handleSaveDrawing now dataUrl x y currentTime videoDuration
       textLayers) drawingLayers =
    (if canUseWebCodecs rt then webcodecs else unsupported).
Proof.
  unfold getExportMethod, VideoEditor.handleAddText,
    VideoEditor.handleSaveDrawing.
  rewrite !needsWebCodecs_app.
  split; now destruct textLayers.
Qed.

(** The message of an unsupported browser asks for an update exactly when
    there is a window and the user agent names Chrome and not Edge; a user
    agent that names Edge is told to use Chrome, Edge or Arc. *)
Theorem getUnsupportedMessage_cases (rt : Runtime) (userAgent : string) :
  (getUnsupportedMessage rt userAgent =
     "Please update your browser to use text and drawing overlays." <->
   rt <> None /\ includes userAgent "Chrome" = true /\
   includes userAgent "Edg" = false) /\
  (includes userAgent "Edg" = true ->
   getUnsupportedMessage rt userAgent =
     "Text and drawing overlays require Chrome, Edge, or Arc. Trim-only export is available.").
Proof.
  unfold getUnsupportedMessage, isChromium. split.
  - destruct rt as [w|].
    + destruct (includes userAgent "Chrome"), (includes userAgent "Edg");
        simpl; split; try discriminate; try (intros (_ & ? & ?); discriminate).
      * intros _. repeat split. discriminate.
      * reflexivity.
    + split; [discriminate|]. now intros [H _].
  - intros E. rewrite E. destruct rt; [|reflexivity].
    now rewrite andb_false_r.
Qed.

End ExportRouterMoreFacts.

(** ** Editing on the timeline *)

Section TimelineEditFacts.

Import TimelineEdit.

Lemma less_iff a b : less a b = true <-> a < b.
Proof. unfold less. rewrite negb_true_iff. apply Qle_bool_false_iff. Qed.








(** A resize that is accepted moves one end only, leaves the layer longer
    than half a second, and keeps it within the video. *)
Theorem resize_keeps_within (videoDuration newTime : Q) (layer : Layer)
    (resizeEdge : Edge) (timing : Timing) :
  within videoDuration layer ->
  resize resizeEdge layer newTime videoDuration = Some timing ->
  within videoDuration (VideoEditor.with_timing timing layer) /\
  5 # 10 < tm_end timing - tm_start timing /\
  match resizeEdge with
  | edge_start =>
      tm_start timing = newTime /\ tm_end timing = tm_end (l_timing layer)
  | edge_end =>
      tm_end timing = newTime /\ tm_start timing = tm_start (l_timing layer)
  end.
Proof.
  intros (H0 & H1 & H2). unfold resize, within.
  destruct resizeEdge.
  - destruct (less newTime (tm_end (l_timing layer) - (5 # 10))) eqn:E1;
      [|discriminate].
    destruct (Qle_bool 0 newTime) eqn:E2; [|discriminate].
    intros [= <-]. apply less_iff in E1. apply Qle_bool_iff in E2. simpl.
    repeat split; lra.
  - destruct (less (tm_start (l_timing layer) + (5 # 10)) newTime) eqn:E1;
      [|discriminate].
    destruct (Qle_bool newTime videoDuration) eqn:E2; [|discriminate].
    intros [= <-]. apply less_iff in E1. apply Qle_bool_iff in E2. simpl.
    repeat split; lra.
Qed.

Lemma resize_keeps_within_witness :
  let layer :=
    VideoEditor.with_timing (mkTiming 2 5) (VideoEditor.newText 1 10) in
  let timing := mkTiming 2 8 in
  within 10 (VideoEditor.with_timing timing layer) /\
  5 # 10 < tm_end timing - tm_start timing /\
  tm_end timing = 8 /\ tm_start timing = tm_start (l_timing layer).
Proof.
  intros layer timing.
  apply (resize_keeps_within 10 8 layer edge_end timing).
  - unfold within, Qlt, Qle; simpl; lia.
  - reflexivity.
Defined.





End TimelineEditFacts.

(** ** Timeline layout: for every list of layers *)

Section TimelineLayoutFacts.

Import Timeline.

Lemma forEach_body_perm rows layer :
  Permutation (concat (forEach_body rows layer)) (concat rows ++ [layer]) /\
  (Forall (fun row => row <> []) rows ->
   Forall (fun row => row <> []) (forEach_body rows layer)).
Proof.
  unfold forEach_body. destruct (place layer rows) as [rows'|] eqn:E.
  - apply place_Some in E.
    destruct E as (r1 & row & x & r2 & -> & _ & _ & ->).
    split; [apply concat_pushed|].
    intros H. apply Forall_app in H. destruct H as [H1 H2].
    apply List.Forall_cons_iff in H2. destruct H2 as [_ H2].
    apply Forall_app. split; [exact H1|].
    constructor; [now destruct row | exact H2].
  - split.
    + rewrite concat_app. simpl. reflexivity.
    + intros H. apply Forall_app. split; [exact H|]. now repeat constructor.
Qed.

Lemma fold_forEach_perm rest : forall rows,
  Permutation (concat (fold_left forEach_body rest rows)) (concat rows ++ rest) /\
  (Forall (fun row => row <> []) rows ->
   Forall (fun row => row <> []) (fold_left forEach_body rest rows)).
Proof.
  induction rest as [|layer rest IH]; intros rows; simpl.
  - rewrite app_nil_r. now split.
  - destruct (IH (forEach_body rows layer)) as [Hp Hn].
    destruct (forEach_body_perm rows layer) as [Hp1 Hn1].
    split.
    + rewrite Hp, Hp1, <- app_assoc. reflexivity.
    + intros H. now apply Hn, Hn1.
Qed.

Lemma length_concat_ge (rows : list (list Layer)) :
  Forall (fun row => row <> []) rows ->
  (length rows <= length (concat rows))%nat.
Proof.
  induction 1 as [|row rows Hr _ IH]; simpl; [lia|].
  rewrite length_app. destruct row; [congruence|]. simpl. lia.
Qed.

Lemma layerRowMap_from_values rows : forall index m k i,
  layerRowMap_from index rows m !! k = Some i ->
  m !! k = Some i \/ (index <= i < index + length rows)%nat.
Proof.
  induction rows as [|row rows IH]; intros index m k i H; simpl in *;
    [now left|].
  apply IH in H. destruct H as [H | H]; [|right; lia].
  rewrite fold_set_row_lookup in H.
  destruct (existsb _ row); [|now left].
  injection H as <-. right. lia.
Qed.

Lemma layerRowMap_from_present rows : forall index m k,
  existsb (fun layer => String.eqb (toKey (l_id layer)) k) (concat rows) = true ->
  exists j row,
    layerRowMap_from index rows m !! k = Some (index + j)%nat /\
    rows !! j = Some row /\
    existsb (fun layer => String.eqb (toKey (l_id layer)) k) row = true.
Proof.
  induction rows as [|row rows IH]; intros index m k H; simpl in *;
    [discriminate|].
  rewrite existsb_app in H.
  destruct (existsb (fun layer => String.eqb (toKey (l_id layer)) k)
              (concat rows)) eqn:E.
  - destruct (IH (S index) (fold_left (set_row index) row m) k E)
      as (j & row' & H1 & H2 & H3).
    exists (S j), row'. split; [|now split].
    rewrite H1. f_equal. lia.
  - rewrite orb_false_r in H. exists 0%nat, row.
    split; [|now split].
    rewrite layerRowMap_from_absent.
    + rewrite fold_set_row_lookup, H. f_equal. lia.
    + apply List.Forall_forall. intros layer Hin Heq.
      assert (Ht : existsb (fun layer => String.eqb (toKey (l_id layer)) k)
                     (concat rows) = true).
      { apply existsb_exists. exists layer. split; [exact Hin|].
        now apply String.eqb_eq. }
      congruence.
Qed.

(** Whatever the timings are, [getLayerRows] loses no layer and repeats
    none: the rows hold the layers of the list, each once, and no row is
    empty, so that there are at most as many rows as layers; the id of every
    layer is mapped to the index of an existing row in which a layer has
    that id. *)
Theorem getLayerRows_places_every_layer (textLayers : list Layer) :
  Permutation (concat (rows_of textLayers)) textLayers /\
  Forall (fun row => row <> []) (rows_of textLayers) /\
  (totalRows (getLayerRows textLayers) <= length textLayers)%nat /\
  (forall layer, In layer textLayers ->
     exists index row,
       layerRowMap (getLayerRows textLayers) !! toKey (l_id layer) =
         Some index /\
       rows_of textLayers !! index = Some row /\
       (index < totalRows (getLayerRows textLayers))%nat /\
       exists l', In l' row /\ toKey (l_id l') = toKey (l_id layer)).
Proof.
  destruct (fold_forEach_perm (sort textLayers) []) as [Hp Hn].
  assert (Hperm : Permutation (concat (rows_of textLayers)) textLayers).
  { unfold rows_of. rewrite Hp. simpl. apply sort_perm. }
  assert (Hne : Forall (fun row => row <> []) (rows_of textLayers)).
  { apply Hn. constructor. }
  split; [exact Hperm|]. split; [exact Hne|]. split.
  - simpl. rewrite <- (Permutation_length Hperm).
    now apply length_concat_ge.
  - intros layer Hin.
    destruct (layerRowMap_from_present (rows_of textLayers) 0 ∅
                (toKey (l_id layer))) as (j & row & H1 & H2 & H3).
    { apply existsb_exists. exists layer. split.
      - apply (Permutation_in _ (Permutation_sym Hperm) Hin).
      - apply String.eqb_refl. }
    exists j, row. simpl in *. split; [exact H1|]. split; [exact H2|].
    split; [now apply lookup_lt_Some in H2|].
    apply existsb_exists in H3. destruct H3 as (l' & Hl' & Heq).
    exists l'. split; [exact Hl'|]. now apply String.eqb_eq.
Qed.

(** The bar of a layer fits in the height of the content: its top is not
    negative and its bottom is at most [totalContentHeight], for a layer of
    the list and for any other layer. *)
Theorem bars_fit_in_content (textLayers : list Layer) (layer : Layer) :
  0 <= bar_top (layerRowMap (getLayerRows textLayers)) layer /\
  bar_top (layerRowMap (getLayerRows textLayers)) layer + rowHeight <=
    totalContentHeight (totalRows (getLayerRows textLayers)).
Proof.
  unfold bar_top, totalContentHeight, rowIndex, rowHeight, gap.
  set (n := totalRows (getLayerRows textLayers)).
  destruct (layerRowMap (getLayerRows textLayers) !! toKey (l_id layer))
    as [index|] eqn:E.
  - simpl in E. apply layerRowMap_from_values in E.
    destruct E as [E | E]; [now rewrite lookup_empty in E|].
    assert (Hi : (Z.of_nat index + 1 <= Z.of_nat n)%Z) by (unfold n; simpl; lia).
    assert (H0 : (0 <= Z.of_nat index)%Z) by lia.
    rewrite Zle_Qle in Hi, H0. rewrite inject_Z_plus in Hi.
    change (inject_Z 1) with 1 in Hi. change (inject_Z 0) with 0 in H0.
    split; [nra|].
    apply Qle_trans with (inject_Z (Z.of_nat n) * (30 + 4));
      [nra | apply Math_max_ge_r].
  - change (inject_Z (Z.of_nat 0)) with 0. split; [lra|].
    apply Qle_trans with 30; [lra | apply Math_max_ge_l].
Qed.

End TimelineLayoutFacts.

(** ** Frame compositing: what a frame is made of *)

Section FrameFacts.

Import Canvas Compositor.

(** [drawOverlay] paints one thing and gives the context back as it found
    it: the [save] at its start is matched by the [restore] at its end, so
    that no translation, rotation, scale, font or colour of an overlay
    reaches the next one.  An image layer with a source is painted as an
    image, any other layer as its text. *)
Lemma drawOverlay_paints_one (B : Browser)
    (this : Exporter.MediaRecorderExporter) (ctx : Ctx) (overlay : Layer)
    (canvasWidth canvasHeight : Q) (ctx' : Ctx) :
  drawOverlay B this ctx overlay canvasWidth canvasHeight = Some ctx' ->
  state ctx' = state ctx /\ saved ctx' = saved ctx /\
  exists op, painted ctx' = painted ctx ++ [op] /\
    match op with
    | DrawImage _ _ _ _ _ _ => is_image overlay && has_src overlay = true
    | FillText text _ _ _ =>
        is_image overlay && has_src overlay = false /\ text = l_text overlay
    | _ => False
    end.
Proof.
  unfold drawOverlay. destruct (scaleFactors this canvasWidth canvasHeight).
  destruct (is_image overlay && has_src overlay).
  - destruct (match l_cachedImage overlay with
              | Some img => Some img
              | None => match l_src overlay with
                        | Some src => loadImage B src
                        | None => None
                        end
              end) as [img|]; [|discriminate].
    intros [= <-].
    split; [reflexivity|]. split; [reflexivity|].
    eexists. split; reflexivity.
  - intros [= <-].
    split; [reflexivity|]. split; [reflexivity|].
    eexists. split; [reflexivity|]. split; reflexivity.
Qed.

Lemma drawOverlays_paint B this overlays : forall ctx cw ch ctx',
  drawOverlays B this ctx overlays cw ch = Some ctx' ->
  state ctx' = state ctx /\ saved ctx' = saved ctx /\
  exists ops, painted ctx' = painted ctx ++ ops /\
    Forall2 (fun op overlay =>
      match op with
      | DrawImage _ _ _ _ _ _ => is_image overlay && has_src overlay = true
      | FillText text _ _ _ =>
          is_image overlay && has_src overlay = false /\
          text = l_text overlay
      | _ => False
      end) ops overlays.
Proof.
  induction overlays as [|overlay overlays IH]; intros ctx cw ch ctx'; simpl.
  - intros [= <-]. repeat split. exists []. split; [now rewrite app_nil_r|].
    constructor.
  - destruct (drawOverlay B this ctx overlay cw ch) as [ctx1|] eqn:E;
      [|discriminate].
    intros H. apply IH in H. destruct H as (H1 & H2 & ops & H3 & H4).
    apply drawOverlay_paints_one in E.
    destruct E as (E1 & E2 & op & E3 & E4).
    split; [congruence|]. split; [congruence|].
    exists (op :: ops). split.
    + rewrite H3, E3, <- app_assoc. reflexivity.
    + now constructor.
Qed.

(** A frame of the streaming export is the cleared canvas, the video frame
    over the whole canvas, then one painting for each active overlay in the
    order of the list of overlays, the later the higher; the context is
    left as it was found. *)
Theorem renderFrame_paints_in_order (B : Browser)
    (this : Exporter.MediaRecorderExporter) (ctx : Ctx)
    (video_currentTime canvasWidth canvasHeight : Q) (ctx' : Ctx) :
  renderFrame B this ctx video_currentTime canvasWidth canvasHeight =
    Some ctx' ->
  state ctx' = state ctx /\ saved ctx' = saved ctx /\
  exists ops,
    painted ctx' =
      painted ctx ++
      ClearRect 0 0 canvasWidth canvasHeight ::
      DrawVideo (ctm (state ctx)) 0 0 canvasWidth canvasHeight :: ops /\
    Forall2 (fun op overlay =>
      match op with
      | DrawImage _ _ _ _ _ _ => is_image overlay && has_src overlay = true
      | FillText text _ _ _ =>
          is_image overlay && has_src overlay = false /\
          text = l_text overlay
      | _ => False
      end) ops
      (Active.activeOverlays (Exporter.overlays this) video_currentTime
         (Exporter.startTime this)).
Proof.
  unfold renderFrame. intros H. apply drawOverlays_paint in H.
  destruct H as (H1 & H2 & ops & H3 & H4).
  split; [exact H1|]. split; [exact H2|]. exists ops. split; [|exact H4].
  rewrite H3. unfold drawVideo, clearRect, paint. cbn [state saved painted].
  rewrite <- !app_assoc. reflexivity.
Qed.

Lemma renderFrame_paints_in_order_witness :
  let B := Examples.browser 192 40 20 in
  let this :=
    Examples.exporter [Examples.drawing 50 50; Examples.caption] 0 400 225 in
  exists ctx',
    renderFrame B this initial 1 1920 1080 = Some ctx' /\
    state ctx' = state initial /\ saved ctx' = saved initial /\
    exists ops,
      painted ctx' =
        painted initial ++
        ClearRect 0 0 1920 1080 ::
        DrawVideo (ctm (state initial)) 0 0 1920 1080 :: ops /\
      Forall2 (fun op overlay =>
        match op with
        | DrawImage _ _ _ _ _ _ => is_image overlay && has_src overlay = true
        | FillText text _ _ _ =>
            is_image overlay && has_src overlay = false /\
            text = l_text overlay
        | _ => False
        end) ops
        (Active.activeOverlays (Exporter.overlays this) 1
           (Exporter.startTime this)).
Proof.
  intros B this. eexists. split; [vm_compute; reflexivity|].
  apply (renderFrame_paints_in_order B this initial 1 1920 1080).
  vm_compute. reflexivity.
Defined.

Lemma drawImageOverlay_is_balanced B c overlay image sX sY :
  state (drawImageOverlay B c overlay image sX sY) = state c /\
  saved (drawImageOverlay B c overlay image sX sY) = saved c /\
  exists m dx dy dw dh,
    painted (drawImageOverlay B c overlay image sX sY) =
    painted c ++ [DrawImage image m dx dy dw dh].
Proof.
  split; [reflexivity|]. split; [reflexivity|].
  do 5 eexists. reflexivity.
Qed.

Lemma drawTextOverlay_is_balanced B c overlay sX sY :
  state (drawTextOverlay B c overlay sX sY) = state c /\
  saved (drawTextOverlay B c overlay sX sY) = saved c /\
  exists s x y,
    painted (drawTextOverlay B c overlay sX sY) =
    painted c ++ [FillText (l_text overlay) s x y].
Proof.
  split; [reflexivity|]. split; [reflexivity|].
  do 3 eexists. reflexivity.
Qed.

Lemma composeOverlays_paint B sX sY active : forall c,
  state (composeOverlays B c active sX sY) = state c /\
  saved (composeOverlays B c active sX sY) = saved c /\
  exists ops,
    painted (composeOverlays B c active sX sY) = painted c ++ ops /\
    Forall2 (fun op overlay =>
      match op with
      | DrawImage image _ _ _ _ _ =>
          is_image overlay = true /\ l_cachedImage overlay = Some image
      | FillText text _ _ _ =>
          (is_image overlay = false \/ l_cachedImage overlay = None) /\
          text = l_text overlay
      | _ => False
      end) ops active.
Proof.
  induction active as [|overlay active IH]; intros c; simpl.
  - repeat split. exists []. split; [now rewrite app_nil_r | constructor].
  - match goal with
    | |- context [composeOverlays B ?c1 active sX sY] =>
        destruct (IH c1) as (H1 & H2 & ops & H3 & H4)
    end.
    rewrite H1, H2, H3.
    destruct (is_image overlay) eqn:Ei;
      [destruct (l_cachedImage overlay) as [image|] eqn:Ec|].
    + destruct (drawImageOverlay_is_balanced B c overlay image sX sY)
        as (E1 & E2 & m & dx & dy & dw & dh & E3).
      rewrite E1, E2, E3. split; [reflexivity|]. split; [reflexivity|].
      eexists (_ :: ops). split; [now rewrite <- app_assoc|].
      constructor; [now split | exact H4].
    + destruct (drawTextOverlay_is_balanced B c overlay sX sY)
        as (E1 & E2 & s & x & y & E3).
      rewrite E1, E2, E3. split; [reflexivity|]. split; [reflexivity|].
      eexists (_ :: ops). split; [now rewrite <- app_assoc|].
      constructor; [split; [now right | reflexivity] | exact H4].
    + destruct (drawTextOverlay_is_balanced B c overlay sX sY)
        as (E1 & E2 & s & x & y & E3).
      rewrite E1, E2, E3. split; [reflexivity|]. split; [reflexivity|].
      eexists (_ :: ops). split; [now rewrite <- app_assoc|].
      constructor; [split; [now left | reflexivity] | exact H4].
Qed.

(** A frame of the compositor module is made the same way; there an image
    overlay is painted as an image only when its image has been loaded
    before, and otherwise as its text, the label of the drawing. *)
Theorem compose_paints_in_order (B : Browser) (ctx : Ctx)
    (overlays : list Layer)
    (width height currentTime startTime scaleX scaleY : Q) :
  let ctx' :=
    compose B ctx overlays width height currentTime startTime scaleX scaleY in
  state ctx' = state ctx /\ saved ctx' = saved ctx /\
  exists ops,
    painted ctx' =
      painted ctx ++
      ClearRect 0 0 width height ::
      DrawVideo (ctm (state ctx)) 0 0 width height :: ops /\
    Forall2 (fun op overlay =>
      match op with
      | DrawImage image _ _ _ _ _ =>
          is_image overlay = true /\ l_cachedImage overlay = Some image
      | FillText text _ _ _ =>
          (is_image overlay = false \/ l_cachedImage overlay = None) /\
          text = l_text overlay
      | _ => False
      end) ops (Active.getActiveOverlays overlays currentTime startTime).
Proof.
  cbv zeta. unfold compose.
  set (ctx0 := drawVideo 0 0 width height (clearRect 0 0 width height ctx)).
  destruct (composeOverlays_paint B scaleX scaleY
              (Active.getActiveOverlays overlays currentTime startTime) ctx0)
    as (H1 & H2 & ops & H3 & H4).
  split; [exact H1|]. split; [exact H2|]. exists ops. split; [|exact H4].
  rewrite H3. unfold ctx0, drawVideo, clearRect, paint.
  cbn [state saved painted]. rewrite <- !app_assoc. reflexivity.
Qed.

End FrameFacts.

(** ** Frame compositing: where a text goes *)

Section TextPlacementFacts.

Import Canvas Compositor.

(** [MediaRecorderExporter.drawOverlay] on a text that is not rotated, on a
    canvas that is not transformed: the font size is the layer's times the
    mean of the two scale factors, at least 1; the text is centred on the
    centre of a box at [(x * scaleX, y * scaleY)] that is the text wide and
    the font size high, with a padding of 4 times the mean scale on every
    side; the glyphs are the font size times the layer's own scale. *)
Theorem drawOverlay_text_placement (B : Browser)
    (this : Exporter.MediaRecorderExporter) (overlay : Layer)
    (canvasWidth canvasHeight : Q) :
  is_image overlay && has_src overlay = false ->
  or_num (tf_rotate (l_transform overlay)) 0 == 0 ->
  let sX := fst (scaleFactors this canvasWidth canvasHeight) in
  let sY := snd (scaleFactors this canvasWidth canvasHeight) in
  let avgScale := (sX + sY) / 2 in
  let baseScale :=
    match tf_scale (l_transform overlay) with Some s => s | None => (1, 1) end in
  let scaledFontSize :=
    Math_max 1 (or_num (st_fontSize (l_style overlay)) 40 * avgScale) in
  let f :=
    mkFont (or_str (st_fontWeight (l_style overlay)) "600") scaledFontSize
      (or_str (st_fontFamily (l_style overlay)) "Arial") in
  let elementWidth := measureText B f (l_text overlay) + 4 * avgScale * 2 in
  let elementHeight := scaledFontSize + 4 * avgScale * 2 in
  exists op anchor size,
    Paths.streaming_paints B this overlay canvasWidth canvasHeight = Some op /\
    textAnchor op = Some anchor /\ textPixelSize op = Some size /\
    fst anchor == tf_x (l_transform overlay) * sX + elementWidth / 2 /\
    snd anchor == tf_y (l_transform overlay) * sY + elementHeight / 2 /\
    fst size == fst baseScale * scaledFontSize /\
    snd size == snd baseScale * scaledFontSize /\
    1 <= scaledFontSize.
Proof.
  intros Ht Hr. cbv zeta. unfold Paths.streaming_paints, drawOverlay.
  destruct (scaleFactors this canvasWidth canvasHeight) as [sX sY].
  rewrite Ht. cbn [fst snd].
  rewrite rotate_zero by (apply rotation_zero, Hr).
  do 3 eexists. split; [reflexivity|]. split; [reflexivity|].
  split; [reflexivity|].
  lazy [fst snd apply multiply identity m_a m_b m_c m_d m_e m_f ctm font
        f_size state saved painted restore fillText paint set_textBaseline
        set_textAlign set_fillStyle set_font Canvas.scale translate with_ctm
        with_state save initial].
  repeat split; try ring. apply Math_max_ge_l.
Qed.

Lemma drawOverlay_text_placement_witness :
  let B := Examples.browser 192 40 20 in
  let this := Examples.exporter [] 0 400 225 in
  exists op anchor size,
    Paths.streaming_paints B this Examples.caption 400 225 = Some op /\
    textAnchor op = Some anchor /\ textPixelSize op = Some size /\
    fst anchor == 200 /\ snd anchor == 124 /\
    fst size == 40 /\ snd size == 40.
Proof.
  intros B this.
  destruct (drawOverlay_text_placement B this Examples.caption 400 225)
    as (op & anchor & size & H1 & H2 & H3 & H4 & H5 & H6 & H7 & _);
    [reflexivity | reflexivity |].
  exists op, anchor, size. repeat (split; [assumption|]).
  split; [rewrite H4; reflexivity|]. split; [rewrite H5; reflexivity|].
  split; [rewrite H6; reflexivity | rewrite H7; reflexivity].
Defined.

(** [drawTextOverlay] of the compositor module on a text that is not
    rotated, on a canvas that is not transformed: the text is anchored at
    [(x * scaleX, y * scaleY)] itself, and the glyphs are the font size of
    the layer stretched by [(sx * scaleX, sy * scaleY)]. *)
Theorem drawTextOverlay_placement (B : Browser) (overlay : Layer)
    (scaleX scaleY : Q) :
  or_num (tf_rotate (l_transform overlay)) 0 == 0 ->
  let scale_ :=
    match tf_scale (l_transform overlay) with Some s => s | None => (1, 1) end in
  let fontSize := or_num (st_fontSize (l_style overlay)) 40 in
  exists op anchor size,
    last (painted (drawTextOverlay B initial overlay scaleX scaleY)) = Some op /\
    textAnchor op = Some anchor /\ textPixelSize op = Some size /\
    fst anchor == tf_x (l_transform overlay) * scaleX /\
    snd anchor == tf_y (l_transform overlay) * scaleY /\
    fst size == fst scale_ * scaleX * fontSize /\
    snd size == snd scale_ * scaleY * fontSize.
Proof.
  intros Hr. cbv zeta. unfold drawTextOverlay.
  rewrite rotate_zero by (apply rotation_zero, Hr).
  do 3 eexists. split; [reflexivity|]. split; [reflexivity|].
  split; [reflexivity|].
  lazy [fst snd apply multiply identity m_a m_b m_c m_d m_e m_f ctm font
        f_size state saved painted restore fillText paint set_textBaseline
        set_textAlign set_fillStyle set_font Canvas.scale translate with_ctm
        with_state save initial].
  repeat split; ring.
Qed.

Lemma drawTextOverlay_placement_witness :
  let B := Examples.browser 192 40 20 in
  exists op anchor size,
    last (painted (drawTextOverlay B initial Examples.caption 1 1)) = Some op /\
    textAnchor op = Some anchor /\ textPixelSize op = Some size /\
    fst anchor == 100 /\ snd anchor == 100 /\
    fst size == 40 /\ snd size == 40.
Proof.
  intros B.
  destruct (drawTextOverlay_placement B Examples.caption 1 1)
    as (op & anchor & size & H1 & H2 & H3 & H4 & H5 & H6 & H7);
    [reflexivity|].
  exists op, anchor, size. repeat split; assumption.
Defined.

Lemma drawImageOverlay_centres_the_image_witness :
  let B := Examples.browser 192 40 20 in
  let layer := Examples.drawing 50 50 in
  let image := mkImage "drawing.png" 40 20 in
  exists op b,
    last (painted
            (drawImageOverlay B initial layer image (1920 / 400) (1080 / 225))) =
      Some op /\
    Paths.painted_box op = Some b /\
    Graph.box_eq b
      (Graph.mkBox
         (tf_x (l_transform layer) * (1920 / 400) -
          inject_Z (img_width image) * (1920 / 400) / 2)
         (tf_y (l_transform layer) * (1080 / 225) -
          inject_Z (img_height image) * (1080 / 225) / 2)
         (inject_Z (img_width image) * (1920 / 400))
         (inject_Z (img_height image) * (1080 / 225))).
Proof.
  intros B layer image.
  apply (drawImageOverlay_centres_the_image B initial layer image
           (1920 / 400) (1080 / 225)); reflexivity.
Defined.

End TextPlacementFacts.

(** ** Streaming exporter: the course of a recording *)

Section RecordingCourseFacts.

Import Exporter.

(** The two end tests of [renderFrame] decide alike when the duration of
    the export is the one [export()] computes from the duration of the same
    video: a frame is past the end exactly when the playback time has
    reached [endTime], or the end of the video when there is no
    [endTime]. *)
Theorem reached_end_iff (this : MediaRecorderExporter) (videoInfo : VideoInfo)
    (currentTime : Q) :
  let finish := or_num (endTime this) (vi_duration videoInfo) in
  Qle_bool (exportDuration this videoInfo) (currentTime - startTime this) =
    Qle_bool finish currentTime /\
  (reached_end this (exportDuration this videoInfo) (vi_duration videoInfo)
     currentTime = true <-> finish <= currentTime).
Proof.
  cbv zeta. unfold reached_end, exportDuration.
  set (finish := or_num (endTime this) (vi_duration videoInfo)).
  assert (E : Qle_bool (finish - startTime this) (currentTime - startTime this) =
              Qle_bool finish currentTime).
  { destruct (Qle_bool finish currentTime) eqn:E1.
    - apply Qle_bool_iff in E1. apply Qle_bool_iff. lra.
    - apply Qle_bool_false_iff in E1. apply Qle_bool_false_iff. lra. }
  split; [exact E|]. rewrite E, orb_diag. apply Qle_bool_iff.
Qed.

(** While frames are painted the progress handed to [onProgress] stays
    between 0 and 0.99: it never says that the export is done. *)
Theorem progress_is_below_one (this : MediaRecorderExporter)
    (exportDuration currentTime : Q) :
  0 < exportDuration -> startTime this <= currentTime ->
  0 <= progress this exportDuration currentTime /\
  progress this exportDuration currentTime <= 99 # 100 /\
  progress this exportDuration currentTime < 1.
Proof.
  intros Hd Ht. unfold progress.
  set (r := (currentTime - startTime this) / exportDuration).
  assert (Hr : 0 <= r).
  { unfold r. apply Qle_shift_div_l; [exact Hd | lra]. }
  pose proof (Math_min_le_r r (99 # 100)) as H1.
  split; [apply Math_min_glb; lra|]. split; [exact H1|]. lra.
Qed.

Lemma progress_is_below_one_witness :
  let this := constructor (mkOptions (Some 2) (Some 7) None None None) in
  0 <= progress this 5 10 /\ progress this 5 10 <= 99 # 100 /\
  progress this 5 10 < 1.
Proof.
  intros this. apply (progress_is_below_one this 5 10).
  - reflexivity.
  - unfold Qle. simpl. lia.
Defined.

Lemma find_first {A} (f : A -> bool) (l : list A) :
  match List.find f l with
  | Some x =>
      f x = true /\
      exists before after,
        l = before ++ x :: after /\ Forall (fun y => f y = false) before
  | None => Forall (fun y => f y = false) l
  end.
Proof.
  induction l as [|a l IH]; simpl; [constructor|].
  destruct (f a) eqn:E.
  - split; [exact E|]. exists [], l. split; [reflexivity | constructor].
  - destruct (List.find f l) as [x|].
    + destruct IH as (Hx & before & after & -> & Hb).
      split; [exact Hx|]. exists (a :: before), after.
      split; [reflexivity | now constructor].
    + now constructor.
Qed.

(** [getSupportedMimeType] answers the first candidate that the recorder
    supports, and throws only when it supports none; a recorder that
    supports some MP4 candidate gets an MP4 type, never a WebM one. *)
Theorem getSupportedMimeType_first_supported (isTypeSupported : string -> bool) :
  match getSupportedMimeType isTypeSupported with
  | Some type =>
      isTypeSupported type = true /\
      exists before after,
        types = before ++ type :: after /\
        Forall (fun t => isTypeSupported t = false) before
  | None => Forall (fun t => isTypeSupported t = false) types
  end /\
  ((exists t, In t types /\ includes t "mp4" = true /\
              isTypeSupported t = true) ->
   exists type, getSupportedMimeType isTypeSupported = Some type /\
                includes type "mp4" = true).
Proof.
  split; [apply find_first|].
  intros (t & Hin & Hmp4 & Hs).
  unfold getSupportedMimeType, types in *. simpl.
  destruct (isTypeSupported (codecs "video/mp4" "avc1.42E01E,mp4a.40.2")) eqn:E1;
    [eexists; split; [reflexivity | reflexivity]|].
  destruct (isTypeSupported (codecs "video/mp4" "avc1.640029,mp4a.40.2")) eqn:E2;
    [eexists; split; [reflexivity | reflexivity]|].
  destruct (isTypeSupported (codecs "video/mp4" "avc1.42E01E")) eqn:E3;
    [eexists; split; [reflexivity | reflexivity]|].
  destruct (isTypeSupported (codecs "video/mp4" "avc1.640029")) eqn:E4;
    [eexists; split; [reflexivity | reflexivity]|].
  destruct (isTypeSupported "video/mp4") eqn:E5;
    [eexists; split; [reflexivity | reflexivity]|].
  exfalso. simpl in Hin.
  destruct Hin as [<- | [<- | [<- | [<- | [<- | Hin]]]]]; try congruence.
  destruct Hin as [<- | [<- | [<- | [<- | [<- | []]]]]];
    vm_compute in Hmp4; discriminate Hmp4.
Qed.

Lemma recordedChunks_fold events : forall this,
  recordedChunks (fold_left (fun e ev => ondataavailable ev e) events this) =
  recordedChunks this ++ data_of events.
Proof.
  induction events as [|ev events IH]; intros this; simpl.
  - now rewrite app_nil_r.
  - rewrite IH. destruct ev as [data|]; simpl; [|reflexivity].
    destruct (0 <? blob_size data)%N; simpl; [|reflexivity].
    now rewrite <- app_assoc.
Qed.

(** The candidates of [getSupportedMimeType] are printable; the test of
    [onstop] on the type of the blob adds nothing to the test on the type of
    the recorder, and a candidate that names MP4 still does so in
    lowercase. *)
Lemma types_mp4 (type : string) :
  In type types ->
  printable type = true /\
  includes (lowercase type) "mp4" = includes type "mp4".
Proof.
  unfold types. simpl.
  intros [<- | [<- | [<- | [<- | [<- | [<- | [<- | [<- | [<- | [<- | []]]]]]]]]]];
    split; reflexivity.
Qed.

(** An export that completes hands over, whatever the type the recorder
    used, a blob whose type names MP4: the recorder's type in lowercase, as
    [Blob] keeps it, when that names MP4, and 'video/mp4' otherwise, wrapped
    around the same bytes; its size is the sum of the sizes of the chunks
    that carried data. *)
Theorem export_complete_output (run : Run) (this : MediaRecorderExporter)
    (output : Blob) :
  export run this = Resolved output ->
  exists mimeType,
    getSupportedMimeType (run_isTypeSupported run) = Some mimeType /\
    includes (blob_type output) "mp4" = true /\
    blob_type output =
      (if includes mimeType "mp4" then lowercase mimeType else "video/mp4") /\
    blob_size output =
      fold_right N.add 0%N (List.map blob_size (data_of (run_events run))).
Proof.
  intros E. apply export_resolved, processVideoFrames_resolved in E.
  destruct E as (mimeType & Em & E). exists mimeType.
  split; [exact Em|].
  assert (Hin : In mimeType types).
  { unfold getSupportedMimeType in Em. now apply List.find_some in Em. }
  destruct (types_mp4 mimeType Hin) as [Hp Hl].
  revert E. unfold onstop. rewrite recordedChunks_fold. simpl.
  destruct (data_of (run_events run)) as [|chunk chunks]; simpl;
    [discriminate|].
  rewrite Hp, Hl, orb_diag.
  destruct (includes mimeType "mp4") eqn:Ei; intros [= <-]; simpl.
  - rewrite Hp, Hl. now repeat split.
  - repeat split. lia.
Qed.

Lemma export_complete_output_witness :
  let this := constructor (mkOptions None None None None None) in
  let run :=
    {| run_getVideoInfo := Resolved (mkVideoInfo 1920 1080 10 30);
       run_loadedmetadata := Resolved tt;
       run_captureStream := None;
       run_isTypeSupported :=
         String.eqb (codecs "video/mp4" "avc1.42E01E");
       run_start := None;
       run_seeked := true;
       run_play := Resolved tt;
       run_events :=
         [Some (mkBlob 3 "video/mp4"); None; Some (mkBlob 4 "video/mp4")];
       run_stop := stop_after_onstop |} in
  let output := mkBlob 7 (codecs "video/mp4" "avc1.42e01e") in
  exists mimeType,
    getSupportedMimeType (run_isTypeSupported run) = Some mimeType /\
    includes (blob_type output) "mp4" = true /\
    blob_type output =
      (if includes mimeType "mp4" then lowercase mimeType else "video/mp4") /\
    blob_size output =
      fold_right N.add 0%N (List.map blob_size (data_of (run_events run))).
Proof.
  intros this run output.
  apply (export_complete_output run this output).
  reflexivity.
Defined.

(** The scale factors of an exporter built from options are the ratios of
    the canvas to the display size when both sides of the display size are
    given and not 0, and [(1, 1)] in every other case: no ratio has a zero
    denominator. *)
Theorem scaleFactors_of_options (options : Options) (canvasWidth canvasHeight : Q) :
  let factors :=
    Compositor.scaleFactors (constructor options) canvasWidth canvasHeight in
  (forall dw dh,
     o_displayWidth options = Some dw -> o_displayHeight options = Some dh ->
     ~ dw == 0 -> ~ dh == 0 ->
     factors = (canvasWidth / dw, canvasHeight / dh)) /\
  (factors = (1, 1) \/
   exists dw dh,
     o_displayWidth options = Some dw /\ o_displayHeight options = Some dh /\
     ~ dw == 0 /\ ~ dh == 0 /\
     factors = (canvasWidth / dw, canvasHeight / dh)).
Proof.
  cbv zeta. unfold Compositor.scaleFactors, constructor. simpl.
  destruct (o_displayWidth options) as [dw|], (o_displayHeight options) as [dh|];
    simpl.
  - destruct (truthy dw) eqn:Ew, (truthy dh) eqn:Eh; simpl.
    + rewrite Ew, Eh. simpl. apply truthy_true_iff in Ew, Eh. split.
      * now intros ? ? [= <-] [= <-].
      * right. now exists dw, dh.
    + apply truthy_false_iff in Eh. split.
      * intros ? ? _ [= <-] _ H. contradiction.
      * now left.
    + apply truthy_false_iff in Ew. split.
      * intros ? ? [= <-] _ H. contradiction.
      * now left.
    + apply truthy_false_iff in Ew. split.
      * intros ? ? [= <-] _ H. contradiction.
      * now left.
  - destruct (truthy dw); simpl; split; try discriminate; now left.
  - split; [discriminate | now left].
  - split; [discriminate | now left].
Qed.

End RecordingCourseFacts.

(** ** Graph-based export: the shape of the graph *)

Section GraphShapeFacts.

Import Graph.

(** For an export of positive duration, [transcode] passes over a layer
    exactly when the layer ends no later than the trim starts or starts no
    earlier than the trim ends; an export of no duration passes over every
    layer. *)
Theorem skipped_iff_outside_trim (e : Editor) (layer : Layer) :
  (0 < duration e ->
   (skipped e layer = true <->
    tm_end (l_timing layer) <= startTime e \/
    endTime e <= tm_start (l_timing layer))) /\
  (duration e <= 0 -> skipped e layer = true).
Proof.
  unfold skipped, duration.
  set (s := tm_start (l_timing layer)). set (t := tm_end (l_timing layer)).
  set (D := endTime e - startTime e).
  pose proof (Math_max_ge_l 0 (s - startTime e)) as M1.
  pose proof (Math_max_ge_r 0 (s - startTime e)) as M2.
  pose proof (Math_min_le_l D (t - startTime e)) as N1.
  pose proof (Math_min_le_r D (t - startTime e)) as N2.
  assert (ED : D == endTime e - startTime e) by reflexivity.
  clearbody D s t.
  split.
  - intros HD. rewrite orb_true_iff, !Qle_bool_iff. split.
    + intros [H | H].
      * left. destruct (Qlt_le_dec 0 (t - startTime e)) as [Hp|Hp]; [|lra].
        exfalso. assert (0 < Math_min D (t - startTime e))
          by (apply Math_min_lt_iff; split; lra). lra.
      * right. destruct (Qlt_le_dec (s - startTime e) D) as [Hp|Hp]; [|lra].
        exfalso. assert (Math_max 0 (s - startTime e) < D).
        { unfold Math_max. destruct (Qle_bool 0 (s - startTime e)); lra. }
        lra.
    + intros [H | H]; [left; lra | right; lra].
  - intros HD. apply orb_true_iff. left. apply Qle_bool_iff. lra.
Qed.

Lemma push_filters_chain e layer scale_ fileName still scaled acc cur0 n0 :
  (scaled = img \/ scaled = txt) ->
  chain_end cur0 n0 (filterComplex acc) =
    Some (currentStream acc, inputIndex acc) ->
  chain_end cur0 n0
    (filterComplex (push_filters e layer scale_ fileName still scaled acc)) =
    Some (currentStream (push_filters e layer scale_ fileName still scaled acc),
          inputIndex (push_filters e layer scale_ fileName still scaled acc)).
Proof.
  intros Hs Hc. unfold push_filters.
  cbn [filterComplex currentStream inputIndex].
  match goal with
  | |- chain_end _ _ (_ ++ ?tl) = _ => set (pushed := tl)
  end.
  assert (Hind : forall fs,
    (forall cur n,
       chain_end cur n fs = Some (currentStream acc, inputIndex acc) ->
       chain_end cur n (fs ++ pushed) =
         Some (v (inputIndex acc), S (inputIndex acc))) /\
    (forall a cur n,
       chain_end cur n (a :: fs) = Some (currentStream acc, inputIndex acc) ->
       chain_end cur n ((a :: fs) ++ pushed) =
         Some (v (inputIndex acc), S (inputIndex acc)))).
  { induction fs as [|b fs [IH1 IH2]].
    - split.
      + intros cur n [= -> ->]. subst pushed. simpl.
        rewrite Nat.eqb_refl.
        assert (E1 : label_eqb (currentStream acc) (currentStream acc) = true)
          by (destruct (currentStream acc); simpl; try reflexivity;
              apply Nat.eqb_refl).
        rewrite E1.
        destruct Hs as [-> | ->]; simpl; rewrite !Nat.eqb_refl; simpl;
          rewrite ?orb_true_r; reflexivity.
      + intros a cur n H. simpl in H. destruct a; discriminate.
    - split; [exact (IH2 b)|].
      intros a cur n H. simpl in H. simpl.
      destruct a as [input loop size start fps w h out|]; [|discriminate].
      destruct b as [|main over x y shortest out']; [discriminate|].
      destruct (Nat.eqb input n && label_eqb main cur && label_eqb over out &&
                (label_eqb out (img n) || label_eqb out (txt n)) &&
                shortest && label_eqb out' (v n)); [|discriminate].
      now apply IH1. }
  now apply (proj1 (Hind (filterComplex acc))).
Qed.

Lemma transcode_layer_chain B e acc layer acc' cur0 n0 :
  transcode_layer B e acc layer = Some acc' ->
  chain_end cur0 n0 (filterComplex acc) =
    Some (currentStream acc, inputIndex acc) ->
  chain_end cur0 n0 (filterComplex acc') =
    Some (currentStream acc', inputIndex acc') /\
  length (inputs acc') =
    (length (inputs acc) + if skipped e layer then 0 else 1)%nat /\
  inputIndex acc' =
    (inputIndex acc + if skipped e layer then 0 else 1)%nat.
Proof.
  intros H Hc. apply transcode_layer_Some in H.
  destruct H as [[-> ->] | [-> (scale_ & fileName & still & scaled & _ & Hk & ->)]].
  - split; [exact Hc|]. split; lia.
  - split.
    + apply push_filters_chain; [|exact Hc].
      destruct Hk as [(_ & -> & _) | (_ & -> & _)]; [now left | now right].
    + unfold push_filters. simpl. rewrite length_app. simpl. split; lia.
Qed.

Lemma transcode_layers_chain B e layers : forall acc acc' cur0 n0,
  transcode_layers B e acc layers = Some acc' ->
  chain_end cur0 n0 (filterComplex acc) =
    Some (currentStream acc, inputIndex acc) ->
  chain_end cur0 n0 (filterComplex acc') =
    Some (currentStream acc', inputIndex acc') /\
  length (inputs acc') =
    (length (inputs acc) +
     length (List.filter (fun l => negb (skipped e l)) layers))%nat /\
  inputIndex acc' =
    (inputIndex acc +
     length (List.filter (fun l => negb (skipped e l)) layers))%nat.
Proof.
  induction layers as [|layer layers IH]; intros acc acc' cur0 n0; simpl.
  - intros [= <-] Hc. split; [exact Hc|]. split; lia.
  - destruct (transcode_layer B e acc layer) as [acc1|] eqn:E; [|discriminate].
    intros H Hc.
    destruct (transcode_layer_chain B e acc layer acc1 cur0 n0 E Hc)
      as (Hc1 & Hl1 & Hi1).
    destruct (IH acc1 acc' cur0 n0 H Hc1) as (Hc2 & Hl2 & Hi2).
    split; [exact Hc2|].
    destruct (skipped e layer); simpl; split; lia.
Qed.

Lemma transcode_counts (B : Browser) (e : Editor) (acc : Acc) :
  transcode B e = Some acc ->
  length (inputs acc) =
    length (List.filter (fun l => negb (skipped e l)) (textLayers e)) /\
  length (filterComplex acc) = (2 * length (inputs acc))%nat.
Proof.
  intros H.
  destruct (transcode_layers_chain B e (textLayers e) _ acc main_video 1%nat H
              eq_refl) as (_ & Hl & _).
  simpl in Hl. split; [exact Hl|].
  apply transcode_layers_loops in H. simpl in H.
  apply (f_equal (@length _)) in H. rewrite length_map in H. rewrite H, Hl.
  clear. induction (List.filter _ (textLayers e)) as [|l ls IH]; simpl; lia.
Qed.

(** The filter graph of [transcode] is one chain: read from the video
    stream [[0:v]] with the inputs numbered from 1, every still is looped
    under its own label, overlaid on the stream that the overlay before it
    made, with [shortest=1], and the last overlay makes the stream that is
    mapped to the output; there are as many inputs as layers inside the
    trim. *)
Theorem transcode_is_a_chain (B : Browser) (e : Editor) (acc : Acc) :
  transcode B e = Some acc ->
  chain_end main_video 1 (filterComplex acc) =
    Some (currentStream acc, inputIndex acc) /\
  length (inputs acc) =
    length (List.filter (fun l => negb (skipped e l)) (textLayers e)) /\
  inputIndex acc = S (length (inputs acc)) /\
  length (filterComplex acc) = (2 * length (inputs acc))%nat.
Proof.
  intros H.
  destruct (transcode_layers_chain B e (textLayers e) _ acc main_video 1%nat H
              eq_refl) as (Hc & Hl & Hi).
  simpl in Hl, Hi. split; [exact Hc|]. split; [exact Hl|]. split; [lia|].
  exact (proj2 (transcode_counts B e acc H)).
Qed.

Lemma transcode_is_a_chain_witness :
  let B := Examples.browser 192 100 100 in
  let e :=
    Examples.editor [Examples.drawing 50 50; Examples.caption] 2 7
      400 225 1920 1080 in
  exists acc,
    transcode B e = Some acc /\
    chain_end main_video 1 (filterComplex acc) = Some (v 2, 3%nat) /\
    length (inputs acc) = 2%nat.
Proof.
  intros B e.
  destruct (transcode B e) as [acc|] eqn:E; [|vm_compute in E; discriminate E].
  destruct (transcode_is_a_chain B e acc E) as (H1 & H2 & H3 & _).
  exists acc. split; [reflexivity|].
  assert (Hl : length (inputs acc) = 2%nat) by (rewrite H2; reflexivity).
  split; [|exact Hl].
  rewrite H1, H3, Hl. f_equal. f_equal.
  vm_compute in E. injection E as <-. reflexivity.
Defined.

(** The chains of a layer do not depend on its timing: of two layers inside
    the trim that differ by their timing alone, [transcode] makes the same
    still, the same loop and the same overlay, shown for the whole of the
    export. *)
Theorem chains_ignore_timing (B : Browser) (e : Editor) (acc : Acc)
    (layer : Layer) (timing : Timing) :
  skipped e layer = false ->
  skipped e (VideoEditor.with_timing timing layer) = false ->
  transcode_layer B e acc (VideoEditor.with_timing timing layer) =
  transcode_layer B e acc layer.
Proof.
  intros H1 H2. unfold transcode_layer. rewrite H1, H2. reflexivity.
Qed.

Lemma chains_ignore_timing_witness :
  let B := Examples.browser 192 100 100 in
  let e := Examples.editor [] 2 7 400 225 1920 1080 in
  let acc := mkAcc [] [] main_video 1 in
  transcode_layer B e acc
    (VideoEditor.with_timing (mkTiming 3 4) Examples.caption) =
  transcode_layer B e acc Examples.caption.
Proof.
  intros B e acc.
  apply (chains_ignore_timing B e acc Examples.caption (mkTiming 3 4));
    reflexivity.
Defined.

Lemma transcode_layer_exportable B e acc layer :
  (exists acc', transcode_layer B e acc layer = Some acc') <->
  skipped e layer = true \/ exportable B layer = true.
Proof.
  unfold transcode_layer, exportable.
  destruct (skipped e layer).
  - split; [now left | intros _; now exists acc].
  - destruct (is_image layer).
    + destruct (fetchFile B (l_src layer) && writeFile B (imgFileName layer)),
        (tf_scale (l_transform layer)) as [scale_|]; split;
        try (intros [? H]; discriminate H);
        try (intros [H | H]; discriminate H);
        try (intros _; eexists; reflexivity); try (now right).
    + destruct (writeFile B (textFileName layer)),
        (tf_scale (l_transform layer)) as [scale_|]; split;
        try (intros [? H]; discriminate H);
        try (intros [H | H]; discriminate H);
        try (intros _; eexists; reflexivity); try (now right).
Qed.

(** [transcode] hands a graph to the engine exactly when every layer is
    outside the trim or has a [transform.scale] and a file that is written,
    after it is fetched when the layer is an image layer; a text layer
    needs nothing of its style.  The text that [handleAddText] makes and
    the drawing that [handleSaveDrawing] makes always have a
    [transform.scale]. *)
Theorem transcode_returns_iff (B : Browser) (e : Editor) :
  ((exists acc, transcode B e = Some acc) <->
   Forall (fun layer => skipped e layer = true \/ exportable B layer = true)
     (textLayers e)) /\
  (forall layer,
     exportable B layer = true <->
     exists scale_, tf_scale (l_transform layer) = Some scale_ /\
       if is_image layer
       then fetchFile B (l_src layer) = true /\
            writeFile B (imgFileName layer) = true
       else writeFile B (textFileName layer) = true) /\
  (forall now videoDuration,
     exportable B (VideoEditor.newText now videoDuration) =
     writeFile B ("text_layer_" ++ pretty now ++ ".png")) /\
  (forall now dataUrl x y currentTime videoDuration,
     exportable B
       (VideoEditor.newLayer now dataUrl x y currentTime videoDuration) =
     fetchFile B (Some dataUrl) &&
     writeFile B ("layer_" ++ pretty now ++ ".png")).
Proof.
  split; [|split; [|split; reflexivity]].
  - unfold transcode. generalize (mkAcc [] [] main_video 1).
    induction (textLayers e) as [|layer layers IH]; intros acc; simpl.
    + split; [constructor | intros _; now exists acc].
    + split.
      * intros [acc' H].
        destruct (transcode_layer B e acc layer) as [acc1|] eqn:E;
          [|discriminate].
        constructor.
        -- apply (transcode_layer_exportable B e acc layer). now exists acc1.
        -- apply (IH acc1). now exists acc'.
      * intros H. apply List.Forall_cons_iff in H. destruct H as [Hl Hls].
        apply (transcode_layer_exportable B e acc layer) in Hl.
        destruct Hl as [acc1 ->]. now apply IH.
  - intros layer. unfold exportable.
    destruct (tf_scale (l_transform layer)) as [scale_|].
    + destruct (is_image layer).
      * rewrite andb_true_iff. split; [intros H; now exists scale_|].
        now intros (? & _ & H).
      * split; [intros H; now exists scale_ | now intros (? & _ & H)].
    + split; [discriminate | intros (? & H & _); discriminate H].
Qed.

Lemma transcode_layers_stream B e layers : forall acc acc',
  transcode_layers B e acc layers = Some acc' ->
  inputIndex acc = S (length (inputs acc)) ->
  (inputs acc <> [] -> currentStream acc = v (length (inputs acc))) ->
  inputs acc' <> [] -> currentStream acc' = v (length (inputs acc')).
Proof.
  induction layers as [|layer layers IH]; intros acc acc'; simpl.
  - intros [= <-] _ H. exact H.
  - destruct (transcode_layer B e acc layer) as [acc1|] eqn:E; [|discriminate].
    intros H Hi Hs. apply (IH acc1 acc' H).
    + apply transcode_layer_Some in E.
      destruct E as [[_ ->] | [_ (? & ? & ? & ? & _ & _ & ->)]]; [exact Hi|].
      unfold push_filters. simpl. rewrite length_app. simpl. lia.
    + apply transcode_layer_Some in E.
      destruct E as [[_ ->] | [_ (? & ? & ? & ? & _ & _ & ->)]]; [exact Hs|].
      intros _. unfold push_filters. simpl. rewrite length_app. simpl.
      rewrite Hi. f_equal. lia.
Qed.

(** With no layer inside the trim the engine is asked for a copy of the
    streams of the trimmed video and for nothing else; with one, for the
    stream of the last overlay, encoded again. *)
Theorem args_copy_or_map (B : Browser) (e : Editor) (acc : Acc)
    (inputName : string) :
  transcode B e = Some acc ->
  (Forall (fun layer => skipped e layer = true) (textLayers e) ->
   args inputName e acc =
     [opt_threads 1; opt_ss (startTime e); opt_i inputName;
      opt_t (duration e); opt_c "copy"; output "output.mp4"]) /\
  (Exists (fun layer => skipped e layer = false) (textLayers e) ->
   In (opt_map (currentStream acc)) (args inputName e acc) /\
   ~ In (opt_c "copy") (args inputName e acc) /\
   currentStream acc = v (length (inputs acc))).
Proof.
  intros H.
  destruct (transcode_counts B e acc H) as (Hl & Hf).
  split.
  - intros Hall.
    assert (E : forall layers,
              Forall (fun layer => skipped e layer = true) layers ->
              List.filter (fun l => negb (skipped e l)) layers = []).
    { induction 1 as [|layer layers Hs _ IH]; simpl; [reflexivity|].
      rewrite Hs. simpl. exact IH. }
    rewrite (E _ Hall) in Hl. simpl in Hl. rewrite Hl in Hf. simpl in Hf.
    unfold args. rewrite Hf.
    destruct (inputs acc); [reflexivity | discriminate].
  - intros Hex.
    assert (Hpos : (0 < length (inputs acc))%nat).
    { rewrite Hl.
      assert (E : forall layers,
                Exists (fun layer => skipped e layer = false) layers ->
                (0 < length (List.filter (fun l => negb (skipped e l)) layers))%nat).
      { induction 1 as [layer layers Hs | layer layers _ IH]; simpl.
        - rewrite Hs. simpl. lia.
        - destruct (negb (skipped e layer)); simpl; lia. }
      exact (E _ Hex). }
    assert (Hne : inputs acc <> []) by (destruct (inputs acc); [simpl in Hpos; lia | discriminate]).
    assert (Hlt : (0 <? length (filterComplex acc))%nat = true)
      by (apply Nat.ltb_lt; lia).
    split; [|split].
    + unfold args. rewrite Hlt. rewrite !in_app_iff. right. right. right. left.
      simpl. tauto.
    + unfold args. rewrite Hlt. rewrite !in_app_iff, in_map_iff. simpl.
      intros [Hc | [Hc | [Hc | [Hc | Hc]]]].
      * destruct Hc as [Hc | [Hc | [Hc | []]]]; discriminate Hc.
      * destruct Hc as (? & Hc & _). discriminate Hc.
      * destruct Hc as [Hc | []]. discriminate Hc.
      * repeat (destruct Hc as [Hc | Hc]; [discriminate Hc|]). destruct Hc.
      * destruct Hc as [Hc | []]. discriminate Hc.
    + unfold transcode in H.
      apply (transcode_layers_stream B e (textLayers e) _ acc H);
        [reflexivity | intros Hc; now elim Hc | exact Hne].
Qed.

Lemma args_copy_or_map_witness :
  let B := Examples.browser 192 100 100 in
  let e := Examples.editor [] 2 7 400 225 1920 1080 in
  let acc := mkAcc [] [] main_video 1 in
  (Forall (fun layer => skipped e layer = true) (textLayers e) ->
   args "input.mp4" e acc =
     [opt_threads 1; opt_ss (startTime e); opt_i "input.mp4";
      opt_t (duration e); opt_c "copy"; output "output.mp4"]) /\
  (Exists (fun layer => skipped e layer = false) (textLayers e) ->
   In (opt_map (currentStream acc)) (args "input.mp4" e acc) /\
   ~ In (opt_c "copy") (args "input.mp4" e acc) /\
   currentStream acc = v (length (inputs acc))).
Proof.
  intros B e acc. apply (args_copy_or_map B e acc "input.mp4"). reflexivity.
Defined.

End GraphShapeFacts.
